(** * A shallow embedding of bedup's tracking module (bedup/tracking.py)

    The relational store is modelled as the list of rows of the [inode]
    table; kernel calls (path lookup, open, clone, fstat, ...) are
    section variables, i.e. arbitrary oracles; the Deduper's effects are
    threaded through a small state/error monad. *)

From Stdlib Require Import ZArith NArith List Bool Lia Permutation Sorted.
From Stdlib Require Ascii String.
Import ListNotations.

(** ** Persisted rows *)
Module Store.

(** A row of the [inode] table: key (vol_id, ino), the size, the pending
    flag and the cached fingerprints. *)
Record Inode := mkInode {
  vol_id : N;
  ino : N;
  size : N;
  has_updates : bool;
  mini_hash : option N;
  fiemap_hash : option N
}.

Definition inode_key (i : Inode) : N * N := (vol_id i, ino i).

Definition key_eqb (a b : N * N) : bool :=
  N.eqb (fst a) (fst b) && N.eqb (snd a) (snd b).

Definition set_has_updates (b : bool) (i : Inode) : Inode :=
  {| vol_id := vol_id i; ino := ino i; size := size i; has_updates := b;
     mini_hash := mini_hash i; fiemap_hash := fiemap_hash i |}.

Definition set_size (s : N) (i : Inode) : Inode :=
  {| vol_id := vol_id i; ino := ino i; size := s; has_updates := has_updates i;
     mini_hash := mini_hash i; fiemap_hash := fiemap_hash i |}.

Definition set_mini_hash (h : N) (i : Inode) : Inode :=
  {| vol_id := vol_id i; ino := ino i; size := size i; has_updates := has_updates i;
     mini_hash := Some h; fiemap_hash := fiemap_hash i |}.

(** [Inode.vol_id.in_(vol_ids)] *)
Definition in_vols (vol_ids : list N) (i : Inode) : bool :=
  existsb (N.eqb (vol_id i)) vol_ids.

(** The row with a given key, if any. *)
Definition find_row (k : N * N) (tbl : list Inode) : option Inode :=
  find (fun r => key_eqb (inode_key r) k) tbl.

(** [sess.delete(inode)] *)
Definition delete_row (k : N * N) (tbl : list Inode) : list Inode :=
  filter (fun r => negb (key_eqb (inode_key r) k)) tbl.

(** [query.order_by(-Inode.size)]: rows by decreasing size (insertion sort). *)
Fixpoint insert_by_neg_size (r : Inode) (l : list Inode) : list Inode :=
  match l with
  | [] => [r]
  | x :: xs => if (size x <=? size r)%N then r :: l else x :: insert_by_neg_size r xs
  end.

Definition order_by_neg_size (l : list Inode) : list Inode :=
  fold_right insert_by_neg_size [] l.

(** Largest size among some rows (0 for none). *)
Definition max_size (l : list Inode) : N :=
  fold_right (fun r m => N.max (size r) m) 0%N l.

End Store.

(** ** The Grouper's window bookkeeping *)
Module Grouper.
Import Store.

(** The two SQL comparisons built by [clear_updates]:
    [Inode.size <= b] and [Inode.size >= b]. *)
Inductive SizeCmp :=
| SizeLe (b : Z)
| SizeGe (b : Z).

Definition eval_cmp (c : SizeCmp) (r : Inode) : bool :=
  match c with
  | SizeLe b => (Z.of_N (size r) <=? b)%Z
  | SizeGe b => (b <=? Z.of_N (size r))%Z
  end.

Section ClearUpdates.

(** The truth value Python gives an SQL clause when [and] tests it
    ([__nonzero__] of the expression object, decided by the SQL library);
    [None] when it raises [TypeError]. Left arbitrary. *)
Variable clause_bool : SizeCmp -> option bool.

(** [window_start >= Inode.size >= window_end]: Python's chained comparison
    is [(window_start >= Inode.size) and (Inode.size >= window_end)], the
    middle operand evaluated once; the first comparison is reflected to
    [Inode.size <= window_start]; [and] returns its first operand when that
    is false, its second otherwise. *)
Definition chained_ge (window_start window_end : Z) : option SizeCmp :=
  let e1 := SizeLe window_start in
  match clause_bool e1 with
  | None => None
  | Some false => Some e1
  | Some true => Some (SizeGe window_end)
  end.

(** [for inode in skipped: inode.has_updates = True] *)
Definition restore_skipped (skipped : list Inode) (tbl : list Inode) : list Inode :=
  map (fun r => if existsb (fun s => key_eqb (inode_key s) (inode_key r)) skipped
                then set_has_updates true r else r) tbl.

(** [clear_updates(window_start, window_end)] of [dedup_tracked], closing over
    [vol_ids] and the shared [skipped] list: the bulk UPDATE, the restore of
    the skipped rows, and [skipped[:] = []]. Returns the new table and the
    new skipped list; [None] when building the WHERE clause raises. *)
Definition clear_updates (vol_ids : list N) (skipped : list Inode)
    (window_start window_end : Z) (tbl : list Inode)
    : option (list Inode * list Inode) :=
  match chained_ge window_start window_end with
  | None => None
  | Some c =>
      let tbl1 := map (fun r => if in_vols vol_ids r && eval_cmp c r
                                then set_has_updates false r else r) tbl in
      Some (restore_skipped skipped tbl1, [])
  end.

End ClearUpdates.

(** The bookkeeping as the spec words it: clear the flag of the rows of the
    volumes whose size is in [[low, high]]. *)
Definition clear_updates_spec (vol_ids : list N) (low high : Z) (tbl : list Inode)
    : list Inode :=
  map (fun r => if in_vols vol_ids r && (low <=? Z.of_N (size r))%Z
                   && (Z.of_N (size r) <=? high)%Z
                then set_has_updates false r else r) tbl.

(** Modelled from the spec: [comm_mappings] (bedup/model.py), the
    Commonality1 rows, one per size shared by at least two inodes of the
    volume set, by decreasing size. *)
Definition vol_sizes (vol_ids : list N) (tbl : list Inode) : list N :=
  map size (filter (in_vols vol_ids) tbl).

Fixpoint insert_desc (s : N) (l : list N) : list N :=
  match l with
  | [] => [s]
  | x :: xs => if (x <=? s)%N then s :: l else x :: insert_desc s xs
  end.

Definition sort_desc (l : list N) : list N := fold_right insert_desc [] l.

Definition commonality1_sizes (vol_ids : list N) (tbl : list Inode) : list N :=
  let ss := vol_sizes vol_ids tbl in
  sort_desc (nodup N.eq_dec
    (filter (fun s => (2 <=? count_occ N.eq_dec ss s)%nat) ss)).

(** [sess.query(Inode).order_by(-Inode.size).first().size] *)
Definition initial_window_start (tbl : list Inode) : option N :=
  option_map size (hd_error (order_by_neg_size tbl)).

(** The window start [dedup_tracked] hands to [windowed_query]:
    only computed when [query.count()] is non-zero. *)
Definition dedup_window_start (vol_ids : list N) (tbl : list Inode) : option N :=
  if (length (commonality1_sizes vol_ids tbl) =? 0)%nat then None
  else initial_window_start tbl.

(** What [windowed_query] does, in order: yield a row, or call
    [clear_updates(window_start, window_end)]. *)
Inductive WEvent :=
| Yield (row_size : N)
| ClearUpdates (window_start window_end : Z).

(** [query.filter(attr <= window_start).limit(per).all()] on the query
    ordered by [-attr]; a Commonality1 row is represented by its size. *)
Definition page (rows : list N) (per : nat) (window_start : Z) : list N :=
  firstn per (sort_desc (filter (fun s => (Z.of_N s <=? window_start)%Z) rows)).

(** The generator [windowed_query(window_start, query, attr, per,
    clear_updates)], run on [fuel] pages at most ([None] when exhausted). *)
Fixpoint windowed_query (fuel : nat) (rows : list N) (per : nat) (window_start : Z)
    : option (list WEvent) :=
  match fuel with
  | O => None
  | S fuel' =>
      match page rows per window_start with
      | [] => Some [ClearUpdates window_start 0]
      | li =>
          let window_end := Z.of_N (last li 0%N) in
          match windowed_query fuel' rows per (window_end - 1) with
          | None => None
          | Some rest => Some (map Yield li ++ ClearUpdates window_start window_end :: rest)
          end
      end
  end.

(** The shape of a finished run: each non-empty page [li] over
    [[window_end, window_start]] is followed by
    [clear_updates(window_start, window_end)] and the next window starts at
    [window_end - 1]; the empty page ends it with
    [clear_updates(window_start, 0)]. *)
Inductive WTrace (rows : list N) (per : nat) : Z -> list WEvent -> Prop :=
| WT_empty : forall ws,
    page rows per ws = [] -> WTrace rows per ws [ClearUpdates ws 0]
| WT_page : forall ws li t,
    page rows per ws = li -> li <> [] ->
    WTrace rows per (Z.of_N (last li 0%N) - 1) t ->
    WTrace rows per ws (map Yield li ++ ClearUpdates ws (Z.of_N (last li 0%N)) :: t).

(** The [clear_updates] ranges of a trace. *)
Definition clears_of (t : list WEvent) : list (Z * Z) :=
  flat_map (fun e => match e with ClearUpdates a b => [(a, b)] | Yield _ => [] end) t.

(** The rows a trace yields, in order. *)
Definition yields (t : list WEvent) : list N :=
  flat_map (fun e => match e with Yield s => [s] | ClearUpdates _ _ => [] end) t.

(** [WINDOW_SIZE = 200], the [per] of [dedup_tracked]. *)
Definition WINDOW_SIZE : nat := 200.

(** How many of the inclusive ranges [[we, ws]] contain size [s]. *)
Definition cover_count (cs : list (Z * Z)) (s : Z) : nat :=
  length (filter (fun p => (snd p <=? s)%Z && (s <=? fst p)%Z) cs).

End Grouper.

(** ** The Scanner: [track_updated_files] *)
Module Scanner.
Import Store.

(** The persisted attributes of a Volume row the scan reads and writes. *)
Record Volume := mkVolume {
  vid : N;
  size_cutoff : N;
  last_tracked_generation : N;
  last_tracked_size_cutoff : option N
}.

(** A search header with, for INODE_ITEM records, the fields read from the
    payload by [btrfs_stack_inode_generation/size/mode]. *)
Record SearchItem := mkItem {
  sh_objectid : N;
  sh_type : N;
  sh_offset : N;
  sh_transid : N;
  item_generation : N;
  item_size : N;
  item_mode : N
}.

Definition BTRFS_INODE_ITEM_KEY : N := 1.
Definition S_IFMT : N := 61440.   (* 0o170000 *)
Definition S_IFREG : N := 32768.  (* 0o100000 *)

(** [stat.S_ISREG(mode)] *)
Definition S_ISREG (mode : N) : bool := N.eqb (N.land mode S_IFMT) S_IFREG.

(** [min_generation] of [track_updated_files]. *)
Definition min_generation (vol : Volume) : N :=
  match last_tracked_size_cutoff vol with
  | Some s => if (s <=? size_cutoff vol)%N then (last_tracked_generation vol + 1)%N else 0%N
  | None => 0%N
  end.

(** [vol.last_tracked_size_cutoff and size >= vol.last_tracked_size_cutoff]:
    a Python truth test, so both [None] and [0] select the other branch. *)
Definition stricter_filter (vol : Volume) (sz : N) : bool :=
  match last_tracked_size_cutoff vol with
  | Some s => negb (s =? 0)%N && (s <=? sz)%N
  | None => false
  end.

(** [get_or_create(sess, Inode, vol=vol, ino=ino)] followed by
    [inode.size = size; inode.has_updates = True]; also says whether the row
    was created. *)
Definition upsert (v i sz : N) (tbl : list Inode) : list Inode * bool :=
  match find_row (v, i) tbl with
  | Some _ =>
      (map (fun r => if key_eqb (inode_key r) (v, i)
                     then set_has_updates true (set_size sz r) else r) tbl, false)
  | None => (tbl ++ [mkInode v i sz true None None], true)
  end.

Section Scan.

(** Whether [lookup_ino_path_one(vol.fd, ino)] returns a path (it raises
    [IOError] otherwise). *)
Variable lookup_ok : N -> bool.

(** The records the successive TREE_SEARCH calls return, concatenated, for
    the search key with [min_transid] set to the argument. *)
Variable tree_search : N -> list SearchItem.

(** The body of the loop over the records of a search batch. *)
Definition process_item (vol : Volume) (min_gen : N) (tbl : list Inode)
    (it : SearchItem) : list Inode :=
  if negb (sh_type it =? BTRFS_INODE_ITEM_KEY)%N then tbl else
  let inode_gen := item_generation it in
  let sz := item_size it in
  if (sz <? size_cutoff vol)%N then tbl else
  if (if stricter_filter vol sz
      then (inode_gen <=? last_tracked_generation vol)%N
      else (inode_gen <? min_gen)%N) then tbl else
  if negb (S_ISREG (item_mode it)) then tbl else
  let '(tbl', created) := upsert (vid vol) (sh_objectid it) sz tbl in
  if lookup_ok (sh_objectid it) then tbl'
  else if created then tbl  (* sess.expunge(inode): the new row is dropped *)
  else delete_row (vid vol, sh_objectid it) tbl'.

(** [track_updated_files(sess, vol, tt)], with [top_generation] the value of
    [get_root_generation(vol.fd)]. *)
Definition track_updated_files (top_generation : N) (vol : Volume) (tbl : list Inode)
    : Volume * list Inode :=
  let min_gen := min_generation vol in
  if (top_generation <? min_gen)%N then (vol, tbl) else
  let tbl' := fold_left (process_item vol min_gen) (tree_search min_gen) tbl in
  ({| vid := vid vol; size_cutoff := size_cutoff vol;
      last_tracked_generation := top_generation;
      last_tracked_size_cutoff := Some (size_cutoff vol) |}, tbl').

(** Successive runs: each sets the volume's [size_cutoff] (as [get_vol]
    does) and scans at the given root generation; the volumes after each
    scan. *)
Definition with_size_cutoff (c : N) (vol : Volume) : Volume :=
  {| vid := vid vol; size_cutoff := c;
     last_tracked_generation := last_tracked_generation vol;
     last_tracked_size_cutoff := last_tracked_size_cutoff vol |}.

Fixpoint scan_runs (runs : list (N * N)) (vol : Volume) (tbl : list Inode)
    : list Volume :=
  match runs with
  | [] => []
  | (top, c) :: rs =>
      let '(vol', tbl') := track_updated_files top (with_size_cutoff c vol) tbl in
      vol' :: scan_runs rs vol' tbl'
  end.

End Scan.

(** Each element at most the next one. *)
Fixpoint nondecreasing (l : list N) : Prop :=
  match l with
  | x :: ((y :: _) as t) => (x <= y)%N /\ nondecreasing t
  | _ => True
  end.

(** The per-record skip condition as the spec words it, with "non-null"
    for the stored size cutoff. *)
Definition record_skipped_spec (vol : Volume) (min_gen : N) (it : SearchItem) : bool :=
  let sz := item_size it in
  let gen := item_generation it in
  (sz <? size_cutoff vol)%N
  || match last_tracked_size_cutoff vol with
     | Some p => if (p <=? sz)%N then (gen <=? last_tracked_generation vol)%N
                 else (gen <? min_gen)%N
     | None => (gen <? min_gen)%N
     end
  || negb (S_ISREG (item_mode it)).

(** [forget_vol(sess, vol)]: the volume's Inode rows are deleted and
    [last_tracked_generation] is set to 0; [size_cutoff] and
    [last_tracked_size_cutoff] are left as they are. *)
Definition forget_vol (vol : Volume) (tbl : list Inode) : Volume * list Inode :=
  ({| vid := vid vol; size_cutoff := size_cutoff vol;
      last_tracked_generation := 0%N;
      last_tracked_size_cutoff := last_tracked_size_cutoff vol |},
   filter (fun r => negb (vol_id r =? vid vol)%N) tbl).

End Scanner.

(** ** The Deduper and the per-group hashing of [dedup_tracked1] *)
Module Deduper.
Import Store.

Inductive errno := ENOENT | ETXTBSY | EACCES | EOTHER (code : N).

(** A system call's outcome: a value, or an [IOError] with its errno. *)
Inductive io_result (A : Type) :=
| IOk (a : A)
| IOErr (e : errno).
Arguments IOk {A} a.
Arguments IOErr {A} e.

(** The kernel and file-system calls [dedup_tracked1] makes, as oracles.
    Files are named by their descriptor, paths are opaque numbers. *)
Record Kernel := mkKernel {
  lookup_ino_path_one : Inode -> io_result N;
  fopenat : Inode -> N -> io_result N;
  fopenat_rw : Inode -> N -> io_result N;
  fds_in_write_use : list N -> list N;
  sha1_digest : N -> N;
  fstat_ino : N -> N;
  fstat_dev : N -> N;
  tell : N -> N;
  vol_st_dev : N -> N;
  vol_size_cutoff : N -> N;
  cmp_files : N -> N -> bool;
  clone_data : N -> N -> bool;   (* dest, src; check_first=True *)
  prefix_hash : N -> N
}.

(** Calls issued, in order. *)
Inductive Action :=
| ASetrlimit (soft hard : N)
| ALookup (k : N * N)
| AOpenRO (k : N * N)
| AOpenRW (k : N * N)
| AMiniHash (k : N * N)
| AClone (dst src : N).

Record DedupEvent := mkDedupEvent {
  ev_fs : N;
  ev_item_size : N;
  ev_inodes : list (N * N)   (* one DedupEventInode per (vol, ino) *)
}.

(** What the loop of [dedup_tracked1] threads: the inode table, the shared
    [skipped] list, the local [ofile_soft], the calls issued and the
    DedupEvent rows written. *)
Record DState := mkDState {
  ds_table : list Inode;
  ds_skipped : list Inode;
  ds_soft : N;
  ds_trace : list Action;
  ds_events : list DedupEvent
}.

Inductive Failure :=
| IOError (e : errno)
| AssertionError.

Definition M (A : Type) : Type := DState -> Failure + (A * DState).

Definition ret {A} (a : A) : M A := fun s => inr (a, s).

Definition bind {A B} (m : M A) (k : A -> M B) : M B :=
  fun s => match m s with
           | inl e => inl e
           | inr (a, s') => k a s'
           end.

Definition throw {A} (e : Failure) : M A := fun _ => inl e.

Notation "x <- m ;; k" := (bind m (fun x => k))
  (at level 61, m at next level, right associativity).
Notation "m ;; k" := (bind m (fun _ => k)) (at level 61, right associativity).

Definition modify (f : DState -> DState) : M unit := fun s => inr (tt, f s).

Definition get_soft : M N := fun s => inr (ds_soft s, s).

Definition emit (a : Action) : M unit :=
  modify (fun s => mkDState (ds_table s) (ds_skipped s) (ds_soft s)
                            (ds_trace s ++ [a]) (ds_events s)).

(** [skipped.append(inode)] *)
Definition skip (i : Inode) : M unit :=
  modify (fun s => mkDState (ds_table s) (ds_skipped s ++ [i]) (ds_soft s)
                            (ds_trace s) (ds_events s)).

(** [sess.delete(inode)] *)
Definition delete (i : Inode) : M unit :=
  modify (fun s => mkDState (delete_row (inode_key i) (ds_table s)) (ds_skipped s)
                            (ds_soft s) (ds_trace s) (ds_events s)).

(** [ofile_soft = ofile_req] *)
Definition set_soft (n : N) : M unit :=
  modify (fun s => mkDState (ds_table s) (ds_skipped s) n (ds_trace s) (ds_events s)).

(** [sess.add(evt)] and its DedupEventInode rows, then [sess.commit()]. *)
Definition add_event (ev : DedupEvent) : M unit :=
  modify (fun s => mkDState (ds_table s) (ds_skipped s) (ds_soft s) (ds_trace s)
                            (ds_events s ++ [ev])).

Fixpoint iter {A} (f : A -> M unit) (l : list A) : M unit :=
  match l with
  | [] => ret tt
  | x :: xs => f x ;; iter f xs
  end.

(** A descriptor opened on a cohort member: [fd_inodes[fd]], [fd_names[fd]]. *)
Record OFile := mkOFile { of_fd : N; of_inode : Inode; of_path : N }.

Section WithKernel.
Variable K : Kernel.
Variable fs_id : N.

(** Modelled from the spec: [Inode.mini_hash_from_file] (bedup/model.py),
    a deterministic hash over a bounded prefix of the file, persisted in
    the row's [mini_hash]. *)
Definition mini_hash_from_file (inode : Inode) (fd : N) : M unit :=
  emit (AMiniHash (inode_key inode)) ;;
  modify (fun s => mkDState
    (map (fun r => if key_eqb (inode_key r) (inode_key inode)
                   then set_mini_hash (prefix_hash K fd) r else r) (ds_table s))
    (ds_skipped s) (ds_soft s) (ds_trace s) (ds_events s)).

(** One iteration of [for inode in comm1.inodes:]. *)
Definition comm1_hash_one (inode : Inode) : M unit :=
  emit (ALookup (inode_key inode)) ;;
  match lookup_ino_path_one K inode with
  | IOErr ENOENT => delete inode
  | IOErr e => throw (IOError e)
  | IOk path =>
      emit (AOpenRO (inode_key inode)) ;;
      match fopenat K inode path with
      | IOErr e => throw (IOError e)
      | IOk rfile => mini_hash_from_file inode rfile
      end
  end.

Definition comm1_hash (members : list Inode) : M unit := iter comm1_hash_one members.

(** One iteration of the open loop over [comm3.inodes]. *)
Definition open_one (inode : Inode) : M (option OFile) :=
  emit (ALookup (inode_key inode)) ;;
  match lookup_ino_path_one K inode with
  | IOErr ENOENT => delete inode ;; ret None
  | IOErr e => throw (IOError e)
  | IOk path =>
      emit (AOpenRW (inode_key inode)) ;;
      match fopenat_rw K inode path with
      | IOErr ETXTBSY => skip inode ;; ret None
      | IOErr EACCES => skip inode ;; ret None
      | IOErr ENOENT => skip inode ;; ret None
      | IOErr e => throw (IOError e)
      | IOk fd => ret (Some (mkOFile fd inode path))
      end
  end.

Fixpoint open_all (inodes : list Inode) : M (list OFile) :=
  match inodes with
  | [] => ret []
  | i :: is =>
      o <- open_one i ;;
      files <- open_all is ;;
      ret (match o with Some f => f :: files | None => files end)
  end.

(** [by_hash[digest].append(afile)] on the [defaultdict(list)], kept as an
    association list in first-insertion order. *)
Fixpoint add_to_bucket (d : N) (f : OFile) (b : list (N * list OFile))
    : list (N * list OFile) :=
  match b with
  | [] => [(d, [f])]
  | (d', fs) :: bs =>
      if (d =? d')%N then (d', fs ++ [f]) :: bs else (d', fs) :: add_to_bucket d f bs
  end.

(** One iteration of the hashing loop, inside the immutability lock. *)
Definition hash_one (write_use : list N) (comm3_size : N)
    (by_hash : list (N * list OFile)) (f : OFile) : M (list (N * list OFile)) :=
  let fd := of_fd f in
  let inode := of_inode f in
  if existsb (N.eqb fd) write_use then skip inode ;; ret by_hash else
  let digest := sha1_digest K fd in
  if negb (fstat_ino K fd =? ino inode)%N then skip inode ;; ret by_hash else
  if negb (fstat_dev K fd =? vol_st_dev K (vol_id inode))%N then skip inode ;; ret by_hash else
  let sz := tell K fd in
  if negb (sz =? comm3_size)%N then
    (if (sz <? vol_size_cutoff K (vol_id inode))%N then delete inode else skip inode) ;;
    ret by_hash
  else ret (add_to_bucket digest f by_hash).

Fixpoint hash_all (write_use : list N) (comm3_size : N)
    (by_hash : list (N * list OFile)) (files : list OFile) : M (list (N * list OFile)) :=
  match files with
  | [] => ret by_hash
  | f :: fs =>
      b <- hash_one write_use comm3_size by_hash f ;;
      hash_all write_use comm3_size b fs
  end.

(** [for dfile in dfiles:]: compare, clone, collect the successful ones. *)
Fixpoint clone_dsts (sfd : N) (dfiles : list OFile) : M (list OFile) :=
  match dfiles with
  | [] => ret []
  | d :: ds =>
      if negb (cmp_files K sfd (of_fd d)) then throw AssertionError else
      emit (AClone (of_fd d) sfd) ;;
      let ok := clone_data K (of_fd d) sfd in
      rest <- clone_dsts sfd ds ;;
      ret (if ok then d :: rest else rest)
  end.

(** The body of [for fileset in by_hash.itervalues():]. *)
Definition dedup_bucket (comm3_size : N) (fileset : list OFile) : M unit :=
  match fileset with
  | [] | [_] => ret tt
  | sfile :: dfiles =>
      succ <- clone_dsts (of_fd sfile) dfiles ;;
      match succ with
      | [] => ret tt
      | _ :: _ =>
          add_event (mkDedupEvent fs_id comm3_size
                       (map (fun f => inode_key (of_inode f)) (sfile :: succ)))
      end
  end.

(** [for inode in comm3.inodes: if inode.has_updates: skipped.append(inode)] *)
Definition skip_pending (inodes : list Inode) : M unit :=
  iter (fun i => if has_updates i then skip i else ret tt) inodes.

(** Opening, hashing and cloning a cohort that fits the descriptor budget. *)
Definition process_cohort (comm3_size : N) (inodes : list Inode) : M unit :=
  files <- open_all inodes ;;
  let write_use := fds_in_write_use K (map of_fd files) in
  by_hash <- hash_all write_use comm3_size [] files ;;
  iter (dedup_bucket comm3_size) (map snd by_hash).

(** The handling of one Commonality3 [{comm3_size, inodes}] in
    [dedup_tracked1], from [ofile_req] on. *)
Definition dedup_comm3 (ofile_reserved ofile_hard comm3_size : N)
    (inodes : list Inode) : M unit :=
  let count3 := N.of_nat (length inodes) in
  let ofile_req := (2 * count3 + ofile_reserved)%N in
  soft <- get_soft ;;
  if (soft <? ofile_req)%N then
    if (ofile_req <=? ofile_hard)%N then
      emit (ASetrlimit ofile_req ofile_hard) ;;
      set_soft ofile_req ;;
      process_cohort comm3_size inodes
    else skip_pending inodes
  else process_cohort comm3_size inodes.

End WithKernel.

(** [ofile_reserved = 7 + len(volset)] *)
Definition ofile_reserved (nvols : nat) : N := (7 + N.of_nat nvols)%N.

(** Whether the path lookup of a member succeeds. *)
Definition lookup_succeeds (K : Kernel) (i : Inode) : bool :=
  match lookup_ino_path_one K i with IOk _ => true | IOErr _ => false end.

(** Whether an iteration of [for inode in comm1.inodes:] passes [i]
    without raising: the lookup fails with [ENOENT], or the lookup and
    the open both succeed. *)
Definition member_ok (K : Kernel) (i : Inode) : bool :=
  match lookup_ino_path_one K i with
  | IOErr ENOENT => true
  | IOErr _ => false
  | IOk path => match fopenat K i path with IOk _ => true | IOErr _ => false end
  end.

(** The rows whose mini-hash was computed, in order, in a trace. *)
Definition minihash_keys (tr : list Action) : list (N * N) :=
  flat_map (fun a => match a with AMiniHash k => [k] | _ => [] end) tr.

End Deduper.

(** ** What a Deduper run appends to the trace *)
Module DeduperTrace.
Import Store Deduper.

(** The [setrlimit] calls of a trace, as [(soft, hard)]. *)
Definition rlimit_calls (tr : list Action) : list (N * N) :=
  flat_map (fun a => match a with ASetrlimit so h => [(so, h)] | _ => [] end) tr.

(** Each element below the next one. *)
Fixpoint strictly_increasing (l : list N) : Prop :=
  match l with
  | x :: ((y :: _) as t) => (x < y)%N /\ strictly_increasing t
  | _ => True
  end.

(** The clone calls satisfy [Q dst src]; other actions are unconstrained. *)
Definition clones_satisfy (Q : N -> N -> Prop) (a : Action) : Prop :=
  match a with AClone d so => Q d so | _ => True end.

(** A run from [s] to [s'] that keeps the soft limit and only appends
    actions satisfying [P]. *)
Definition step_ok (P : Action -> Prop) (s s' : DState) : Prop :=
  ds_soft s' = ds_soft s /\ exists tr, ds_trace s' = ds_trace s ++ tr /\ Forall P tr.

Definition pres {A} (P : Action -> Prop) (m : M A) : Prop :=
  forall s a s', m s = inr (a, s') -> step_ok P s s'.

(** The checks of the hashing loop a descriptor passes before
    [by_hash[hasher.digest()].append(afile)]: not in write use, [fstat]
    inode and device as recorded, [tell()] equal to the cohort size. *)
Definition passes_checks (K : Kernel) (write_use : list N) (comm3_size : N) (f : OFile) : bool :=
  negb (existsb (N.eqb (of_fd f)) write_use)
  && (fstat_ino K (of_fd f) =? ino (of_inode f))%N
  && (fstat_dev K (of_fd f) =? vol_st_dev K (vol_id (of_inode f)))%N
  && (tell K (of_fd f) =? comm3_size)%N.

(** A clone [dst <- src] between two descriptors the open loop produced
    ([files]), both having passed the hashing checks, with equal SHA-1
    digests and equal contents by [cmp_files]. *)
Definition clone_checked (K : Kernel) (files : list OFile) (comm3_size : N) (dst src : N) : Prop :=
  exists fd fs, In fd files /\ In fs files /\ of_fd fd = dst /\ of_fd fs = src /\
    passes_checks K (fds_in_write_use K (map of_fd files)) comm3_size fd = true /\
    passes_checks K (fds_in_write_use K (map of_fd files)) comm3_size fs = true /\
    sha1_digest K dst = sha1_digest K src /\
    cmp_files K src dst = true.

End DeduperTrace.

(** ** A concrete kernel for the runs on explicit inputs *)
Module Fixtures.
Import Store Deduper.

(** Every path resolves (the path is the inode number), every open
    succeeds with the inode number as descriptor, no file is in write use,
    all contents hash alike and have size 20 on device 0, and only
    destination 3 gets new extents from [clone_data]. *)
Definition kernel_ok : Kernel := mkKernel
  (fun i => IOk (ino i))
  (fun i _ => IOk (ino i))
  (fun i _ => IOk (ino i))
  (fun _ => [])
  (fun _ => 0%N)
  (fun fd => fd)
  (fun _ => 0%N)
  (fun _ => 20%N)
  (fun _ => 0%N)
  (fun _ => 10%N)
  (fun _ _ => true)
  (fun d _ => N.eqb d 3)
  (fun _ => 9%N).

(** An empty Deduper state with soft limit [soft]. *)
Definition state0 (tbl : list Inode) (soft : N) : DState := mkDState tbl [] soft [] [].

(** Inode 5 is an executable in use ([ETXTBSY] on a read-write open),
    inode 6 is gone ([ENOENT] at path lookup), inode 8 hits another error
    at path lookup; otherwise as [kernel_ok]. *)
Definition kernel_racy : Kernel := mkKernel
  (fun i => if (ino i =? 6)%N then IOErr ENOENT
            else if (ino i =? 8)%N then IOErr (EOTHER 5) else IOk (ino i))
  (fun i _ => IOk (ino i))
  (fun i _ => if (ino i =? 5)%N then IOErr ETXTBSY else IOk (ino i))
  (fun _ => [])
  (fun _ => 0%N)
  (fun fd => fd)
  (fun _ => 0%N)
  (fun _ => 20%N)
  (fun _ => 0%N)
  (fun _ => 10%N)
  (fun _ _ => true)
  (fun d _ => N.eqb d 3)
  (fun _ => 9%N).

(** Two cohorts of size 20 on volume 1: inodes 2, 3 and inodes 4, 5, 6. *)
Definition cohorts0 : list (N * list Inode) :=
  [(20%N, [mkInode 1 2 20 false None None; mkInode 1 3 20 false None None]);
   (20%N, [mkInode 1 4 20 false None None; mkInode 1 5 20 false None None;
           mkInode 1 6 20 false None None])].

End Fixtures.

(** ** The TREE_SEARCH loop of [track_updated_files] *)
Module SearchLoop.
Import Scanner.

Definition u64_max : N := 18446744073709551615.

(** A record's key, in the search key's order
    [(min_objectid, min_type, min_offset)]. *)
Definition key_of (it : SearchItem) : N * N * N :=
  (sh_objectid it, sh_type it, sh_offset it).

(** The btrfs key order: by objectid, then type, then offset. *)
Definition key_ltb (a b : N * N * N) : bool :=
  let '(o1, t1, f1) := a in
  let '(o2, t2, f2) := b in
  (o1 <? o2)%N || ((o1 =? o2)%N && ((t1 <? t2)%N || ((t1 =? t2)%N && (f1 <? f2)%N))).

Definition key_leb (a b : N * N * N) : bool := negb (key_ltb b a).

(** How the loop ends: [nr_items == 0] after the records handled, or the
    [OverflowError] cffi raises when [sk.min_offset += 1] leaves the u64
    range (after the batch was handled), or out of fuel. *)
Inductive search_outcome :=
| SearchDone (handled : list SearchItem)
| SearchOverflow (handled : list SearchItem)
| SearchOutOfFuel.

Section Loop.

(** One [BTRFS_IOC_TREE_SEARCH] call with [nr_items = 4096] and the search
    key's [min_*] fields set to the cursor: the records it returns. *)
Variable ioctl_search : N * N * N -> list SearchItem.

(** The [while True:] loop, from a cursor: call the ioctl, stop on an empty
    batch, hand the records of the batch to the loop body, move the cursor
    to the last header's key with [min_offset] one further. *)
Fixpoint search_loop (fuel : nat) (cursor : N * N * N) : search_outcome :=
  match fuel with
  | O => SearchOutOfFuel
  | S fuel' =>
      match ioctl_search cursor with
      | [] => SearchDone []
      | batch =>
          let sh := last batch (mkItem 0 0 0 0 0 0 0) in
          if (sh_offset sh + 1 <=? u64_max)%N then
            match search_loop fuel' (sh_objectid sh, sh_type sh, sh_offset sh + 1)%N with
            | SearchDone r => SearchDone (batch ++ r)
            | SearchOverflow r => SearchOverflow (batch ++ r)
            | SearchOutOfFuel => SearchOutOfFuel
            end
          else SearchOverflow batch
      end
  end.

End Loop.

(** The zero-initialised search key: the loop starts at [(0, 0, 0)]. *)
Definition search_start : N * N * N := (0%N, 0%N, 0%N).

(** A kernel serving the records [tree] (those the search can return, in
    key order): the first 4096 of them at or after the cursor. *)
Definition tree_search_batch (tree : list SearchItem) (c : N * N * N) : list SearchItem :=
  firstn 4096 (filter (fun it => key_leb c (key_of it)) tree).

(** Keys strictly increasing. *)
Fixpoint keys_sorted (l : list SearchItem) : bool :=
  match l with
  | x :: ((y :: _) as t) => key_ltb (key_of x) (key_of y) && keys_sorted t
  | _ => true
  end.

End SearchLoop.

(** A scan of volume 1 (cutoff 10, never scanned) whose search returns
    two regular files, inode 7 (size 20, not tracked yet) and inode 9
    (size 50, tracked, path lookup failing); volume 2 has a row too. *)
Module ScanFixtures.
Import Store Scanner.

Definition vol1 : Volume := mkVolume 1 10 0 None.

Definition tbl0 : list Inode :=
  [mkInode 1 9 40 false None None; mkInode 2 7 30 false None None].

Definition items0 : list SearchItem :=
  [mkItem 7 BTRFS_INODE_ITEM_KEY 0 6 6 20 33188; mkItem 9 BTRFS_INODE_ITEM_KEY 0 6 6 50 33188].

Definition lookup0 (i : N) : bool := negb (i =? 9)%N.

End ScanFixtures.

(** ** [WholeFS]: mount table, [blkid] devices and mount points *)
Module WholeFS.
Import Ascii String.

(** The exceptions these methods can raise. *)
Inductive PyExc :=
| ValueError
| IndexError
| AttributeError
| AssertionError
| KeyError
| TypeError
| CalledProcessError
| OSError (e : Deduper.errno)
| IOError (e : Deduper.errno).

Definition errno_eqb (a b : Deduper.errno) : bool :=
  match a, b with
  | Deduper.ENOENT, Deduper.ENOENT | Deduper.ETXTBSY, Deduper.ETXTBSY
  | Deduper.EACCES, Deduper.EACCES => true
  | Deduper.EOTHER x, Deduper.EOTHER y => (x =? y)%N
  | _, _ => false
  end.

(** [errno.EPERM] *)
Definition EPERM : Deduper.errno := Deduper.EOTHER 1.

Definition BTRFS_FIRST_FREE_OBJECTID : N := 256.

(** An entry of [read_root_tree]: the volume's path and frozen flag. *)
Record RootInfo := mkRootInfo { ri_path : string; ri_is_frozen : bool }.

(** [DeviceInfo = namedtuple('DeviceInfo', 'label devices')]; a label
    absent from the [blkid] line is [None]. *)
Record DeviceInfo := mkDeviceInfo { di_label : option string; di_devices : list string }.

(** The outside world: the lines of [/proc/self/mountinfo], the output
    lines of [blkid -s LABEL -s UUID -t TYPE=btrfs] ([None] when
    [check_output] raises), [os.path.realpath], [os.open(_, O_DIRECTORY)],
    [os.fstat(fd).st_ino], [get_root_id] and [read_root_tree]. *)
Record WKernel := mkWKernel {
  mountinfo : list string;
  blkid_output : option (list string);
  realpath : string -> string;
  open_dir : string -> Deduper.io_result N;
  st_ino_of : N -> N;
  get_root_id : N -> Deduper.io_result N;
  read_root_tree : N -> Deduper.io_result (list (N * RootInfo))
}.

(** Descriptor calls issued, in order. *)
Inductive WAction :=
| WOpen (fd : N)
| WClose (fd : N)
| WReadRoot (fd : N).

(** The [WholeFS] caches [_mpoints_by_dev] and [_device_info], the
    attributes [root_info] and [mpoints] of the one [Filesystem] object at
    hand, and the descriptor calls. *)
Record WState := mkWState {
  w_mbd : option (list (string * list (string * string)));
  w_devinfo : option (list (string * DeviceInfo));
  w_root_info : option (list (N * RootInfo));
  w_mpoints : option (list (N * list string));
  w_trace : list WAction
}.

(** A Python call: a result, or an exception together with the state
    reached when it was raised. *)
Definition WM (A : Type) : Type := WState -> (PyExc * WState) + (A * WState).

Definition wret {A} (a : A) : WM A := fun s => inr (a, s).

Definition wbind {A B} (m : WM A) (k : A -> WM B) : WM B :=
  fun s => match m s with
           | inl e => inl e
           | inr (a, s') => k a s'
           end.

Definition wthrow {A} (e : PyExc) : WM A := fun s => inl (e, s).

Notation "'let!' x ':=' m 'in' k" := (wbind m (fun x => k))
  (at level 200, x name, m at level 100, k at level 200).

Definition wemit (a : WAction) : WM unit :=
  fun s => inr (tt, mkWState (w_mbd s) (w_devinfo s) (w_root_info s) (w_mpoints s)
                             (w_trace s ++ [a])).

(** Dictionaries as association lists in insertion order. *)
Fixpoint lookup_s {A} (k : string) (d : list (string * A)) : option A :=
  match d with
  | [] => None
  | (k', v) :: d' => if String.eqb k k' then Some v else lookup_s k d'
  end.

Fixpoint lookup_n {A} (k : N) (d : list (N * A)) : option A :=
  match d with
  | [] => None
  | (k', v) :: d' => if (k =? k')%N then Some v else lookup_n k d'
  end.

(** [d[k].append(x)] on a [defaultdict(list)] with string keys. *)
Fixpoint append_s {A} (k : string) (x : A) (d : list (string * list A)) : list (string * list A) :=
  match d with
  | [] => [(k, [x])]
  | (k', l) :: d' => if String.eqb k k' then (k', l ++ [x]) :: d' else (k', l) :: append_s k x d'
  end.

(** [d[k].append(x)] on a [defaultdict(list)] with integer keys. *)
Fixpoint append_n {A} (k : N) (x : A) (d : list (N * list A)) : list (N * list A) :=
  match d with
  | [] => [(k, [x])]
  | (k', l) :: d' => if (k =? k')%N then (k', l ++ [x]) :: d' else (k', l) :: append_n k x d'
  end.

(** *** [mpoints_by_dev] *)

(** The whitespace of [str.split()]: space, tab, newline, vertical tab,
    form feed, carriage return. *)
Definition is_ws (c : ascii) : bool :=
  match nat_of_ascii c with
  | 9 | 10 | 11 | 12 | 13 | 32 => true
  | _ => false
  end.

(** [str.split()]: the maximal runs of non-whitespace characters;
    [cur] is the current run, reversed. *)
Fixpoint words (l : list ascii) (cur : list ascii) : list (list ascii) :=
  match l with
  | [] => match cur with [] => [] | _ => [rev cur] end
  | c :: r =>
      if is_ws c then
        match cur with [] => words r [] | _ => rev cur :: words r [] end
      else words r (c :: cur)
  end.

Definition py_split (s : string) : list string :=
  map string_of_list_ascii (words (list_ascii_of_string s) []).

(** [items.index(x)]: the first position of [x], [None] for [ValueError]. *)
Fixpoint index_of (x : string) (l : list string) : option nat :=
  match l with
  | [] => None
  | y :: l' => if String.eqb x y then Some O else option_map S (index_of x l')
  end.

(** One line of the loop: [None] for [continue], else the device and the
    pair [(volpath, mpoint)] appended under it. *)
Definition parse_mount_line (K : WKernel) (line : string)
    : PyExc + option (string * (string * string)) :=
  let items := py_split line in
  match index_of "-"%string items with
  | None => inl ValueError
  | Some idx =>
      match nth_error items (S idx) with
      | None => inl IndexError
      | Some fs_type =>
          if negb (String.eqb fs_type "btrfs"%string) then inr None else
          match nth_error items 3, nth_error items 4, nth_error items (S (S idx)) with
          | Some volpath, Some mpoint, Some d => inr (Some (realpath K d, (volpath, mpoint)))
          | _, _, _ => inl IndexError
          end
      end
  end.

Fixpoint parse_mountinfo (K : WKernel) (lines : list string)
    (mbd : list (string * list (string * string)))
    : PyExc + list (string * list (string * string)) :=
  match lines with
  | [] => inr mbd
  | line :: ls =>
      match parse_mount_line K line with
      | inl e => inl e
      | inr None => parse_mountinfo K ls mbd
      | inr (Some (d, p)) => parse_mountinfo K ls (append_s d p mbd)
      end
  end.

(** The [mpoints_by_dev] property: the cache is filled only once the whole
    file has been read. *)
Definition mpoints_by_dev (K : WKernel) : WM (list (string * list (string * string))) :=
  fun s =>
    match w_mbd s with
    | Some m => inr (m, s)
    | None =>
        match parse_mountinfo K (mountinfo K) [] with
        | inl e => inl (e, s)
        | inr m => inr (m, mkWState (Some m) (w_devinfo s) (w_root_info s) (w_mpoints s)
                                    (w_trace s))
        end
    end.

(** *** [BLKID_RE] and [device_info] *)

Definition dq : ascii := ascii_of_nat 34.

Fixpoint strip_prefix (p s : string) : option string :=
  match p with
  | EmptyString => Some s
  | String c p' =>
      match s with
      | EmptyString => None
      | String c' s' => if Ascii.eqb c c' then strip_prefix p' s' else None
      end
  end.

(** The longest prefix without [c], and the rest. *)
Fixpoint span_not (c : ascii) (s : string) : string * string :=
  match s with
  | EmptyString => (EmptyString, EmptyString)
  | String x s' =>
      if Ascii.eqb x c then (EmptyString, s)
      else let (a, b) := span_not c s' in (String x a, b)
  end.

Fixpoint all_ws (s : string) : bool :=
  match s with
  | EmptyString => true
  | String c s' => is_ws c && all_ws s'
  end.

(** The optional group of [BLKID_RE]: [LABEL=], a double quote, the
    [label] group (a run of non-quote characters), a double quote and a
    space; the label and the rest. A run of non-quote characters followed
    by a quote can only end at the first quote, so the greedy run is the
    only candidate. *)
Definition label_group (s : string) : option (string * string) :=
  match strip_prefix "LABEL="%string s with
  | None => None
  | Some r =>
      match strip_prefix (String dq EmptyString) r with
      | None => None
      | Some r1 =>
          let (lab, r2) := span_not dq r1 in
          match strip_prefix (String dq " "%string) r2 with
          | None => None
          | Some r3 => Some (lab, r3)
          end
      end
  end.

(** [UUID=], a double quote, the [uuid] group (a run of non-quote
    characters), a double quote, then [\s*$]: the rest after the closing quote must be
    whitespace only ([$] also matches before a final newline, which
    [\s*] absorbs). *)
Definition uuid_tail (s : string) : option string :=
  match strip_prefix "UUID="%string s with
  | None => None
  | Some r =>
      match strip_prefix (String dq EmptyString) r with
      | None => None
      | Some r1 =>
          let (u, r2) := span_not dq r1 in
          match strip_prefix (String dq EmptyString) r2 with
          | None => None
          | Some r3 => if all_ws r3 then Some u else None
          end
      end
  end.

(** [BLKID_RE.match(line)]: [(dev, label, uuid)] or [None]. The optional
    label group is tried first, then skipped ([?] is greedy). *)
Definition blkid_match (line : string) : option (string * option string * string) :=
  match strip_prefix "/dev/"%string line with
  | None => None
  | Some r =>
      let (d, r1) := span_not ":"%char r in
      match strip_prefix ": "%string r1 with
      | None => None
      | Some r2 =>
          match match label_group r2 with
                | Some (lab, r3) => option_map (fun u => (Some lab, u)) (uuid_tail r3)
                | None => None
                end with
          | Some (lab, u) => Some (("/dev/" ++ d)%string, lab, u)
          | None => option_map (fun u => (("/dev/" ++ d)%string, None, u)) (uuid_tail r2)
          end
      end
  end.

Definition option_string_eqb (a b : option string) : bool :=
  match a, b with
  | Some x, Some y => String.eqb x y
  | None, None => true
  | _, _ => false
  end.

(** [self._device_info], the dict the loop fills in place. *)
Definition get_devinfo : WM (list (string * DeviceInfo)) :=
  fun s => inr (match w_devinfo s with Some d => d | None => [] end, s).

Definition set_devinfo (d : list (string * DeviceInfo)) : WM unit :=
  fun s => inr (tt, mkWState (w_mbd s) (Some d) (w_root_info s) (w_mpoints s) (w_trace s)).

(** The loop over the [blkid] lines. *)
Fixpoint devinfo_loop (lines : list string) : WM unit :=
  match lines with
  | [] => wret tt
  | line :: ls =>
      match blkid_match line with
      | None => wthrow AttributeError
      | Some (dev, label, uuid) =>
          let! d := get_devinfo in
          match lookup_s uuid d with
          | Some di =>
              if option_string_eqb (di_label di) label then
                let! _ := set_devinfo
                  (map (fun kv => if String.eqb uuid (fst kv)
                                  then (fst kv, mkDeviceInfo (di_label (snd kv))
                                                  (di_devices (snd kv) ++ [dev]))
                                  else kv) d) in
                devinfo_loop ls
              else wthrow AssertionError
          | None =>
              let! _ := set_devinfo (d ++ [(uuid, mkDeviceInfo label [dev])]) in
              devinfo_loop ls
          end
      end
  end.

(** The [device_info] property: [self._device_info = {}] is stored before
    [blkid] runs and is filled in place. *)
Definition device_info (K : WKernel) : WM (list (string * DeviceInfo)) :=
  fun s =>
    match w_devinfo s with
    | Some d => inr (d, s)
    | None =>
        (let! _ := set_devinfo [] in
         match blkid_output K with
         | None => wthrow CalledProcessError
         | Some lines => let! _ := devinfo_loop lines in get_devinfo
         end) s
    end.

(** *** [ensure_root_info], [_read_mount_info], [ensure_mount_info] *)

(** [is_subvolume(fd)] *)
Definition is_subvolume (K : WKernel) (fd : N) : bool :=
  (st_ino_of K fd =? BTRFS_FIRST_FREE_OBJECTID)%N.

Definition get_root_info : WM (option (list (N * RootInfo))) :=
  fun s => inr (w_root_info s, s).

Definition ensure_root_info (K : WKernel) (fd : N) : WM unit :=
  let! ri := get_root_info in
  match ri with
  | Some _ => wret tt
  | None =>
      let! _ := wemit (WReadRoot fd) in
      match read_root_tree K fd with
      | Deduper.IOErr e => wthrow (IOError e)
      | Deduper.IOk t =>
          fun s => inr (tt, mkWState (w_mbd s) (w_devinfo s) (Some t) (w_mpoints s) (w_trace s))
      end
  end.

(** The [try] block: [None] for [continue], else the root id. *)
Definition mount_body (K : WKernel) (fd : N) : WM (option N) :=
  if negb (is_subvolume K fd) then wret None else
  match get_root_id K fd with
  | Deduper.IOErr e => if errno_eqb e EPERM then wret None else wthrow (IOError e)
  | Deduper.IOk root_id =>
      let! _ := ensure_root_info K fd in
      wret (Some root_id)
  end.

(** [try: ... finally: os.close(fd)] *)
Definition close_after {A} (fd : N) (m : WM A) : WM A :=
  fun s =>
    match m s with
    | inl (e, s1) => match wemit (WClose fd) s1 with
                     | inr (_, s2) => inl (e, s2)
                     | inl x => inl x
                     end
    | inr (a, s1) => match wemit (WClose fd) s1 with
                     | inr (_, s2) => inr (a, s2)
                     | inl x => inl x
                     end
    end.

(** One iteration of [for volpath, mpoint in ...], on the local
    [mpoints] dict. *)
Definition mount_one (K : WKernel) (volpath mpoint : string) (acc : list (N * list string))
    : WM (list (N * list string)) :=
  match open_dir K mpoint with
  | Deduper.IOErr e => wthrow (OSError e)
  | Deduper.IOk fd =>
      let! _ := wemit (WOpen fd) in
      let! o := close_after fd (mount_body K fd) in
      match o with
      | None => wret acc
      | Some root_id =>
          let! ri := get_root_info in
          match ri with
          | None => wthrow TypeError
          | Some t =>
              match lookup_n root_id t with
              | None => wthrow KeyError
              | Some r =>
                  if String.eqb (ri_path r) volpath then wret (append_n root_id mpoint acc)
                  else wthrow AssertionError
              end
          end
      end
  end.

Fixpoint mount_loop (K : WKernel) (l : list (string * string)) (acc : list (N * list string))
    : WM (list (N * list string)) :=
  match l with
  | [] => wret acc
  | (volpath, mpoint) :: l' =>
      let! acc' := mount_one K volpath mpoint acc in
      mount_loop K l' acc'
  end.

(** [_read_mount_info(fs, dev, mpoints)] *)
Definition read_mount_info (K : WKernel) (dev : string) (acc : list (N * list string))
    : WM (list (N * list string)) :=
  let dev_canonical := realpath K dev in
  let! mbd := mpoints_by_dev K in
  match lookup_s dev_canonical mbd with
  | None => wret acc
  | Some _ =>
      let! mbd' := mpoints_by_dev K in
      match lookup_s dev_canonical mbd' with
      | None => wthrow KeyError
      | Some l => mount_loop K l acc
      end
  end.

Fixpoint dev_loop (K : WKernel) (devs : list string) (acc : list (N * list string))
    : WM (list (N * list string)) :=
  match devs with
  | [] => wret acc
  | dev :: ds =>
      let! acc' := read_mount_info K dev acc in
      dev_loop K ds acc'
  end.

(** [ensure_mount_info(fs)] for the filesystem of UUID [uuid]. *)
Definition ensure_mount_info (K : WKernel) (uuid : string) : WM unit :=
  fun s =>
    match w_mpoints s with
    | Some _ => inr (tt, s)
    | None =>
        (let! di := device_info K in
         match lookup_s uuid di with
         | None => wthrow KeyError
         | Some info =>
             let! acc := dev_loop K (di_devices info) [] in
             fun s' => inr (tt, mkWState (w_mbd s') (w_devinfo s') (w_root_info s')
                                         (Some acc) (w_trace s'))
         end) s
    end.

End WholeFS.

(** ** What a [WholeFS] call leaves in the descriptor trace *)
Module WholeFSTrace.
Import WholeFS.
Import String.

(** A descriptor's life: opened, maybe used for [read_root_tree], closed. *)
Definition fd_block (b : N * bool) : list WAction :=
  WOpen (fst b) :: (if snd b then [WReadRoot (fst b)] else []) ++ [WClose (fst b)].

Definition blocks (bl : list (N * bool)) : list WAction := flat_map fd_block bl.

(** How many blocks read the root tree. *)
Definition reads (bl : list (N * bool)) : nat := List.length (filter snd bl).

Definition final_state {A} (r : (PyExc * WState) + (A * WState)) : WState :=
  match r with inl (_, s) => s | inr (_, s) => s end.

Definition outcome_ok {A} (r : (PyExc * WState) + (A * WState)) : bool :=
  match r with inl _ => false | inr _ => true end.

(** [n] root-tree reads from [s] to [s']: none, with [root_info] kept,
    once it is known; otherwise at most one, and after a completed run
    ([ok]) one read leaves [root_info] set. *)
Definition root_reads (ok : bool) (s s' : WState) (n : nat) : Prop :=
  match w_root_info s with
  | Some x => w_root_info s' = Some x /\ n = 0%nat
  | None => (n = 0%nat /\ w_root_info s' = None) \/ (n = 1%nat /\ (ok = true -> w_root_info s' <> None))
  end.

Definition wstep (ok : bool) (s s' : WState) : Prop :=
  exists bl, w_trace s' = w_trace s ++ blocks bl /\ root_reads ok s s' (reads bl).

(** A call whose every outcome, normal or exceptional, is such a step. *)
Definition wsafe {A} (m : WM A) : Prop :=
  forall s, wstep (outcome_ok (m s)) s (final_state (m s)).

(** [mp in mpoints[root_id]] *)
Definition In_mp (rid : N) (mp : string) (acc : list (N * list string)) : Prop :=
  exists mps, In (rid, mps) acc /\ In mp mps.

(** Caches and [root_info], once set, are kept. *)
Definition mono (s s' : WState) : Prop :=
  (forall t, w_root_info s = Some t -> w_root_info s' = Some t) /\
  (forall m, w_mbd s = Some m -> w_mbd s' = Some m) /\
  (forall d, w_devinfo s = Some d -> w_devinfo s' = Some d).

(** [mp] opens to a subvolume root whose root id is [rid]. *)
Definition subvol_root (K : WKernel) (mp : string) (rid : N) : Prop :=
  exists fd, open_dir K mp = Deduper.IOk fd /\ is_subvolume K fd = true /\
             get_root_id K fd = Deduper.IOk rid.

(** A btrfs mount line of one of [devs] in the mount table cached in [s],
    for volume path [vp] on mount point [mp], whose mount point is a
    subvolume of root id [rid]. *)
Definition mount_source (K : WKernel) (s : WState) (devs : list string) (rid : N) (vp mp : string)
    : Prop :=
  exists dev m l, In dev devs /\ w_mbd s = Some m /\ lookup_s (realpath K dev) m = Some l /\
                  In (vp, mp) l /\ subvol_root K mp rid.

(** [fs.root_info[rid].path == vp] *)
Definition root_path (s : WState) (rid : N) (vp : string) : Prop :=
  exists t r, w_root_info s = Some t /\ lookup_n rid t = Some r /\ ri_path r = vp.

(** The devices of the [blkid] lines of UUID [uuid], in order. *)
Definition line_devs (uuid : string) (lines : list string) : list string :=
  flat_map (fun line => match blkid_match line with
                        | Some (dev, _, u) => if String.eqb u uuid then [dev] else []
                        | None => []
                        end) lines.

(** The [device_info] dict of UUID to [DeviceInfo] as the lines [P]
    determine it: every line matched, each UUID lists the devices of its
    lines in order, with the label of its lines; no entry for a UUID
    without lines. *)
Definition table_ok (d : list (string * DeviceInfo)) (P : list string) : Prop :=
  (forall line, In line P -> blkid_match line <> None) /\
  forall uuid, match lookup_s uuid d with
               | Some info => di_devices info = line_devs uuid P /\
                   (forall line dev lab, In line P -> blkid_match line = Some (dev, lab, uuid) ->
                                         di_label info = lab)
               | None => line_devs uuid P = []
               end.

(** Whether [c] occurs in [s]. *)
Fixpoint has_char (c : Ascii.ascii) (s : string) : bool :=
  match s with
  | EmptyString => false
  | String x s' => Ascii.eqb x c || has_char c s'
  end.

(** The line [blkid -s LABEL -s UUID -t TYPE=btrfs] prints for device
    [/dev/d]: the label part only when there is a label, then the UUID,
    then [trail]. *)
Definition blkid_line (d : string) (lab : option string) (uuid trail : string) : string :=
  ("/dev/" ++ d ++ ": " ++
   match lab with
   | Some l => "LABEL=" ++ String dq EmptyString ++ l ++ String dq EmptyString ++ " "
   | None => EmptyString
   end ++ "UUID=" ++ String dq EmptyString ++ uuid ++ String dq EmptyString ++ trail)%string.

(** A field of a [mountinfo] line: not empty, no whitespace (the kernel
    escapes whitespace in paths as octal). *)
Fixpoint no_ws (s : string) : bool :=
  match s with
  | EmptyString => true
  | String c s' => negb (is_ws c) && no_ws s'
  end.

Definition word (s : string) : bool :=
  match s with EmptyString => false | _ => no_ws s end.

(** A [/proc/self/mountinfo] line from its fields: the three ids, the root
    of the mount, the mount point, the mount options and optional fields,
    the separator, the file system type, the source and the super
    options, joined by spaces. *)
Definition mount_line (ids : list string) (root mpoint : string) (rest : list string)
    (fstype src : string) (sopts : list string) : string :=
  String.concat " "%string (ids ++ [root; mpoint] ++ rest ++ ["-"%string; fstype; src] ++ sopts).

(** The [(volpath, mpoint)] pairs of the btrfs lines whose source resolves
    to [dev], in file order. *)
Definition mount_entries (K : WKernel) (dev : string) (lines : list string)
    : list (string * string) :=
  flat_map (fun line => match parse_mount_line K line with
                        | inr (Some (d, p)) => if String.eqb d dev then [p] else []
                        | _ => []
                        end) lines.

End WholeFSTrace.

(** ** A concrete machine for the [WholeFS] runs *)
Module MountFixtures.
Import WholeFS.
Import String.

(** A double quote, as a one-character string. *)
Definition q : string := String dq EmptyString.

(** Device [/dev/sda1] (label [data], UUID [u1]) holds two mounted
    subvolumes: [/vol] on [/mnt] (root id 5) and [/other] on [/srv], whose
    [get_root_id] fails with [EPERM]; [/proc] is not btrfs. *)
Definition K1 : WKernel := mkWKernel
  ["36 35 0:40 /vol /mnt rw master:1 - btrfs /dev/sda1 rw";
   "37 35 0:40 /other /srv rw - btrfs /dev/sda1 rw";
   "1 2 3 / /proc rw - proc proc rw"]%string
  (Some [("/dev/sda1: LABEL=" ++ q ++ "data" ++ q ++ " UUID=" ++ q ++ "u1" ++ q)%string])
  (fun p => p)
  (fun p => if String.eqb p "/mnt" then Deduper.IOk 3%N else Deduper.IOk 4%N)
  (fun _ => 256%N)
  (fun fd => if (fd =? 3)%N then Deduper.IOk 5%N else Deduper.IOErr EPERM)
  (fun _ => Deduper.IOk [(5%N, mkRootInfo "/vol" false)]).

Definition wstate0 : WState := mkWState None None None None [].

(** The second [mountinfo] line has no separator field. *)
Definition K4 : WKernel := mkWKernel
  ["36 35 0:40 /vol /mnt rw master:1 - btrfs /dev/sda1 rw";
   "37 35 0:40 /other /srv rw btrfs /dev/sda1 rw"]%string
  (blkid_output K1) (realpath K1) (open_dir K1) (st_ino_of K1) (get_root_id K1) (read_root_tree K1).

(** [blkid] lists two devices of UUID [u1] (label [data]; the second line
    ends in a space) and one of UUID [u2] without a label. *)
Definition K2 : WKernel := mkWKernel (mountinfo K1)
  (Some [("/dev/sda1: LABEL=" ++ q ++ "data" ++ q ++ " UUID=" ++ q ++ "u1" ++ q)%string;
         ("/dev/sdb1: LABEL=" ++ q ++ "data" ++ q ++ " UUID=" ++ q ++ "u1" ++ q ++ " ")%string;
         ("/dev/sdc1: UUID=" ++ q ++ "u2" ++ q)%string])
  (realpath K1) (open_dir K1) (st_ino_of K1) (get_root_id K1) (read_root_tree K1).

(** The second [blkid] line has a label with a quote, which [blkid]
    prints escaped by a backslash. *)
Definition K3 : WKernel := mkWKernel (mountinfo K1)
  (Some [("/dev/sda1: LABEL=" ++ q ++ "data" ++ q ++ " UUID=" ++ q ++ "u1" ++ q)%string;
         ("/dev/sdd1: LABEL=" ++ q ++ "a\" ++ q ++ "b" ++ q ++ " UUID=" ++ q ++ "u3" ++ q)%string])
  (realpath K1) (open_dir K1) (st_ino_of K1) (get_root_id K1) (read_root_tree K1).

End MountFixtures.

(** * Properties *)

Module GrouperFacts.
Import Store Grouper.

(** ** [clear_updates] *)

(** Claim C1: [clear_updates(vol_ids, [low, high])] clears [has_updates]
    on exactly the rows of [vol_ids] with size in [[low, high]]. The WHERE
    clause is the chained comparison [window_start >= Inode.size >=
    window_end], which Python turns into [a and b] on two SQL expressions:
    whatever truth value the library gives the first one, the result is a
    single one-sided bound, or a [TypeError]. At [vol_ids = [1]],
    [[5, 10]] and rows of sizes 3, 7, 12 the outcome is never the
    two-sided clearing. *)
Theorem clear_updates_one_sided : forall clause_bool : SizeCmp -> option bool,
  let tbl := [mkInode 1 1 3 true None None; mkInode 1 2 7 true None None;
              mkInode 1 3 12 true None None] in
  clear_updates clause_bool [1%N] [] 10 5 tbl <> Some (clear_updates_spec [1%N] 5 10 tbl, []).
Proof.
  intros cb tbl. unfold clear_updates, chained_ge.
  destruct (cb (SizeLe 10)) as [[|]|]; vm_compute; intro H; try discriminate H.
Qed.

(** The restore step: whenever [clear_updates] runs to the end, every row of
    a skipped inode has [has_updates = true] and the skipped list is empty. *)
Lemma clear_updates_restores_skipped : forall cb vol_ids skipped ws we tbl tbl' sk',
  clear_updates cb vol_ids skipped ws we tbl = Some (tbl', sk') ->
  sk' = [] /\
  forall r, In r tbl' ->
    existsb (fun s => key_eqb (inode_key s) (inode_key r)) skipped = true ->
    has_updates r = true.
Proof.
  intros cb vol_ids skipped ws we tbl tbl' sk' H.
  unfold clear_updates in H.
  destruct (chained_ge cb ws we) as [c|]; [|discriminate].
  injection H as <- <-. split; [reflexivity|].
  intros r Hin Hsk. unfold restore_skipped in Hin.
  apply in_map_iff in Hin as [r0 [<- _]].
  assert (Hk : forall (b : bool) (x : Inode),
      inode_key (if b then set_has_updates true x else x) = inode_key x)
    by (intros [|] x; reflexivity).
  rewrite Hk in Hsk. rewrite Hsk. reflexivity.
Qed.

(** ** The initial window start *)

Definition hd_size (l : list Inode) : N :=
  match hd_error l with Some x => size x | None => 0%N end.

Lemma hd_size_insert : forall r s,
  hd_size (insert_by_neg_size r s) = N.max (size r) (hd_size s).
Proof.
  intros r [|x xs]; simpl.
  - unfold hd_size; simpl. now rewrite N.max_0_r.
  - unfold hd_size; simpl.
    destruct (N.leb_spec (size x) (size r)); simpl; lia.
Qed.

Lemma hd_size_order : forall l, hd_size (order_by_neg_size l) = max_size l.
Proof.
  induction l as [|r l IH]; [reflexivity|].
  simpl. rewrite hd_size_insert, IH. reflexivity.
Qed.

Lemma insert_by_neg_size_nonempty : forall r s, insert_by_neg_size r s <> [].
Proof. intros r [|x xs]; simpl; [|destruct (_ <=? _)%N]; discriminate. Qed.

Lemma initial_window_start_max : forall tbl,
  tbl <> [] -> initial_window_start tbl = Some (max_size tbl).
Proof.
  intros [|r l] Hne; [congruence|].
  rewrite <- hd_size_order. unfold initial_window_start, hd_size.
  simpl. destruct (insert_by_neg_size r (order_by_neg_size l)) eqn:E.
  - exfalso. exact (insert_by_neg_size_nonempty _ _ E).
  - reflexivity.
Qed.

Lemma max_size_upper : forall tbl r, In r tbl -> (size r <= max_size tbl)%N.
Proof.
  induction tbl as [|x xs IH]; intros r Hin; [destruct Hin|].
  simpl. destruct Hin as [<-|Hin]; [lia|]. specialize (IH r Hin). lia.
Qed.

Lemma commonality1_nonempty_table : forall vol_ids tbl,
  commonality1_sizes vol_ids tbl <> [] -> tbl <> [].
Proof. intros vol_ids tbl H ->. apply H. reflexivity. Qed.

(** Claim C2, as the spec states it, fails: the window start is the largest
    size of the whole [inode] table, not of the volume set. With vol 1
    holding two 10-byte inodes and vol 2 a 50-byte one, [vol_ids = [1]] has a
    Commonality1 and the traversal starts at 50, not at 10. *)
Lemma dedup_window_start_other_volume :
  let tbl := [mkInode 1 1 10 true None None; mkInode 1 2 10 true None None;
              mkInode 2 1 50 true None None] in
  commonality1_sizes [1%N] tbl <> [] /\
  dedup_window_start [1%N] tbl = Some 50%N /\
  dedup_window_start [1%N] tbl <> Some (max_size (filter (in_vols [1%N]) tbl)).
Proof.
  intro tbl. split; [|split].
  - vm_compute. discriminate.
  - vm_compute. reflexivity.
  - vm_compute. discriminate.
Qed.

(** Claim C2 (corrected): when the Commonality1 sequence of [vol_ids] is
    non-empty, the initial window start of [dedup_tracked] is the largest
    [Inode.size] over the whole inode table (all volumes), hence at least
    the size of every inode of the volume set. *)
Theorem dedup_window_start_table_max : forall vol_ids tbl,
  commonality1_sizes vol_ids tbl <> [] ->
  dedup_window_start vol_ids tbl = Some (max_size tbl) /\
  (forall r, In r tbl -> (size r <= max_size tbl)%N).
Proof.
  intros vol_ids tbl H. split; [|apply max_size_upper].
  unfold dedup_window_start.
  destruct (length (commonality1_sizes vol_ids tbl) =? 0)%nat eqn:E.
  - apply Nat.eqb_eq, length_zero_iff_nil in E. contradiction.
  - apply initial_window_start_max, (commonality1_nonempty_table vol_ids), H.
Qed.

Lemma dedup_window_start_table_max_witness :
  commonality1_sizes [1%N] [mkInode 1 1 10 true None None; mkInode 1 2 10 true None None;
                            mkInode 2 1 50 true None None] <> [] /\
  dedup_window_start [1%N] [mkInode 1 1 10 true None None; mkInode 1 2 10 true None None;
                            mkInode 2 1 50 true None None] = Some 50%N.
Proof.
  assert (H : commonality1_sizes [1%N] [mkInode 1 1 10 true None None;
     mkInode 1 2 10 true None None; mkInode 2 1 50 true None None] <> [])
    by (vm_compute; discriminate).
  split; [exact H|].
  exact (proj1 (dedup_window_start_table_max _ _ H)).
Defined.

(** ** [windowed_query] *)

Lemma In_insert_desc : forall x s l, In x (insert_desc s l) <-> x = s \/ In x l.
Proof.
  intros x s l. induction l as [|y ys IH]; simpl.
  - intuition congruence.
  - destruct (y <=? s)%N; simpl; [intuition congruence|]. rewrite IH. intuition congruence.
Qed.

Lemma In_sort_desc : forall x l, In x (sort_desc l) <-> In x l.
Proof.
  intros x l. induction l as [|y ys IH]; simpl; [tauto|].
  rewrite In_insert_desc, IH. intuition congruence.
Qed.

Lemma In_firstn_l : forall {A} n (l : list A) x, In x (firstn n l) -> In x l.
Proof.
  intros A n l x H. rewrite <- (firstn_skipn n l). apply in_or_app. now left.
Qed.

Lemma In_last : forall (l : list N) d, l <> [] -> In (last l d) l.
Proof.
  induction l as [|x xs IH]; intros d H; [congruence|].
  destruct xs as [|y ys]; [now left|].
  right. apply IH. discriminate.
Qed.

(** Every row of a page is within the window. *)
Lemma page_bound : forall rows per ws x,
  In x (page rows per ws) -> (Z.of_N x <= ws)%Z.
Proof.
  intros rows per ws x H. unfold page in H.
  apply In_firstn_l, In_sort_desc, filter_In in H as [_ H].
  now apply Z.leb_le.
Qed.

Lemma page_last_bound : forall rows per ws li,
  page rows per ws = li -> li <> [] ->
  (0 <= Z.of_N (last li 0%N) <= ws)%Z.
Proof.
  intros rows per ws li Hp Hne. split; [lia|].
  apply (page_bound rows per). rewrite Hp. now apply In_last.
Qed.

(** With more than [ws + 1] pages of fuel the generator finishes, and its
    trace has the shape [WTrace]. *)
Lemma windowed_query_finishes : forall fuel rows per ws,
  (Z.to_nat (ws + 1) < fuel)%nat ->
  exists t, windowed_query fuel rows per ws = Some t /\ WTrace rows per ws t.
Proof.
  induction fuel as [|f IH]; intros rows per ws Hf; [lia|].
  cbn [windowed_query]. destruct (page rows per ws) as [|x xs] eqn:P.
  - eexists. split; [reflexivity|]. now apply WT_empty.
  - assert (Hb := page_last_bound rows per ws (x :: xs) P ltac:(discriminate)).
    destruct (IH rows per (Z.of_N (last (x :: xs) 0%N) - 1)%Z) as [t [Ht Wt]]; [lia|].
    cbv beta iota zeta. rewrite Ht. eexists. split; [reflexivity|].
    apply WT_page; [exact P|discriminate|exact Wt].
Qed.

Lemma windowed_query_more_fuel : forall fuel fuel' rows per ws t,
  (fuel <= fuel')%nat ->
  windowed_query fuel rows per ws = Some t ->
  windowed_query fuel' rows per ws = Some t.
Proof.
  induction fuel as [|f IH]; intros fuel' rows per ws t Hle H; [discriminate|].
  destruct fuel' as [|f']; [lia|].
  simpl in *. destruct (page rows per ws) as [|x xs]; [exact H|].
  destruct (windowed_query f rows per _) as [rest|] eqn:E; [|discriminate].
  rewrite (IH f' rows per _ rest ltac:(lia) E). exact H.
Qed.

Lemma clears_of_app : forall t1 t2, clears_of (t1 ++ t2) = clears_of t1 ++ clears_of t2.
Proof. intros. unfold clears_of. apply flat_map_app. Qed.

Lemma clears_of_yields : forall li, clears_of (map Yield li) = [].
Proof. induction li; simpl; auto. Qed.

(** The ranges of a finished run tile [[0, ws]]: each size in it lies in
    exactly one range, and no other size in any. *)
Lemma wtrace_cover : forall rows per ws t,
  WTrace rows per ws t ->
  forall s, cover_count (clears_of t) s =
            if (0 <=? s)%Z && (s <=? ws)%Z then 1%nat else 0%nat.
Proof.
  intros rows per ws t W. induction W as [ws P|ws li t P Hne W IH]; intro s.
  - unfold cover_count. simpl.
    destruct (0 <=? s)%Z, (s <=? ws)%Z; reflexivity.
  - rewrite clears_of_app, clears_of_yields. simpl app.
    assert (Hb := page_last_bound rows per ws li P Hne).
    set (we := Z.of_N (last li 0%N)) in *.
    unfold cover_count in *. cbn [filter fst snd].
    destruct ((we <=? s)%Z && (s <=? ws)%Z) eqn:E; cbn [length]; rewrite IH; revert E;
      destruct (Z.leb_spec we s), (Z.leb_spec s ws), (Z.leb_spec 0 s),
               (Z.leb_spec s (we - 1)); simpl; intro E; try discriminate E; lia.
Qed.

(** Claim C10: [windowed_query] started at [W] terminates (the same trace
    for every fuel beyond [W + 2] pages); its trace is made of pages each
    followed by [clear_updates(window_start, window_end)] with the next
    window at [window_end - 1], closed by [clear_updates(window_start, 0)]
    on the empty page; and the ranges it clears cover every size of
    [[0, W]] exactly once (and nothing else). *)
Theorem windowed_query_terminates_and_tiles : forall rows per W,
  exists t,
    (forall fuel, (Z.to_nat W + 2 <= fuel)%nat -> windowed_query fuel rows per W = Some t) /\
    WTrace rows per W t /\
    (forall s, cover_count (clears_of t) s =
               if (0 <=? s)%Z && (s <=? W)%Z then 1%nat else 0%nat).
Proof.
  intros rows per W.
  destruct (windowed_query_finishes (Z.to_nat W + 2) rows per W) as [t [Ht Wt]]; [lia|].
  exists t. split; [|split].
  - intros fuel Hf. exact (windowed_query_more_fuel _ _ _ _ _ _ Hf Ht).
  - exact Wt.
  - exact (wtrace_cover _ _ _ _ Wt).
Qed.

End GrouperFacts.

Module ScannerFacts.
Import Store Scanner.

Lemma key_eqb_refl : forall k, key_eqb k k = true.
Proof. intros [a b]. unfold key_eqb. simpl. now rewrite !N.eqb_refl. Qed.

Lemma find_row_app_new : forall k tbl r,
  find_row k tbl = None -> key_eqb (inode_key r) k = true ->
  find_row k (tbl ++ [r]) = Some r.
Proof.
  intros k tbl r. unfold find_row. induction tbl as [|x xs IH]; intros H Hr; simpl in *.
  - now rewrite Hr.
  - destruct (key_eqb (inode_key x) k); [discriminate|]. now apply IH.
Qed.

Lemma find_row_update : forall k tbl r f,
  find_row k tbl = Some r ->
  (forall x, inode_key (f x) = inode_key x) ->
  find_row k (map (fun x => if key_eqb (inode_key x) k then f x else x) tbl) = Some (f r).
Proof.
  intros k tbl r f. unfold find_row. induction tbl as [|x xs IH]; intros H Hf; simpl in *.
  - discriminate.
  - destruct (key_eqb (inode_key x) k) eqn:E.
    + injection H as <-. simpl. rewrite Hf, E. reflexivity.
    + simpl. rewrite E. now apply IH.
Qed.

Lemma find_row_delete : forall k tbl, find_row k (delete_row k tbl) = None.
Proof.
  intros k tbl. unfold find_row, delete_row. induction tbl as [|x xs IH]; simpl; [reflexivity|].
  destruct (key_eqb (inode_key x) k) eqn:E; simpl; [exact IH|]. now rewrite E.
Qed.

(** The generation filter of [process_item] agrees with the one stated with
    "non-null" in place of Python's truth test: a stored cutoff of 0 takes
    the [min_generation] branch, where [min_generation] is [G_prev + 1]. *)
Lemma generation_filter_nonnull : forall vol sz gen,
  (if stricter_filter vol sz then (gen <=? last_tracked_generation vol)%N
   else (gen <? min_generation vol)%N) =
  match last_tracked_size_cutoff vol with
  | Some p => if (p <=? sz)%N then (gen <=? last_tracked_generation vol)%N
              else (gen <? min_generation vol)%N
  | None => (gen <? min_generation vol)%N
  end.
Proof.
  intros vol sz gen. unfold stricter_filter, min_generation.
  destruct (last_tracked_size_cutoff vol) as [p|]; [|reflexivity].
  destruct (N.eqb_spec p 0) as [->|Hp]; simpl; [|reflexivity].
  destruct (N.leb_spec 0 sz), (N.leb_spec 0 (size_cutoff vol)); try lia.
  destruct (N.leb_spec gen (last_tracked_generation vol)),
           (N.ltb_spec gen (last_tracked_generation vol + 1)); lia.
Qed.

End ScannerFacts.

Module ScannerClaims.
Import Store Scanner ScannerFacts.
Local Open Scope N_scope.

(** Claim C4: [min_gen] is [G_prev + 1] when [S_prev] is non-null and
    [S_prev <= S_cur], 0 otherwise; when [min_gen] exceeds the root
    generation the scan leaves the volume and the inode table as they were. *)
Theorem scan_min_generation_and_noop : forall lookup_ok tree_search top vol tbl,
  min_generation vol =
    match last_tracked_size_cutoff vol with
    | Some s => if (s <=? size_cutoff vol)%N then (last_tracked_generation vol + 1)%N else 0%N
    | None => 0%N
    end /\
  ((top < min_generation vol)%N ->
   track_updated_files lookup_ok tree_search top vol tbl = (vol, tbl)).
Proof.
  intros lookup_ok tree_search top vol tbl. split; [reflexivity|].
  intro H. unfold track_updated_files.
  destruct (N.ltb_spec top (min_generation vol)); [reflexivity|lia].
Qed.

Lemma scan_min_generation_and_noop_witness :
  track_updated_files (fun _ => true) (fun _ => [])
    5 (mkVolume 1 10 5 (Some 10)) [] = (mkVolume 1 10 5 (Some 10), []).
Proof.
  apply (proj2 (scan_min_generation_and_noop (fun _ => true) (fun _ => []) 5
                  (mkVolume 1 10 5 (Some 10)) [])).
  vm_compute. reflexivity.
Defined.

(** Claim C5, as stated, fails: a record passing every filter whose path
    lookup fails leaves no row behind. Volume 1 (cutoff 10, never scanned),
    a regular file of inode 7, size 20, generation 6, unknown path. *)
Lemma process_item_lookup_failure :
  let vol := mkVolume 1 10 5 None in
  let it := mkItem 7 BTRFS_INODE_ITEM_KEY 0 6 6 20 33188 in
  record_skipped_spec vol (min_generation vol) it = false /\
  find_row (1, 7)%N (process_item (fun _ => false) vol (min_generation vol) [] it) = None.
Proof. split; vm_compute; reflexivity. Qed.

(** Claim C5 (corrected): an INODE_ITEM record is left alone exactly when
    it is below the size cutoff, fails the generation filter (stricter
    [inode_generation > G_prev] when [S_prev] is non-null and
    [size >= S_prev], [inode_generation >= min_gen] otherwise) or is not a
    regular file. A record passing them is upserted with
    [has_updates = true] and its size when its path lookup succeeds; when
    the lookup fails its row is removed (a new one discarded). *)
Theorem process_item_filters : forall lookup_ok vol tbl it,
  sh_type it = BTRFS_INODE_ITEM_KEY ->
  let mg := min_generation vol in
  let k := (vid vol, sh_objectid it) in
  (record_skipped_spec vol mg it = true ->
   process_item lookup_ok vol mg tbl it = tbl) /\
  (record_skipped_spec vol mg it = false -> lookup_ok (sh_objectid it) = true ->
   exists r, find_row k (process_item lookup_ok vol mg tbl it) = Some r /\
             size r = item_size it /\ has_updates r = true) /\
  (record_skipped_spec vol mg it = false -> lookup_ok (sh_objectid it) = false ->
   find_row k (process_item lookup_ok vol mg tbl it) = None).
Proof.
  intros lookup_ok vol tbl it Ht mg k.
  unfold process_item, record_skipped_spec. rewrite Ht, N.eqb_refl. simpl negb.
  cbv zeta. rewrite generation_filter_nonnull. fold mg.
  destruct (item_size it <? size_cutoff vol)%N; simpl;
    [split; [reflexivity|split; intros H; discriminate H]|].
  destruct (match last_tracked_size_cutoff vol with
            | Some p => _ | None => _ end); simpl;
    [split; [reflexivity|split; intros H; discriminate H]|].
  destruct (S_ISREG (item_mode it)); simpl;
    [|split; [reflexivity|split; intros H; discriminate H]].
  split; [intro H; discriminate H|].
  unfold upsert. fold k.
  destruct (find_row k tbl) as [r0|] eqn:F; split; intros _ Hl; rewrite Hl.
  - eexists. split; [apply find_row_update; [exact F|reflexivity]|split; reflexivity].
  - apply find_row_delete.
  - eexists. split; [apply find_row_app_new; [exact F|apply key_eqb_refl]|split; reflexivity].
  - exact F.
Qed.

(** A record of a regular 20-byte file at generation 6 on a volume
    tracked up to generation 5: it passes every filter, and with a
    successful path lookup its row is written with [has_updates = true]. *)
Lemma process_item_filters_witness :
  exists r,
    find_row (1, 7)
      (process_item (fun _ => true) (mkVolume 1 10 5 None)
         (min_generation (mkVolume 1 10 5 None)) []
         (mkItem 7 BTRFS_INODE_ITEM_KEY 0 6 6 20 33188)) = Some r /\
    size r = 20 /\ has_updates r = true.
Proof.
  pose proof (process_item_filters (fun _ => true) (mkVolume 1 10 5 None) []
                (mkItem 7 BTRFS_INODE_ITEM_KEY 0 6 6 20 33188) eq_refl)
    as [_ [H2 _]].
  apply H2; vm_compute; reflexivity.
Defined.

(** Claim C9, as stated, fails on a scan that ends early: after raising
    the cutoff from 8 to 16 with the root generation still at the stored
    100, [min_gen = 101 > 100] and [last_tracked_size_cutoff] stays 8. *)
Lemma scan_early_exit_keeps_cutoff :
  let vol := mkVolume 1 16 100 (Some 8) in
  (last_tracked_size_cutoff (fst (track_updated_files (fun _ => true) (fun _ => []) 100 vol []))
     = Some 8) /\
  (last_tracked_size_cutoff (fst (track_updated_files (fun _ => true) (fun _ => []) 100 vol []))
     <> Some (size_cutoff vol)).
Proof. split; vm_compute; [reflexivity|discriminate]. Qed.

Lemma min_generation_above : forall top vol,
  top < min_generation vol -> top <= last_tracked_generation vol.
Proof.
  intros top vol. unfold min_generation.
  destruct (last_tracked_size_cutoff vol) as [s|]; [destruct (s <=? size_cutoff vol)|]; lia.
Qed.

(** A scan from a watermark no later than the root generation leaves the
    watermark at the root generation, whichever branch it takes. *)
Lemma scan_generation_reaches_top : forall lookup_ok tree_search top vol tbl,
  last_tracked_generation vol <= top ->
  last_tracked_generation (fst (track_updated_files lookup_ok tree_search top vol tbl)) = top.
Proof.
  intros lookup_ok tree_search top vol tbl H. unfold track_updated_files.
  destruct (N.ltb_spec top (min_generation vol)) as [Hlt|]; [|reflexivity].
  apply min_generation_above in Hlt. simpl. lia.
Qed.

Lemma scan_runs_nondecreasing : forall lookup_ok tree_search runs vol tbl,
  nondecreasing (last_tracked_generation vol :: map fst runs) ->
  nondecreasing (map last_tracked_generation (vol :: scan_runs lookup_ok tree_search runs vol tbl)).
Proof.
  intros lookup_ok tree_search runs. induction runs as [|[top c] rs IH]; intros vol tbl H.
  - exact I.
  - simpl in H. destruct H as [Hle Hrest].
    simpl. destruct (track_updated_files lookup_ok tree_search top (with_size_cutoff c vol) tbl)
      as [vol' tbl'] eqn:E.
    assert (Hg : last_tracked_generation vol' = top).
    { replace vol' with (fst (track_updated_files lookup_ok tree_search top
                                 (with_size_cutoff c vol) tbl)) by now rewrite E.
      apply scan_generation_reaches_top. exact Hle. }
    split; [lia|].
    apply (IH vol' tbl'). rewrite Hg. exact Hrest.
Qed.

(** Claim C9 (corrected): a scan that runs the tree search
    ([min_gen <= root generation]) sets [last_tracked_generation] to the
    root generation read at its start and [last_tracked_size_cutoff] to the
    current [size_cutoff]; a scan that stops early ([min_gen] above the
    root generation) leaves the volume unchanged. Across successive scans
    whose root generations never decrease, starting from a watermark no
    later than the first of them, [last_tracked_generation] never
    decreases, whatever the cutoffs. *)
Theorem scan_watermarks : forall lookup_ok tree_search top vol tbl,
  (min_generation vol <= top ->
   last_tracked_generation (fst (track_updated_files lookup_ok tree_search top vol tbl)) = top /\
   last_tracked_size_cutoff (fst (track_updated_files lookup_ok tree_search top vol tbl))
     = Some (size_cutoff vol)) /\
  (top < min_generation vol ->
   fst (track_updated_files lookup_ok tree_search top vol tbl) = vol) /\
  (forall runs,
   nondecreasing (last_tracked_generation vol :: map fst runs) ->
   nondecreasing (map last_tracked_generation
                    (vol :: scan_runs lookup_ok tree_search runs vol tbl))).
Proof.
  intros lookup_ok tree_search top vol tbl. split; [|split].
  - intro H. unfold track_updated_files.
    destruct (N.ltb_spec top (min_generation vol)); [lia|]. split; reflexivity.
  - intro H. unfold track_updated_files.
    destruct (N.ltb_spec top (min_generation vol)); [reflexivity|lia].
  - intros runs. apply scan_runs_nondecreasing.
Qed.

Lemma scan_watermarks_witness :
  last_tracked_generation
    (fst (track_updated_files (fun _ => true) (fun _ => []) 120 (mkVolume 1 16 100 (Some 8)) []))
  = 120 /\
  nondecreasing (map last_tracked_generation
    (mkVolume 1 16 100 (Some 8) ::
     scan_runs (fun _ => true) (fun _ => []) [(100, 16); (120, 8)] (mkVolume 1 16 100 (Some 8)) [])).
Proof.
  pose proof (scan_watermarks (fun _ => true) (fun _ => []) 120
                (mkVolume 1 16 100 (Some 8)) []) as [H1 [_ H3]].
  split.
  - apply H1. vm_compute. discriminate.
  - apply H3. vm_compute. split; [discriminate|split; [discriminate|exact I]].
Defined.

End ScannerClaims.

Module DeduperClaims.
Import Store Deduper Fixtures.

Ltac mrun := cbv [bind ret throw emit modify skip delete set_soft add_event get_soft
                  mini_hash_from_file] in *;
             cbn [ds_table ds_skipped ds_soft ds_trace ds_events] in *.

(** ** The clone step *)

Lemma clone_dsts_all_equal : forall K sfd dfiles s,
  (forall d, In d dfiles -> cmp_files K sfd (of_fd d) = true) ->
  clone_dsts K sfd dfiles s =
  inr (filter (fun d => clone_data K (of_fd d) sfd) dfiles,
       mkDState (ds_table s) (ds_skipped s) (ds_soft s)
                (ds_trace s ++ map (fun d => AClone (of_fd d) sfd) dfiles) (ds_events s)).
Proof.
  intros K sfd dfiles. induction dfiles as [|d ds IH]; intros s Hcmp.
  - simpl. rewrite app_nil_r. destruct s; reflexivity.
  - cbn [clone_dsts]. rewrite (Hcmp d (or_introl eq_refl)). cbn [negb].
    mrun. rewrite IH by (intros x Hx; apply Hcmp; now right).
    cbn [ds_table ds_skipped ds_soft ds_trace ds_events filter map].
    rewrite <- app_assoc. reflexivity.
Qed.

(** A bucket whose byte comparisons all succeed. *)
Lemma dedup_bucket_all_equal : forall K fs_id comm3_size sfile dfiles s,
  (forall d, In d dfiles -> cmp_files K (of_fd sfile) (of_fd d) = true) ->
  let succ := filter (fun d => clone_data K (of_fd d) (of_fd sfile)) dfiles in
  exists s',
    dedup_bucket K fs_id comm3_size (sfile :: dfiles) s = inr (tt, s') /\
    ds_table s' = ds_table s /\ ds_skipped s' = ds_skipped s /\
    ds_trace s' = ds_trace s ++ map (fun d => AClone (of_fd d) (of_fd sfile)) dfiles /\
    (((forall d, In d dfiles -> clone_data K (of_fd d) (of_fd sfile) = false) /\
      ds_events s' = ds_events s)
     \/
     ((exists d, In d dfiles /\ clone_data K (of_fd d) (of_fd sfile) = true) /\
      ds_events s' = ds_events s ++
        [mkDedupEvent fs_id comm3_size
           (inode_key (of_inode sfile) :: map (fun f => inode_key (of_inode f)) succ)])).
Proof.
  intros K fs_id comm3_size sfile dfiles s Hcmp succ.
  destruct dfiles as [|d ds].
  - exists s. simpl. rewrite app_nil_r.
    split; [reflexivity|split; [reflexivity|split; [reflexivity|split; [reflexivity|]]]].
    left. split; [intros d []|reflexivity].
  - cbn [dedup_bucket]. unfold bind at 1.
    rewrite (clone_dsts_all_equal K (of_fd sfile) (d :: ds) s Hcmp).
    fold succ. destruct succ as [|x xs] eqn:Hs.
    + eexists. split; [reflexivity|]. cbn [ds_table ds_skipped ds_trace ds_events].
      split; [reflexivity|split; [reflexivity|split; [reflexivity|]]].
      left. split; [|reflexivity].
      intros y Hy. destruct (clone_data K (of_fd y) (of_fd sfile)) eqn:E; [|reflexivity].
      assert (In y succ) by (unfold succ; apply filter_In; auto).
      rewrite Hs in H. destruct H.
    + mrun. eexists. split; [reflexivity|].
      split; [reflexivity|split; [reflexivity|split; [reflexivity|]]].
      right. split; [|reflexivity].
      exists x. assert (Hx : In x succ) by (rewrite Hs; now left).
      unfold succ in Hx. apply filter_In in Hx. exact Hx.
Qed.

Lemma clone_dsts_mismatch : forall K sfd dfiles s,
  (exists d, In d dfiles /\ cmp_files K sfd (of_fd d) = false) ->
  clone_dsts K sfd dfiles s = inl AssertionError.
Proof.
  intros K sfd dfiles. induction dfiles as [|d ds IH]; intros s [x [Hx Hc]]; [destruct Hx|].
  cbn [clone_dsts]. destruct (cmp_files K sfd (of_fd d)) eqn:E; [|reflexivity].
  destruct Hx as [<-|Hx]; [congruence|].
  cbn [negb]. mrun. rewrite (IH _ (ex_intro _ x (conj Hx Hc))). reflexivity.
Qed.

(** Claim C3: in a hash bucket [sfile :: dfiles], [clone_data] is called
    once per destination; if none of the calls returns true no DedupEvent
    is written, otherwise exactly one is, of item size [comm3_size], with
    one row for the source and one per destination whose [clone_data]
    returned true, in order. The one other outcome is a byte mismatch
    between source and a destination, on which [assert False] aborts. *)
Theorem dedup_bucket_event : forall K fs_id comm3_size sfile dfiles s,
  let succ := filter (fun d => clone_data K (of_fd d) (of_fd sfile)) dfiles in
  ((exists d, In d dfiles /\ cmp_files K (of_fd sfile) (of_fd d) = false) /\
   dedup_bucket K fs_id comm3_size (sfile :: dfiles) s = inl AssertionError)
  \/
  ((forall d, In d dfiles -> cmp_files K (of_fd sfile) (of_fd d) = true) /\
   exists s',
    dedup_bucket K fs_id comm3_size (sfile :: dfiles) s = inr (tt, s') /\
    ds_table s' = ds_table s /\ ds_skipped s' = ds_skipped s /\
    ds_trace s' = ds_trace s ++ map (fun d => AClone (of_fd d) (of_fd sfile)) dfiles /\
    (((forall d, In d dfiles -> clone_data K (of_fd d) (of_fd sfile) = false) /\
      ds_events s' = ds_events s)
     \/
     ((exists d, In d dfiles /\ clone_data K (of_fd d) (of_fd sfile) = true) /\
      ds_events s' = ds_events s ++
        [mkDedupEvent fs_id comm3_size
           (inode_key (of_inode sfile) :: map (fun f => inode_key (of_inode f)) succ)]))).
Proof.
  intros K fs_id comm3_size sfile dfiles s succ.
  destruct (existsb (fun d => negb (cmp_files K (of_fd sfile) (of_fd d))) dfiles) eqn:E.
  - left. apply existsb_exists in E as [x [Hx Hc]].
    assert (Hm : exists d, In d dfiles /\ cmp_files K (of_fd sfile) (of_fd d) = false)
      by (exists x; split; [exact Hx|now apply negb_true_iff]).
    split; [exact Hm|].
    destruct dfiles as [|d ds]; [destruct Hx|].
    cbn [dedup_bucket]. unfold bind at 1. now rewrite clone_dsts_mismatch.
  - right.
    assert (Hall : forall d, In d dfiles -> cmp_files K (of_fd sfile) (of_fd d) = true).
    { intros d Hd. destruct (cmp_files K (of_fd sfile) (of_fd d)) eqn:C; [reflexivity|].
      exfalso. assert (existsb (fun d => negb (cmp_files K (of_fd sfile) (of_fd d))) dfiles = true)
        by (apply existsb_exists; exists d; now rewrite C).
      congruence. }
    split; [exact Hall|].
    exact (dedup_bucket_all_equal K fs_id comm3_size sfile dfiles s Hall).
Qed.

Lemma dedup_bucket_event_witness :
  let f := fun n => mkOFile n (mkInode 1 n 20 true None None) n in
  dedup_bucket kernel_ok 1 20 [f 2%N; f 3%N; f 4%N] (state0 [] 64) =
  inr (tt, mkDState [] [] 64 [AClone 3 2; AClone 4 2]
                    [mkDedupEvent 1 20 [(1, 2); (1, 3)]%N]).
Proof.
  intro f.
  destruct (dedup_bucket_event kernel_ok 1 20 (f 2%N) [f 3%N; f 4%N] (state0 [] 64))
    as [[[d [Hd Hc]] _]|[_ [s' [H _]]]].
  - destruct Hd as [<-|[<-|[]]]; discriminate Hc.
  - rewrite H. f_equal. f_equal. vm_compute in H. congruence.
Defined.

(** ** The descriptor budget *)

(** Shared by the skip paths: when the window's [clear_updates] runs to the
    end, the rows of every skipped inode carry [has_updates = true]. *)
Lemma restore_covers : forall cb vol_ids skipped x ws we tbl tbl' sk',
  In x skipped ->
  Grouper.clear_updates cb vol_ids skipped ws we tbl = Some (tbl', sk') ->
  forall r, In r tbl' -> inode_key r = inode_key x -> has_updates r = true.
Proof.
  intros cb vol_ids skipped x ws we tbl tbl' sk' Hx H r Hr Hk.
  apply (proj2 (GrouperFacts.clear_updates_restores_skipped _ _ _ _ _ _ _ _ H) r Hr).
  apply existsb_exists. exists x. split; [exact Hx|].
  rewrite Hk. apply ScannerFacts.key_eqb_refl.
Qed.

Lemma skip_pending_state : forall inodes s,
  skip_pending inodes s =
  inr (tt, mkDState (ds_table s) (ds_skipped s ++ filter has_updates inodes)
                    (ds_soft s) (ds_trace s) (ds_events s)).
Proof.
  induction inodes as [|i is IH]; intro s.
  - simpl. rewrite app_nil_r. destruct s; reflexivity.
  - unfold skip_pending in *. cbn [iter filter].
    destruct (has_updates i); mrun; rewrite IH; cbn [ds_table ds_skipped ds_soft ds_trace ds_events];
      [rewrite <- app_assoc|]; reflexivity.
Qed.

(** Claim C6: a cohort of [count3] inodes needs [2 * count3 + (7 + v)]
    descriptors. Within the soft limit it is processed as is; above the
    soft but within the hard limit [setrlimit] raises the soft limit to
    exactly the requirement and the cohort is processed; above the hard
    limit nothing is looked up, opened or cloned, the state only gains
    the cohort's inodes with [has_updates] in the skipped list, and the
    window's [clear_updates] leaves their rows with [has_updates = true]. *)
Theorem dedup_comm3_descriptor_budget : forall K fs_id nvols hard comm3_size inodes s,
  (ds_soft s <= hard)%N ->
  let req := (2 * N.of_nat (length inodes) + ofile_reserved nvols)%N in
  ((req <= ds_soft s)%N ->
   dedup_comm3 K fs_id (ofile_reserved nvols) hard comm3_size inodes s =
   process_cohort K fs_id comm3_size inodes s) /\
  ((ds_soft s < req <= hard)%N ->
   dedup_comm3 K fs_id (ofile_reserved nvols) hard comm3_size inodes s =
   process_cohort K fs_id comm3_size inodes
     (mkDState (ds_table s) (ds_skipped s) req (ds_trace s ++ [ASetrlimit req hard])
               (ds_events s))) /\
  ((hard < req)%N ->
   dedup_comm3 K fs_id (ofile_reserved nvols) hard comm3_size inodes s =
   inr (tt, mkDState (ds_table s) (ds_skipped s ++ filter has_updates inodes)
                     (ds_soft s) (ds_trace s) (ds_events s)) /\
   (forall cb vol_ids ws we tbl tbl' sk',
      Grouper.clear_updates cb vol_ids (ds_skipped s ++ filter has_updates inodes)
        ws we tbl = Some (tbl', sk') ->
      forall x r, In x inodes -> has_updates x = true -> In r tbl' ->
      inode_key r = inode_key x -> has_updates r = true)).
Proof.
  intros K fs_id nvols hard comm3_size inodes s Hsh req.
  unfold dedup_comm3. cbv zeta. fold req. cbv [bind get_soft].
  split; [|split].
  - intro H. destruct (N.ltb_spec (ds_soft s) req); [lia|reflexivity].
  - intros [H1 H2]. destruct (N.ltb_spec (ds_soft s) req); [|lia].
    destruct (N.leb_spec req hard); [|lia].
    mrun. reflexivity.
  - intro H. destruct (N.ltb_spec (ds_soft s) req); [|lia].
    destruct (N.leb_spec req hard); [lia|].
    split; [apply skip_pending_state|].
    intros cb vol_ids ws we tbl tbl' sk' Hc x r Hx Hu.
    apply (restore_covers cb vol_ids (ds_skipped s ++ filter has_updates inodes) x ws we tbl tbl' sk'); [|exact Hc].
    apply in_or_app. right. apply filter_In. auto.
Qed.

Lemma dedup_comm3_descriptor_budget_witness :
  dedup_comm3 kernel_ok 1 (ofile_reserved 1) 12 20
    [mkInode 1 2 20 true None None; mkInode 1 3 20 false None None;
     mkInode 1 4 20 true None None] (state0 [] 10)
  = inr (tt, mkDState [] [mkInode 1 2 20 true None None; mkInode 1 4 20 true None None]
                      10 [] []).
Proof.
  pose proof (dedup_comm3_descriptor_budget kernel_ok 1 1 12 20
    [mkInode 1 2 20 true None None; mkInode 1 3 20 false None None;
     mkInode 1 4 20 true None None] (state0 [] 10) ltac:(vm_compute; discriminate))
    as [_ [_ H3]].
  apply H3. vm_compute. reflexivity.
Defined.

(** ** The open phase *)

(** Claim C7: opening one cohort member. A path lookup failing with
    [ENOENT] deletes the row and drops the inode (not skipped); any other
    lookup error is fatal; an open failing with [ENOENT], [ETXTBSY] or
    [EACCES] appends the inode to the skipped list, whose rows the
    window's [clear_updates] leaves with [has_updates = true]; any other
    open error is fatal; a dropped or skipped inode lets the loop go on
    with the remaining inodes from the updated state. *)
Theorem open_one_outcomes : forall K inode s,
  let k := inode_key inode in
  (lookup_ino_path_one K inode = IOErr ENOENT ->
   open_one K inode s =
   inr (None, mkDState (delete_row k (ds_table s)) (ds_skipped s) (ds_soft s)
                       (ds_trace s ++ [ALookup k]) (ds_events s))) /\
  (forall e, lookup_ino_path_one K inode = IOErr e -> e <> ENOENT ->
   open_one K inode s = inl (IOError e)) /\
  (forall path e, lookup_ino_path_one K inode = IOk path ->
   fopenat_rw K inode path = IOErr e -> e = ENOENT \/ e = ETXTBSY \/ e = EACCES ->
   open_one K inode s =
   inr (None, mkDState (ds_table s) (ds_skipped s ++ [inode]) (ds_soft s)
                       (ds_trace s ++ [ALookup k; AOpenRW k]) (ds_events s)) /\
   (forall cb vol_ids ws we tbl tbl' sk',
      Grouper.clear_updates cb vol_ids (ds_skipped s ++ [inode]) ws we tbl = Some (tbl', sk') ->
      forall r, In r tbl' -> inode_key r = k -> has_updates r = true)) /\
  (forall path e, lookup_ino_path_one K inode = IOk path ->
   fopenat_rw K inode path = IOErr e -> e <> ENOENT -> e <> ETXTBSY -> e <> EACCES ->
   open_one K inode s = inl (IOError e)) /\
  (forall rest s', open_one K inode s = inr (None, s') ->
   open_all K (inode :: rest) s = open_all K rest s').
Proof.
  intros K inode s k.
  split; [|split; [|split; [|split]]].
  - intro L. unfold open_one. mrun. rewrite L. reflexivity.
  - intros e L He. unfold open_one. mrun. rewrite L.
    destruct e; [congruence|reflexivity..].
  - intros path e L F He. split.
    + unfold open_one. mrun. rewrite L, F.
      destruct He as [ -> | [ -> | -> ]]; cbn; rewrite <- app_assoc; reflexivity.
    + intros cb vol_ids ws we tbl tbl' sk' Hc r Hr Hk.
      apply (restore_covers cb vol_ids (ds_skipped s ++ [inode]) inode ws we tbl tbl' sk');
        [apply in_or_app; right; now left|exact Hc|exact Hr|exact Hk].
  - intros path e L F H1 H2 H3. unfold open_one. mrun. rewrite L, F.
    destruct e; [congruence..|reflexivity].
  - intros rest s' H. cbn [open_all]. unfold bind at 1. rewrite H.
    unfold bind, ret. destruct (open_all K rest s') as [e|[files s'']]; reflexivity.
Qed.

Lemma open_one_outcomes_witness :
  open_one kernel_racy (mkInode 1 5 20 true None None) (state0 [] 64) =
  inr (None, mkDState [] [mkInode 1 5 20 true None None] 64
                      [ALookup (1, 5)%N; AOpenRW (1, 5)%N] []) /\
  open_one kernel_racy (mkInode 1 6 20 true None None) (state0 [mkInode 1 6 20 true None None] 64) =
  inr (None, mkDState [] [] 64 [ALookup (1, 6)%N] []).
Proof.
  pose proof (open_one_outcomes kernel_racy (mkInode 1 5 20 true None None) (state0 [] 64))
    as [_ [_ [H3 _]]].
  pose proof (open_one_outcomes kernel_racy (mkInode 1 6 20 true None None)
                (state0 [mkInode 1 6 20 true None None] 64)) as [H1 _].
  split.
  - apply (proj1 (H3 5%N ETXTBSY eq_refl eq_refl ltac:(right; left; reflexivity))).
  - rewrite (H1 eq_refl). vm_compute. reflexivity.
Defined.

(** ** Mini-hashes of a Commonality1 group *)

Lemma minihash_keys_app : forall t1 t2,
  minihash_keys (t1 ++ t2) = minihash_keys t1 ++ minihash_keys t2.
Proof. intros. unfold minihash_keys. apply flat_map_app. Qed.

Lemma comm1_hash_one_keys : forall K m s s1,
  comm1_hash_one K m s = inr (tt, s1) ->
  minihash_keys (ds_trace s1) =
  minihash_keys (ds_trace s) ++ (if lookup_succeeds K m then [inode_key m] else []).
Proof.
  intros K m s s1 H. unfold comm1_hash_one, lookup_succeeds in *. mrun.
  destruct (lookup_ino_path_one K m) as [path|[| | |c]].
  - destruct (fopenat K m path) as [fd|e]; [|discriminate H].
    injection H as <-. cbn [ds_trace].
    rewrite !minihash_keys_app, <- !app_assoc. reflexivity.
  - injection H as <-. cbn [ds_trace]. rewrite ?minihash_keys_app. simpl. now rewrite ?app_nil_r.
  - discriminate H.
  - discriminate H.
  - discriminate H.
Qed.

(** Claim C8, as stated, fails: a member whose [mini_hash] is already
    recorded (5) is looked up, opened and hashed again, and its
    [mini_hash] overwritten (9). *)
Lemma comm1_hash_cached_member :
  let m := mkInode 1 2 20 true (Some 5%N) None in
  comm1_hash kernel_ok [m] (state0 [m] 64) =
  inr (tt, mkDState [mkInode 1 2 20 true (Some 9%N) None] [] 64
                    [ALookup (1, 2)%N; AOpenRO (1, 2)%N; AMiniHash (1, 2)%N] []).
Proof. vm_compute. reflexivity. Qed.

Lemma dc_key_eqb_spec : forall a b, reflect (a = b) (key_eqb a b).
Proof.
  intros [a1 a2] [b1 b2]. unfold key_eqb; simpl.
  destruct (N.eqb_spec a1 b1) as [->|H1]; [destruct (N.eqb_spec a2 b2) as [->|H2]|];
    simpl; constructor; congruence.
Qed.

Lemma find_row_set_mini : forall h k0 k tbl,
  find_row k (map (fun r => if key_eqb (inode_key r) k0 then set_mini_hash h r else r) tbl) =
  if key_eqb k k0 then option_map (set_mini_hash h) (find_row k tbl) else find_row k tbl.
Proof.
  intros h k0 k tbl. unfold find_row. induction tbl as [|r tbl IH]; cbn [map find].
  - destruct (key_eqb k k0); reflexivity.
  - rewrite IH. destruct (dc_key_eqb_spec (inode_key r) k0) as [E0|N0].
    + change (inode_key (set_mini_hash h r)) with (inode_key r). rewrite E0.
      destruct (dc_key_eqb_spec k0 k) as [Ek|Nk]; destruct (dc_key_eqb_spec k k0);
        subst; try reflexivity; congruence.
    + destruct (dc_key_eqb_spec (inode_key r) k) as [<-|Nk].
      * destruct (dc_key_eqb_spec (inode_key r) k0); [congruence|reflexivity].
      * reflexivity.
Qed.

Lemma find_row_delete_key : forall k0 k tbl,
  find_row k (delete_row k0 tbl) = if key_eqb k k0 then None else find_row k tbl.
Proof.
  intros k0 k tbl. unfold find_row, delete_row. induction tbl as [|r tbl IH]; cbn [filter find].
  - destruct (key_eqb k k0); reflexivity.
  - destruct (dc_key_eqb_spec (inode_key r) k0) as [E0|N0]; cbn [negb].
    + rewrite IH. destruct (dc_key_eqb_spec k k0) as [->|Nk]; [reflexivity|].
      destruct (dc_key_eqb_spec (inode_key r) k); [congruence|reflexivity].
    + cbn [find]. rewrite IH. destruct (dc_key_eqb_spec (inode_key r) k) as [<-|Nk].
      * destruct (dc_key_eqb_spec (inode_key r) k0); [congruence|reflexivity].
      * reflexivity.
Qed.

(** One member that passes: the rows of other keys are kept; its own row
    is deleted (lookup [ENOENT]) or gets the hash of the opened file. *)
Lemma comm1_hash_one_table : forall K m s,
  member_ok K m = true ->
  exists s1, comm1_hash_one K m s = inr (tt, s1) /\
    (forall k, k <> inode_key m -> find_row k (ds_table s1) = find_row k (ds_table s)) /\
    match lookup_ino_path_one K m with
    | IOErr _ => find_row (inode_key m) (ds_table s1) = None
    | IOk path => exists fd, fopenat K m path = IOk fd /\
        find_row (inode_key m) (ds_table s1) =
        option_map (set_mini_hash (prefix_hash K fd)) (find_row (inode_key m) (ds_table s))
    end.
Proof.
  intros K m s H. unfold member_ok in H. unfold comm1_hash_one. mrun.
  destruct (lookup_ino_path_one K m) as [path|[| | |c]]; try discriminate H.
  - destruct (fopenat K m path) as [fd|e]; [|discriminate H].
    eexists. split; [reflexivity|]. cbn [ds_table]. split.
    + intros k Hk. rewrite find_row_set_mini.
      destruct (dc_key_eqb_spec k (inode_key m)); [congruence|reflexivity].
    + exists fd. split; [reflexivity|]. rewrite find_row_set_mini.
      destruct (dc_key_eqb_spec (inode_key m) (inode_key m)); [reflexivity|congruence].
  - eexists. split; [reflexivity|]. cbn [ds_table]. split.
    + intros k Hk. rewrite find_row_delete_key.
      destruct (dc_key_eqb_spec k (inode_key m)); [congruence|reflexivity].
    + rewrite find_row_delete_key. destruct (dc_key_eqb_spec (inode_key m) (inode_key m)); [reflexivity|congruence].
Qed.

(** Claim C8 (corrected): for a Commonality1 group (members of distinct
    keys) the Grouper rehashes every member, cached [mini_hash] or not.
    If every member either is gone (lookup [ENOENT]) or can be looked up
    and opened, the loop returns; the mini-hash is computed, in order,
    for exactly the members whose lookup succeeds, and persisted in their
    rows; the rows of gone members are deleted; no other row changes.
    Otherwise the loop raises the [IOError] of the first member whose
    lookup fails with another errno or whose open fails. *)
Theorem comm1_hash_keys : forall K members s,
  NoDup (map inode_key members) ->
  if forallb (member_ok K) members then
    exists s', comm1_hash K members s = inr (tt, s') /\
      minihash_keys (ds_trace s') =
        minihash_keys (ds_trace s) ++ map inode_key (filter (lookup_succeeds K) members) /\
      (forall k, ~ In k (map inode_key members) -> find_row k (ds_table s') = find_row k (ds_table s)) /\
      (forall m, In m members ->
         match lookup_ino_path_one K m with
         | IOErr _ => find_row (inode_key m) (ds_table s') = None
         | IOk path => exists fd, fopenat K m path = IOk fd /\
             find_row (inode_key m) (ds_table s') =
             option_map (set_mini_hash (prefix_hash K fd)) (find_row (inode_key m) (ds_table s))
         end)
  else
    exists pre m post e, members = pre ++ m :: post /\ forallb (member_ok K) pre = true /\
      comm1_hash K members s = inl (IOError e) /\
      ((lookup_ino_path_one K m = IOErr e /\ e <> ENOENT) \/
       exists path, lookup_ino_path_one K m = IOk path /\ fopenat K m path = IOErr e).
Proof.
  intros K members. induction members as [|m ms IH]; intros s Hnd.
  - simpl. exists s. split; [reflexivity|]. split; [simpl; now rewrite app_nil_r|].
    split; [reflexivity|intros m []].
  - cbn [map] in Hnd. apply NoDup_cons_iff in Hnd. destruct Hnd as [Hm Hnd].
    cbn [forallb]. destruct (member_ok K m) eqn:Eok; cbn [andb].
    + destruct (comm1_hash_one_table K m s Eok) as [s1 [E1 [Hk Hme]]].
      specialize (IH s1 Hnd).
      assert (Hrun : comm1_hash K (m :: ms) s = comm1_hash K ms s1)
        by (unfold comm1_hash; cbn [iter]; unfold bind at 1; rewrite E1; reflexivity).
      destruct (forallb (member_ok K) ms) eqn:Eall.
      * destruct IH as [s' [E' [Ht [Hk' Hms]]]].
        exists s'. rewrite Hrun. split; [exact E'|]. split.
        { rewrite Ht, (comm1_hash_one_keys K m s s1 E1). cbn [filter].
          destruct (lookup_succeeds K m); simpl; now rewrite <- app_assoc. }
        split.
        { intros k Hn. cbn [map In] in Hn. rewrite (Hk' k), (Hk k); [reflexivity| |].
          - intros E. apply Hn. left. congruence.
          - intros E. apply Hn. right. exact E. }
        intros m' [<-|Hin].
        { rewrite (Hk' (inode_key m) Hm). exact Hme. }
        { assert (Hne : inode_key m' <> inode_key m)
            by (intros He; apply Hm; rewrite <- He; apply in_map; exact Hin).
          specialize (Hms m' Hin). rewrite (Hk _ Hne) in Hms. exact Hms. }
      * destruct IH as [pre [m' [post [e [Ep [Hpre [Ee He]]]]]]].
        exists (m :: pre), m', post, e. split; [rewrite Ep; reflexivity|].
        split; [cbn [forallb]; rewrite Eok, Hpre; reflexivity|].
        split; [rewrite Hrun; exact Ee|exact He].
    + exists [], m, ms. unfold member_ok in Eok.
      unfold comm1_hash. cbn [iter]. unfold bind at 1. unfold comm1_hash_one. mrun.
      destruct (lookup_ino_path_one K m) as [path|[| | |c]].
      * destruct (fopenat K m path) as [fd|e] eqn:Ef; [discriminate Eok|].
        exists e. split; [reflexivity|]. split; [reflexivity|]. split; [reflexivity|].
        right. exists path. split; [reflexivity|exact Ef].
      * discriminate Eok.
      * exists ETXTBSY. split; [reflexivity|]. split; [reflexivity|]. split; [reflexivity|].
        left. split; [reflexivity|discriminate].
      * exists EACCES. split; [reflexivity|]. split; [reflexivity|]. split; [reflexivity|].
        left. split; [reflexivity|discriminate].
      * exists (EOTHER c). split; [reflexivity|]. split; [reflexivity|]. split; [reflexivity|].
        left. split; [reflexivity|discriminate].
Qed.

(** Inode 2 has a cached [mini_hash] and is hashed again; inode 6 is gone
    and its row deleted. *)
Lemma comm1_hash_keys_witness :
  let ms := [mkInode 1 2 20 true (Some 5%N) None; mkInode 1 6 20 true None None] in
  if forallb (member_ok kernel_racy) ms then
    exists s', comm1_hash kernel_racy ms (state0 ms 64) = inr (tt, s') /\
      minihash_keys (ds_trace s') =
        minihash_keys (ds_trace (state0 ms 64)) ++ map inode_key (filter (lookup_succeeds kernel_racy) ms) /\
      (forall k, ~ In k (map inode_key ms) ->
         find_row k (ds_table s') = find_row k (ds_table (state0 ms 64))) /\
      (forall m, In m ms ->
         match lookup_ino_path_one kernel_racy m with
         | IOErr _ => find_row (inode_key m) (ds_table s') = None
         | IOk path => exists fd, fopenat kernel_racy m path = IOk fd /\
             find_row (inode_key m) (ds_table s') =
             option_map (set_mini_hash (prefix_hash kernel_racy fd))
                        (find_row (inode_key m) (ds_table (state0 ms 64)))
         end)
  else
    exists pre m post e, ms = pre ++ m :: post /\ forallb (member_ok kernel_racy) pre = true /\
      comm1_hash kernel_racy ms (state0 ms 64) = inl (IOError e) /\
      ((lookup_ino_path_one kernel_racy m = IOErr e /\ e <> ENOENT) \/
       exists path, lookup_ino_path_one kernel_racy m = IOk path /\ fopenat kernel_racy m path = IOErr e).
Proof.
  intros ms.
  exact (comm1_hash_keys kernel_racy ms (state0 ms 64)
           ltac:(apply NoDup_cons; [intros [H|[]]; discriminate H|
                                    apply NoDup_cons; [intros []|apply NoDup_nil]])).
Defined.

End DeduperClaims.

(** ** More of the Scanner: what a scan may change in the inode table *)
Module ScannerExtras.
Import Store Scanner ScannerFacts.
Local Open Scope N_scope.

Lemma key_eqb_true : forall a b, key_eqb a b = true <-> a = b.
Proof.
  intros [a1 a2] [b1 b2]. unfold key_eqb; simpl.
  rewrite andb_true_iff, !N.eqb_eq. split.
  - intros [-> ->]. reflexivity.
  - intros [= -> ->]. split; reflexivity.
Qed.

(** A record either leaves the table alone or goes through the upsert and
    the path lookup. *)
Lemma process_item_cases : forall lookup_ok vol mg tbl it,
  process_item lookup_ok vol mg tbl it = tbl \/
  (sh_type it = BTRFS_INODE_ITEM_KEY /\ size_cutoff vol <= item_size it /\
   process_item lookup_ok vol mg tbl it =
     let '(tbl', created) := upsert (vid vol) (sh_objectid it) (item_size it) tbl in
     if lookup_ok (sh_objectid it) then tbl'
     else if created then tbl else delete_row (vid vol, sh_objectid it) tbl').
Proof.
  intros lookup_ok vol mg tbl it. unfold process_item.
  destruct (N.eqb_spec (sh_type it) BTRFS_INODE_ITEM_KEY) as [Ht|]; [|left; reflexivity].
  simpl negb. cbv iota zeta.
  destruct (N.ltb_spec (item_size it) (size_cutoff vol)); [left; reflexivity|].
  destruct (if stricter_filter vol (item_size it)
            then (item_generation it <=? last_tracked_generation vol)
            else (item_generation it <? mg)); [left; reflexivity|].
  destruct (negb (S_ISREG (item_mode it))); [left; reflexivity|].
  right. split; [exact Ht|]. split; [lia|reflexivity].
Qed.

Lemma find_row_map_keep : forall k f tbl,
  (forall x, inode_key (f x) = inode_key x) ->
  find_row k (map f tbl) = option_map f (find_row k tbl).
Proof.
  intros k f tbl Hf. unfold find_row. induction tbl as [|x xs IH]; [reflexivity|].
  simpl. rewrite Hf. destruct (key_eqb (inode_key x) k); [reflexivity|exact IH].
Qed.

Lemma find_row_delete_other : forall k k0 tbl,
  k <> k0 -> find_row k (delete_row k0 tbl) = find_row k tbl.
Proof.
  intros k k0 tbl Hne. unfold find_row, delete_row.
  induction tbl as [|x xs IH]; [reflexivity|]. simpl.
  destruct (key_eqb (inode_key x) k0) eqn:E0; simpl.
  - destruct (key_eqb (inode_key x) k) eqn:E; [|exact IH].
    apply key_eqb_true in E0, E. congruence.
  - destruct (key_eqb (inode_key x) k); [reflexivity|exact IH].
Qed.

Lemma find_row_app_l : forall k tbl r x,
  find_row k tbl = Some x -> find_row k (tbl ++ [r]) = Some x.
Proof.
  intros k tbl r x. unfold find_row. induction tbl as [|y ys IH]; simpl; [discriminate|].
  destruct (key_eqb (inode_key y) k); [exact (fun H => H)|exact IH].
Qed.

Lemma find_row_none_notin : forall k tbl,
  find_row k tbl = None -> ~ In k (map inode_key tbl).
Proof.
  intros k tbl H Hin. apply in_map_iff in Hin as [x [Hx Hin]].
  pose proof (find_none _ _ H x Hin) as Hf. simpl in Hf.
  rewrite Hx, key_eqb_refl in Hf. discriminate.
Qed.

Lemma in_map_filter : forall (f : Inode -> N * N) p l k,
  In k (map f (filter p l)) -> In k (map f l).
Proof.
  intros f p l k H. apply in_map_iff in H as [x [<- Hx]].
  apply filter_In in Hx as [Hx _]. now apply in_map.
Qed.

Lemma nodup_map_filter : forall (f : Inode -> N * N) p l,
  NoDup (map f l) -> NoDup (map f (filter p l)).
Proof.
  intros f p l. induction l as [|x xs IH]; intros H; simpl; [constructor|].
  inversion H as [|? ? Hnot Hnd]; subst.
  destruct (p x); simpl; [|exact (IH Hnd)].
  constructor; [|exact (IH Hnd)].
  intro Hin. apply Hnot. exact (in_map_filter f p xs _ Hin).
Qed.

(** The map [upsert] applies to the rows keeps their keys and volumes. *)
Lemma upsert_map_key : forall v i sz x,
  inode_key ((fun r => if key_eqb (inode_key r) (v, i)
                       then set_has_updates true (set_size sz r) else r) x) = inode_key x.
Proof. intros v i sz x. simpl. destruct (key_eqb (inode_key x) (v, i)); reflexivity. Qed.

Lemma filter_other_map : forall v i sz tbl,
  filter (fun r => negb (vol_id r =? v))
    (map (fun r => if key_eqb (inode_key r) (v, i)
                   then set_has_updates true (set_size sz r) else r) tbl)
  = filter (fun r => negb (vol_id r =? v)) tbl.
Proof.
  intros v i sz. induction tbl as [|x xs IH]; [reflexivity|]. simpl.
  destruct (key_eqb (inode_key x) (v, i)) eqn:E.
  - apply key_eqb_true in E. unfold inode_key in E. injection E as Ev _.
    simpl. rewrite Ev, N.eqb_refl. simpl. exact IH.
  - destruct (negb (vol_id x =? v)); [f_equal|]; exact IH.
Qed.

Lemma filter_other_delete : forall v i tbl,
  filter (fun r => negb (vol_id r =? v)) (delete_row (v, i) tbl)
  = filter (fun r => negb (vol_id r =? v)) tbl.
Proof.
  intros v i. unfold delete_row. induction tbl as [|x xs IH]; [reflexivity|]. simpl.
  destruct (key_eqb (inode_key x) (v, i)) eqn:E; simpl.
  - apply key_eqb_true in E. unfold inode_key in E. injection E as Ev _.
    rewrite Ev, N.eqb_refl. simpl. exact IH.
  - destruct (negb (vol_id x =? v)); [f_equal|]; exact IH.
Qed.

(** The upsert-and-lookup step leaves the rows of other volumes alone. *)
Lemma write_others : forall v i sz (lk : bool) tbl,
  filter (fun r => negb (vol_id r =? v))
    (let '(tbl', created) := upsert v i sz tbl in
     if lk then tbl' else if created then tbl else delete_row (v, i) tbl')
  = filter (fun r => negb (vol_id r =? v)) tbl.
Proof.
  intros v i sz lk tbl. unfold upsert.
  destruct (find_row (v, i) tbl); destruct lk; simpl.
  - apply filter_other_map.
  - rewrite filter_other_delete. apply filter_other_map.
  - rewrite filter_app. simpl. rewrite N.eqb_refl. simpl. apply app_nil_r.
  - reflexivity.
Qed.

(** The rows after the upsert-and-lookup step: old ones, or rows of [v]
    written pending with size [sz]. *)
Lemma write_rows : forall v i sz (lk : bool) tbl r,
  In r (let '(tbl', created) := upsert v i sz tbl in
        if lk then tbl' else if created then tbl else delete_row (v, i) tbl') ->
  In r tbl \/ (vol_id r = v /\ has_updates r = true /\ size r = sz).
Proof.
  intros v i sz lk tbl r. unfold upsert.
  assert (Hmap : In r (map (fun r => if key_eqb (inode_key r) (v, i)
                                     then set_has_updates true (set_size sz r) else r) tbl) ->
                 In r tbl \/ (vol_id r = v /\ has_updates r = true /\ size r = sz)).
  { intro H. apply in_map_iff in H as [x [Hx Hin]].
    destruct (key_eqb (inode_key x) (v, i)) eqn:E.
    - apply key_eqb_true in E. unfold inode_key in E. injection E as Ev _.
      right. subst r. simpl. split; [exact Ev|split; reflexivity].
    - left. subst r. exact Hin. }
  destruct (find_row (v, i) tbl); destruct lk; simpl.
  - exact Hmap.
  - intro H. apply filter_In in H as [H _]. exact (Hmap H).
  - intro H. apply in_app_or in H as [H|[<-|[]]]; [left; exact H|].
    right. split; [reflexivity|split; reflexivity].
  - intro H. left. exact H.
Qed.

Lemma write_nodup : forall v i sz (lk : bool) tbl,
  NoDup (map inode_key tbl) ->
  NoDup (map inode_key
    (let '(tbl', created) := upsert v i sz tbl in
     if lk then tbl' else if created then tbl else delete_row (v, i) tbl')).
Proof.
  intros v i sz lk tbl H. unfold upsert.
  assert (Hm : map inode_key (map (fun r => if key_eqb (inode_key r) (v, i)
                 then set_has_updates true (set_size sz r) else r) tbl) = map inode_key tbl).
  { rewrite map_map. apply map_ext. apply upsert_map_key. }
  destruct (find_row (v, i) tbl) eqn:F; destruct lk; simpl.
  - rewrite Hm. exact H.
  - unfold delete_row. apply nodup_map_filter. rewrite Hm. exact H.
  - rewrite map_app. simpl.
    apply (Permutation_NoDup (Permutation_cons_append _ _)).
    constructor; [exact (find_row_none_notin _ _ F)|exact H].
  - exact H.
Qed.

(** A key present before the upsert-and-lookup step is present after it,
    unless it is the written key and the lookup failed. *)
Lemma write_keeps_key : forall v i sz (lk : bool) tbl k,
  find_row k tbl <> None ->
  (k = (v, i) /\ lk = false) \/
  find_row k (let '(tbl', created) := upsert v i sz tbl in
              if lk then tbl' else if created then tbl else delete_row (v, i) tbl') <> None.
Proof.
  intros v i sz lk tbl k H. unfold upsert.
  assert (Hm : find_row k (map (fun r => if key_eqb (inode_key r) (v, i)
                 then set_has_updates true (set_size sz r) else r) tbl) <> None).
  { rewrite find_row_map_keep by apply upsert_map_key.
    destruct (find_row k tbl); [discriminate|contradiction]. }
  destruct (find_row (v, i) tbl) eqn:F; destruct lk; simpl.
  - right. exact Hm.
  - destruct k as [a b].
    destruct (N.eq_dec a v) as [->|Ha]; [destruct (N.eq_dec b i) as [->|Hb]|].
    + left. split; reflexivity.
    + right. rewrite find_row_delete_other by congruence. exact Hm.
    + right. rewrite find_row_delete_other by congruence. exact Hm.
  - right. destruct (find_row k tbl) as [x|] eqn:Fk; [|contradiction].
    rewrite (find_row_app_l _ _ _ _ Fk). discriminate.
  - right. exact H.
Qed.

End ScannerExtras.

Module ScannerExtraFacts.
Import Store Scanner ScannerFacts ScannerExtras ScanFixtures.
Local Open Scope N_scope.

Lemma process_item_others : forall lookup_ok vol mg tbl it,
  filter (fun r => negb (vol_id r =? vid vol)) (process_item lookup_ok vol mg tbl it)
  = filter (fun r => negb (vol_id r =? vid vol)) tbl.
Proof.
  intros lookup_ok vol mg tbl it.
  destruct (process_item_cases lookup_ok vol mg tbl it) as [E|[_ [_ E]]]; rewrite E;
    [reflexivity|apply write_others].
Qed.

Lemma fold_others : forall lookup_ok vol mg items tbl,
  filter (fun r => negb (vol_id r =? vid vol)) (fold_left (process_item lookup_ok vol mg) items tbl)
  = filter (fun r => negb (vol_id r =? vid vol)) tbl.
Proof.
  intros lookup_ok vol mg items. induction items as [|it its IH]; intros tbl; [reflexivity|].
  simpl. rewrite IH. apply process_item_others.
Qed.

(** A scan of a volume leaves the rows of every other volume as they were,
    in the same order: the upsert, the delete and the expunge only touch
    rows keyed by the scanned volume. *)
Theorem scan_other_volumes_untouched : forall lookup_ok tree_search top vol tbl,
  filter (fun r => negb (vol_id r =? vid vol))
    (snd (track_updated_files lookup_ok tree_search top vol tbl))
  = filter (fun r => negb (vol_id r =? vid vol)) tbl.
Proof.
  intros lookup_ok tree_search top vol tbl. unfold track_updated_files.
  destruct (top <? min_generation vol); [reflexivity|apply fold_others].
Qed.

Lemma process_item_rows : forall lookup_ok vol mg tbl it r,
  In r (process_item lookup_ok vol mg tbl it) ->
  In r tbl \/ (vol_id r = vid vol /\ has_updates r = true /\ size_cutoff vol <= size r).
Proof.
  intros lookup_ok vol mg tbl it r.
  destruct (process_item_cases lookup_ok vol mg tbl it) as [E|[_ [Hc E]]]; rewrite E;
    intro H; [left; exact H|].
  destruct (write_rows _ _ _ _ _ _ H) as [H1|[H1 [H2 H3]]]; [left; exact H1|].
  right. split; [exact H1|split; [exact H2|lia]].
Qed.

Lemma fold_rows : forall lookup_ok vol mg items tbl0 tbl,
  (forall r, In r tbl -> In r tbl0 \/
     (vol_id r = vid vol /\ has_updates r = true /\ size_cutoff vol <= size r)) ->
  forall r, In r (fold_left (process_item lookup_ok vol mg) items tbl) ->
  In r tbl0 \/ (vol_id r = vid vol /\ has_updates r = true /\ size_cutoff vol <= size r).
Proof.
  intros lookup_ok vol mg items tbl0. induction items as [|it its IH]; intros tbl Hinv.
  - exact Hinv.
  - simpl. apply IH. intros r Hr.
    destruct (process_item_rows _ _ _ _ _ _ Hr) as [H|H]; [exact (Hinv r H)|right; exact H].
Qed.

(** Every row after a scan was already there, unchanged, or is a row of
    the scanned volume marked pending ([has_updates = true]) with a size at
    least the volume's [size_cutoff]: a scan never writes a small file. *)
Theorem scan_rows_written : forall lookup_ok tree_search top vol tbl r,
  In r (snd (track_updated_files lookup_ok tree_search top vol tbl)) ->
  In r tbl \/ (vol_id r = vid vol /\ has_updates r = true /\ size_cutoff vol <= size r).
Proof.
  intros lookup_ok tree_search top vol tbl r. unfold track_updated_files.
  destruct (top <? min_generation vol); simpl; [intro H; left; exact H|].
  apply fold_rows. intros r' H. left. exact H.
Qed.

Lemma scan_rows_written_witness :
  In (mkInode 1 7 20 true None None) tbl0 \/
  (vol_id (mkInode 1 7 20 true None None) = vid vol1 /\
   has_updates (mkInode 1 7 20 true None None) = true /\
   size_cutoff vol1 <= size (mkInode 1 7 20 true None None)).
Proof.
  apply (scan_rows_written lookup0 (fun _ => items0) 10 vol1 tbl0).
  vm_compute. auto.
Defined.

Lemma process_item_nodup : forall lookup_ok vol mg tbl it,
  NoDup (map inode_key tbl) -> NoDup (map inode_key (process_item lookup_ok vol mg tbl it)).
Proof.
  intros lookup_ok vol mg tbl it H.
  destruct (process_item_cases lookup_ok vol mg tbl it) as [E|[_ [_ E]]]; rewrite E;
    [exact H|apply write_nodup; exact H].
Qed.

(** A scan keeps the table's keys unique: when no two rows share a
    [(vol_id, ino)] before it, none do after it ([get_or_create] updates
    the existing row rather than adding a second one). *)
Theorem scan_keys_unique : forall lookup_ok tree_search top vol tbl,
  NoDup (map inode_key tbl) ->
  NoDup (map inode_key (snd (track_updated_files lookup_ok tree_search top vol tbl))).
Proof.
  intros lookup_ok tree_search top vol tbl H. unfold track_updated_files.
  destruct (top <? min_generation vol); [exact H|]. simpl.
  generalize (tree_search (min_generation vol)) tbl H.
  intros items. induction items as [|it its IH]; intros t Ht; [exact Ht|].
  simpl. apply IH. apply process_item_nodup. exact Ht.
Qed.

Lemma scan_keys_unique_witness :
  NoDup (map inode_key (snd (track_updated_files lookup0 (fun _ => items0) 10 vol1 tbl0))).
Proof.
  apply scan_keys_unique. vm_compute.
  constructor; [intros [H|[]]; discriminate H|].
  constructor; [intros []|constructor].
Defined.

Lemma process_item_keeps_key : forall lookup_ok vol mg tbl it k,
  find_row k tbl <> None ->
  (fst k = vid vol /\ lookup_ok (snd k) = false) \/
  find_row k (process_item lookup_ok vol mg tbl it) <> None.
Proof.
  intros lookup_ok vol mg tbl it k H.
  destruct (process_item_cases lookup_ok vol mg tbl it) as [E|[_ [_ E]]]; rewrite E;
    [right; exact H|].
  destruct (write_keeps_key (vid vol) (sh_objectid it) (item_size it)
              (lookup_ok (sh_objectid it)) tbl k H) as [[-> Hl]|Hk].
  - left. split; [reflexivity|exact Hl].
  - right. exact Hk.
Qed.

Lemma fold_keeps_key : forall lookup_ok vol mg k items tbl,
  find_row k tbl <> None ->
  (fst k = vid vol /\ lookup_ok (snd k) = false) \/
  find_row k (fold_left (process_item lookup_ok vol mg) items tbl) <> None.
Proof.
  intros lookup_ok vol mg k items. induction items as [|it its IH]; intros tbl H.
  - right. exact H.
  - simpl. destruct (process_item_keeps_key lookup_ok vol mg tbl it k H) as [Hc|Hk].
    + left. exact Hc.
    + exact (IH _ Hk).
Qed.

(** A scan removes a tracked row only when it belongs to the scanned
    volume and the path lookup of its inode fails. *)
Theorem scan_removes_only_failed_lookups : forall lookup_ok tree_search top vol tbl k,
  find_row k tbl <> None ->
  find_row k (snd (track_updated_files lookup_ok tree_search top vol tbl)) = None ->
  fst k = vid vol /\ lookup_ok (snd k) = false.
Proof.
  intros lookup_ok tree_search top vol tbl k H Hgone. unfold track_updated_files in Hgone.
  destruct (top <? min_generation vol); simpl in Hgone; [contradiction|].
  destruct (fold_keeps_key lookup_ok vol (min_generation vol) k
              (tree_search (min_generation vol)) tbl H) as [Hc|Hk];
    [exact Hc|contradiction].
Qed.

Lemma scan_removes_only_failed_lookups_witness :
  fst (1, 9) = vid vol1 /\ lookup0 (snd (1, 9)) = false.
Proof.
  apply (scan_removes_only_failed_lookups lookup0 (fun _ => items0) 10 vol1 tbl0);
    vm_compute; [discriminate|reflexivity].
Defined.

(** After [forget_vol], the volume has no Inode row left and keeps its
    stored size cutoff; the next scan at any root generation from 1 on runs
    the tree search, and its filters accept every regular file of at least
    [size_cutoff] bytes with a non-zero generation, which gets a pending
    row of its size when its path resolves. *)
Theorem forget_vol_rescan : forall lookup_ok vol tbl top t it,
  let vol' := fst (forget_vol vol tbl) in
  filter (fun r => vol_id r =? vid vol) (snd (forget_vol vol tbl)) = [] /\
  last_tracked_size_cutoff vol' = last_tracked_size_cutoff vol /\
  (1 <= top -> min_generation vol' <= top) /\
  (sh_type it = BTRFS_INODE_ITEM_KEY -> S_ISREG (item_mode it) = true ->
   size_cutoff vol <= item_size it -> 1 <= item_generation it ->
   lookup_ok (sh_objectid it) = true ->
   exists r, find_row (vid vol, sh_objectid it)
               (process_item lookup_ok vol' (min_generation vol') t it) = Some r /\
             size r = item_size it /\ has_updates r = true).
Proof.
  intros lookup_ok vol tbl top t it vol'. split; [|split; [reflexivity|split]].
  - simpl. clear vol'.
    induction tbl as [|x xs IH]; [reflexivity|]. simpl.
    destruct (vol_id x =? vid vol) eqn:E; simpl; [exact IH|]. rewrite E. exact IH.
  - intro Htop. unfold vol', min_generation. simpl.
    destruct (last_tracked_size_cutoff vol) as [s|]; [destruct (s <=? size_cutoff vol)|]; lia.
  - intros Ht Hreg Hsz Hgen Hl.
    unfold process_item. rewrite Ht, N.eqb_refl. simpl negb. cbv zeta.
    replace (item_size it <? size_cutoff vol') with false
      by (symmetry; apply N.ltb_ge; exact Hsz).
    replace (if stricter_filter vol' (item_size it)
             then item_generation it <=? last_tracked_generation vol'
             else item_generation it <? min_generation vol') with false.
    2:{ unfold stricter_filter, min_generation, vol'. simpl.
        destruct (last_tracked_size_cutoff vol) as [s|].
        - destruct (negb (s =? 0) && (s <=? item_size it)).
          + symmetry. apply N.leb_gt. lia.
          + destruct (s <=? size_cutoff vol); symmetry; apply N.ltb_ge; lia.
        - symmetry. apply N.ltb_ge. lia. }
    rewrite Hreg. simpl negb. unfold upsert.
    replace (vid vol') with (vid vol) by reflexivity.
    destruct (find_row (vid vol, sh_objectid it) t) as [r0|] eqn:F; rewrite Hl.
    + eexists. split; [apply find_row_update; [exact F|reflexivity]|split; reflexivity].
    + eexists. split; [apply find_row_app_new; [exact F|apply key_eqb_refl]|split; reflexivity].
Qed.

Lemma forget_vol_rescan_witness :
  exists r, find_row (1, 7)
              (process_item (fun _ => true) (fst (forget_vol (mkVolume 1 10 50 (Some 10)) tbl0))
                 (min_generation (fst (forget_vol (mkVolume 1 10 50 (Some 10)) tbl0))) []
                 (mkItem 7 BTRFS_INODE_ITEM_KEY 0 6 3 20 33188)) = Some r /\
            size r = 20 /\ has_updates r = true.
Proof.
  pose proof (forget_vol_rescan (fun _ => true) (mkVolume 1 10 50 (Some 10)) tbl0 60 []
                (mkItem 7 BTRFS_INODE_ITEM_KEY 0 6 3 20 33188)) as [_ [_ [_ H]]].
  apply H; vm_compute; first [reflexivity | discriminate].
Defined.

End ScannerExtraFacts.

(** ** The TREE_SEARCH loop *)
Module SearchLoopFacts.
Import Scanner SearchLoop.
Local Open Scope N_scope.

Ltac lex_solve :=
  repeat match goal with
  | |- context [(?a <? ?b)%N] => destruct (N.ltb_spec a b)
  | |- context [(?a =? ?b)%N] => destruct (N.eqb_spec a b)
  end; simpl; intros;
  first [reflexivity | discriminate | lia | exfalso; lia].

Lemma key_ltb_trans : forall a b c,
  key_ltb a b = true -> key_ltb b c = true -> key_ltb a c = true.
Proof. intros [[o1 t1] f1] [[o2 t2] f2] [[o3 t3] f3]. unfold key_ltb. lex_solve. Qed.

Lemma key_ltb_leb : forall a b, key_ltb a b = true -> key_leb a b = true.
Proof. intros [[o1 t1] f1] [[o2 t2] f2]. unfold key_leb, key_ltb. lex_solve. Qed.

Lemma key_leb_trans : forall a b c,
  key_leb a b = true -> key_leb b c = true -> key_leb a c = true.
Proof. intros [[o1 t1] f1] [[o2 t2] f2] [[o3 t3] f3]. unfold key_leb, key_ltb. lex_solve. Qed.

(** The cursor one offset past a key: the keys at or after it are the keys
    after that key. *)
Lemma key_leb_succ : forall o t f k, key_leb (o, t, f + 1) k = key_ltb (o, t, f) k.
Proof. intros o t f [[o2 t2] f2]. unfold key_leb, key_ltb. lex_solve. Qed.

Lemma key_leb_start : forall k, key_leb search_start k = true.
Proof. intros [[o t] f]. unfold key_leb, key_ltb, search_start. lex_solve. Qed.

Lemma keys_sorted_cons : forall x l,
  keys_sorted (x :: l) = true <->
  Forall (fun y => key_ltb (key_of x) (key_of y) = true) l /\ keys_sorted l = true.
Proof.
  intros x l. revert x. induction l as [|y t IH]; intros x.
  - split; [intros _; split; [constructor|reflexivity]|intros _; reflexivity].
  - change (keys_sorted (x :: y :: t)) with (key_ltb (key_of x) (key_of y) && keys_sorted (y :: t)).
    rewrite andb_true_iff. split.
    + intros [Hxy Hs]. split; [|exact Hs].
      constructor; [exact Hxy|].
      apply IH in Hs as [Hf _]. eapply Forall_impl; [|exact Hf].
      intros z Hz. exact (key_ltb_trans _ _ _ Hxy Hz).
    + intros [Hf Hs]. inversion Hf; subst. split; assumption.
Qed.

Lemma keys_sorted_filter : forall p l, keys_sorted l = true -> keys_sorted (filter p l) = true.
Proof.
  intros p l. induction l as [|x xs IH]; intros H; [reflexivity|].
  apply keys_sorted_cons in H as [Hf Hs]. simpl.
  destruct (p x); [|exact (IH Hs)].
  apply keys_sorted_cons. split; [|exact (IH Hs)].
  apply Forall_forall. intros y Hy. apply filter_In in Hy as [Hy _].
  rewrite Forall_forall in Hf. exact (Hf y Hy).
Qed.

Lemma keys_sorted_app : forall a b,
  keys_sorted (a ++ b) = true ->
  keys_sorted a = true /\
  (forall x y, In x a -> In y b -> key_ltb (key_of x) (key_of y) = true).
Proof.
  induction a as [|x a IH]; intros b H.
  - split; [reflexivity|intros x y []].
  - simpl in H. apply keys_sorted_cons in H as [Hf Hs].
    destruct (IH b Hs) as [Ha Hc]. rewrite Forall_forall in Hf. split.
    + apply keys_sorted_cons. split; [|exact Ha].
      apply Forall_forall. intros y Hy. apply Hf, in_or_app. left; exact Hy.
    + intros x' y [<-|Hx] Hy.
      * apply Hf, in_or_app. right; exact Hy.
      * exact (Hc x' y Hx Hy).
Qed.

Lemma In_last_gen : forall {A} (l : list A) d, l <> [] -> In (last l d) l.
Proof.
  intros A l d. induction l as [|x [|y t] IH]; intros H; [congruence|left; reflexivity|].
  right. apply IH. discriminate.
Qed.

Lemma sorted_last_max : forall l y d,
  keys_sorted l = true -> In y l -> key_leb (key_of y) (key_of (last l d)) = true.
Proof.
  induction l as [|x [|z t] IH]; intros y d Hs Hy; [destruct Hy| |].
  - destruct Hy as [->|[]]. simpl. unfold key_leb.
    destruct (key_of y) as [[o t] f]. unfold key_ltb. lex_solve.
  - apply keys_sorted_cons in Hs as [Hf Hs].
    change (last (x :: z :: t) d) with (last (z :: t) d).
    destruct Hy as [<-|Hy].
    + apply key_ltb_leb. rewrite Forall_forall in Hf.
      apply Hf, In_last_gen. discriminate.
    + exact (IH y d Hs Hy).
Qed.

Lemma filter_nested : forall (p q : SearchItem -> bool) l,
  (forall x, p x = true -> q x = true) -> filter p l = filter p (filter q l).
Proof.
  intros p q l H. induction l as [|x xs IH]; [reflexivity|]. simpl.
  destruct (p x) eqn:Ep.
  - rewrite (H x Ep). simpl. rewrite Ep. f_equal. exact IH.
  - destruct (q x); simpl; [rewrite Ep|]; exact IH.
Qed.

Lemma filter_all : forall (p : SearchItem -> bool) l,
  (forall x, In x l -> p x = true) -> filter p l = l.
Proof.
  intros p l H. induction l as [|x xs IH]; [reflexivity|]. simpl.
  rewrite (H x (or_introl eq_refl)). f_equal. apply IH. intros y Hy. apply H. right; exact Hy.
Qed.

Lemma filter_none : forall (p : SearchItem -> bool) l,
  (forall x, In x l -> p x = false) -> filter p l = [].
Proof.
  intros p l H. induction l as [|x xs IH]; [reflexivity|]. simpl.
  rewrite (H x (or_introl eq_refl)). apply IH. intros y Hy. apply H. right; exact Hy.
Qed.

Lemma In_skipn_gen : forall {A} n (l : list A) x, In x (skipn n l) -> In x l.
Proof.
  intros A n l x H. rewrite <- (firstn_skipn n l). apply in_or_app. right; exact H.
Qed.

(** After a batch, the records at or after the new cursor are the ones
    the batch did not reach. *)
Lemma search_cursor_step : forall n tree c b bs,
  keys_sorted tree = true ->
  firstn n (filter (fun it => key_leb c (key_of it)) tree) = b :: bs ->
  let lb := last (b :: bs) (mkItem 0 0 0 0 0 0 0) in
  filter (fun it => key_leb (sh_objectid lb, sh_type lb, sh_offset lb + 1) (key_of it)) tree
  = skipn n (filter (fun it => key_leb c (key_of it)) tree).
Proof.
  intros n tree c b bs Hs B lb.
  remember (filter (fun it => key_leb c (key_of it)) tree) as S eqn:ES.
  assert (HS : keys_sorted S = true) by (subst S; apply keys_sorted_filter; exact Hs).
  assert (Hlb : In lb (firstn n S)) by (rewrite B; apply In_last_gen; discriminate).
  assert (HlbS : In lb S) by exact (GrouperFacts.In_firstn_l _ _ _ Hlb).
  assert (Hc : key_leb c (key_of lb) = true)
    by (rewrite ES in HlbS; apply filter_In in HlbS; exact (proj2 HlbS)).
  rewrite (filter_nested _ (fun it => key_leb c (key_of it)) tree).
  2:{ intros x Hx. rewrite key_leb_succ in Hx.
      exact (key_leb_trans _ _ _ Hc (key_ltb_leb _ _ Hx)). }
  rewrite <- ES.
  assert (Hsplit : keys_sorted (firstn n S ++ skipn n S) = true)
    by (rewrite firstn_skipn; exact HS).
  apply keys_sorted_app in Hsplit as [Hpre Hcross].
  assert (Hnone : forall y, In y (firstn n S) ->
            key_leb (sh_objectid lb, sh_type lb, sh_offset lb + 1) (key_of y) = false).
  { intros y Hy. rewrite key_leb_succ.
    pose proof (sorted_last_max _ y (mkItem 0 0 0 0 0 0 0) Hpre Hy) as Hm.
    rewrite B in Hm. fold lb in Hm. unfold key_leb in Hm.
    change (sh_objectid lb, sh_type lb, sh_offset lb) with (key_of lb).
    destruct (key_ltb (key_of lb) (key_of y)); [discriminate|reflexivity]. }
  assert (Hall : forall z, In z (skipn n S) ->
            key_leb (sh_objectid lb, sh_type lb, sh_offset lb + 1) (key_of z) = true).
  { intros z Hz. rewrite key_leb_succ.
    change (sh_objectid lb, sh_type lb, sh_offset lb) with (key_of lb).
    exact (Hcross lb z Hlb Hz). }
  rewrite <- (firstn_skipn n S) at 1. rewrite filter_app.
  rewrite (filter_none _ _ Hnone), (filter_all _ _ Hall). reflexivity.
Qed.

Lemma length_skipn_lt : forall {A} n (l : list A),
  (0 < n)%nat -> l <> [] -> (length (skipn n l) < length l)%nat.
Proof.
  intros A n l Hn Hl. rewrite length_skipn. destruct l; [congruence|]. cbn [length]. lia.
Qed.

Lemma search_loop_done : forall n tree, (0 < n)%nat -> keys_sorted tree = true ->
  forall fuel c,
  (length (filter (fun it => key_leb c (key_of it)) tree) < fuel)%nat ->
  Forall (fun it => sh_offset it < u64_max) (filter (fun it => key_leb c (key_of it)) tree) ->
  search_loop (fun c => firstn n (filter (fun it => key_leb c (key_of it)) tree)) fuel c
  = SearchDone (filter (fun it => key_leb c (key_of it)) tree).
Proof.
  intros n tree Hn Hs fuel. induction fuel as [|f IH]; intros c Hlen Hoff; [lia|].
  cbn [search_loop].
  destruct (firstn n (filter (fun it => key_leb c (key_of it)) tree)) as [|b bs] eqn:B.
  - destruct (filter (fun it => key_leb c (key_of it)) tree) as [|x xs]; [reflexivity|].
    destruct n; [lia|]. discriminate B.
  - pose proof (search_cursor_step n tree c b bs Hs B) as Hstep. cbv zeta in Hstep |- *.
    set (lb := last (b :: bs) (mkItem 0 0 0 0 0 0 0)) in *.
    remember (filter (fun it => key_leb c (key_of it)) tree) as S eqn:ES.
    assert (Hlb : In lb S)
      by (apply (GrouperFacts.In_firstn_l n); rewrite B; apply In_last_gen; discriminate).
    assert (Hoffl : sh_offset lb < u64_max) by (rewrite Forall_forall in Hoff; exact (Hoff lb Hlb)).
    replace (sh_offset lb + 1 <=? u64_max) with true by (symmetry; apply N.leb_le; lia).
    assert (HSne : S <> []) by (intro E; rewrite E in Hlb; destruct Hlb).
    rewrite IH; rewrite Hstep.
    + rewrite <- B, firstn_skipn. reflexivity.
    + pose proof (length_skipn_lt n S Hn HSne). lia.
    + rewrite Forall_forall in Hoff |- *. intros x Hx. exact (Hoff x (In_skipn_gen _ _ _ Hx)).
Qed.

Lemma search_loop_overflow : forall n tree, (0 < n)%nat -> keys_sorted tree = true ->
  forall fuel c init x,
  filter (fun it => key_leb c (key_of it)) tree = init ++ [x] ->
  (length (init ++ [x]) < fuel)%nat ->
  Forall (fun it => sh_offset it < u64_max) init -> sh_offset x = u64_max ->
  search_loop (fun c => firstn n (filter (fun it => key_leb c (key_of it)) tree)) fuel c
  = SearchOverflow (init ++ [x]).
Proof.
  intros n tree Hn Hs fuel. induction fuel as [|f IH]; intros c init x ES Hlen Hoff Hx; [lia|].
  cbn [search_loop].
  destruct (firstn n (filter (fun it => key_leb c (key_of it)) tree)) as [|b bs] eqn:B.
  - rewrite ES in B. destruct n; [lia|]. destruct init; discriminate B.
  - pose proof (search_cursor_step n tree c b bs Hs B) as Hstep. cbv zeta in Hstep |- *.
    set (lb := last (b :: bs) (mkItem 0 0 0 0 0 0 0)) in *.
    rewrite ES in B, Hstep.
    destruct (Nat.lt_ge_cases n (length (init ++ [x]))) as [Hlt|Hge].
    + (* the batch stops inside [init] *)
      rewrite length_app in Hlt. simpl in Hlt.
      assert (Hfi : firstn n (init ++ [x]) = firstn n init).
      { rewrite firstn_app. replace (n - length init)%nat with 0%nat by lia.
        apply app_nil_r. }
      assert (Hlb : In lb init).
      { apply (GrouperFacts.In_firstn_l n). rewrite <- Hfi, B.
        apply In_last_gen. discriminate. }
      assert (Hoffl : sh_offset lb < u64_max)
        by (rewrite Forall_forall in Hoff; exact (Hoff lb Hlb)).
      replace (sh_offset lb + 1 <=? u64_max) with true by (symmetry; apply N.leb_le; lia).
      assert (Hsk : skipn n (init ++ [x]) = skipn n init ++ [x]).
      { rewrite skipn_app. replace (n - length init)%nat with 0%nat by lia. reflexivity. }
      rewrite Hsk in Hstep.
      rewrite (IH _ (skipn n init) x Hstep).
      * rewrite <- Hsk, <- B, firstn_skipn. reflexivity.
      * rewrite <- Hsk.
        assert (Hne : init ++ [x] <> []) by (destruct init; discriminate).
        pose proof (length_skipn_lt n (init ++ [x]) Hn Hne). lia.
      * rewrite Forall_forall in Hoff |- *. intros y Hy. exact (Hoff y (In_skipn_gen _ _ _ Hy)).
      * exact Hx.
    + (* the batch reaches [x] *)
      rewrite firstn_all2 in B by exact Hge.
      assert (Hl : lb = x) by (unfold lb; rewrite <- B; apply last_last).
      rewrite Hl, Hx. replace (u64_max + 1 <=? u64_max) with false
        by (symmetry; apply N.leb_gt; lia).
      rewrite <- B. reflexivity.
Qed.

(** The TREE_SEARCH loop against a kernel that serves the records [tree]
    in key order, 4096 at a time from the cursor: when no record has the
    largest offset, the loop hands every record to the loop body exactly
    once, in key order, then stops on the empty batch, after at most
    [length tree + 1] ioctl calls. When the last record has offset
    [u64_max] (and no other does), [sk.min_offset += 1] raises
    [OverflowError] once every record was handled. *)
Theorem search_loop_visits_tree : forall tree fuel,
  keys_sorted tree = true -> (length tree < fuel)%nat ->
  (Forall (fun it => sh_offset it < u64_max) tree ->
   search_loop (tree_search_batch tree) fuel search_start = SearchDone tree) /\
  (forall init x, tree = init ++ [x] ->
   Forall (fun it => sh_offset it < u64_max) init -> sh_offset x = u64_max ->
   search_loop (tree_search_batch tree) fuel search_start = SearchOverflow tree).
Proof.
  intros tree fuel Hs Hlen.
  assert (Hst : filter (fun it => key_leb search_start (key_of it)) tree = tree)
    by (apply filter_all; intros x _; apply key_leb_start).
  unfold tree_search_batch. split.
  - intros Hoff.
    pose proof (search_loop_done 4096 tree ltac:(lia) Hs fuel search_start) as H.
    rewrite Hst in H. exact (H Hlen Hoff).
  - intros init x E Hoff Hx.
    pose proof (search_loop_overflow 4096 tree ltac:(lia) Hs fuel search_start init x) as H.
    rewrite Hst, <- E in H. exact (H eq_refl Hlen Hoff Hx).
Qed.

Lemma search_loop_visits_tree_witness :
  search_loop (tree_search_batch
                 [mkItem 256 1 0 7 7 20 33188; mkItem 256 12 256 7 0 0 0;
                  mkItem 257 1 0 8 8 30 33188]) 4 search_start
  = SearchDone [mkItem 256 1 0 7 7 20 33188; mkItem 256 12 256 7 0 0 0;
                mkItem 257 1 0 8 8 30 33188].
Proof.
  apply (search_loop_visits_tree _ 4); [vm_compute; reflexivity|simpl; lia|].
  repeat constructor; vm_compute; reflexivity.
Defined.

End SearchLoopFacts.

(** ** The Deduper across cohorts: the descriptor limit and the clones *)
Module DeduperExtras.
Import Store Deduper DeduperTrace Fixtures.
Local Open Scope N_scope.

Lemma step_ok_refl : forall P s, step_ok P s s.
Proof.
  intros P s. split; [reflexivity|]. exists []. split; [symmetry; apply app_nil_r|constructor].
Qed.

Lemma step_ok_trans : forall P s1 s2 s3, step_ok P s1 s2 -> step_ok P s2 s3 -> step_ok P s1 s3.
Proof.
  intros P s1 s2 s3 [H1 [t1 [E1 F1]]] [H2 [t2 [E2 F2]]]. split; [congruence|].
  exists (t1 ++ t2). split; [rewrite E2, E1, app_assoc; reflexivity|].
  apply Forall_app. split; assumption.
Qed.

Lemma pres_ret : forall A P (a : A), pres P (ret a).
Proof. intros A P a s b s' H. unfold ret in H. injection H as _ <-. apply step_ok_refl. Qed.

Lemma pres_throw : forall A P e, pres P (@throw A e).
Proof. intros A P e s b s' H. discriminate H. Qed.

Lemma pres_bind : forall A B P (m : M A) (k : A -> M B),
  pres P m -> (forall a, pres P (k a)) -> pres P (bind m k).
Proof.
  intros A B P m k Hm Hk s b s' H. unfold bind in H.
  destruct (m s) as [e|[a s1]] eqn:E; [discriminate|].
  exact (step_ok_trans _ _ _ _ (Hm _ _ _ E) (Hk a _ _ _ H)).
Qed.

Lemma pres_emit : forall P a, P a -> pres P (emit a).
Proof.
  intros P a Ha s u s' H. unfold emit, modify in H. injection H as _ <-.
  split; [reflexivity|]. exists [a]. split; [reflexivity|constructor; [exact Ha|constructor]].
Qed.

Lemma pres_modify : forall P f,
  (forall s, ds_soft (f s) = ds_soft s /\ ds_trace (f s) = ds_trace s) -> pres P (modify f).
Proof.
  intros P f Hf s u s' H. unfold modify in H. injection H as _ <-.
  destruct (Hf s) as [H1 H2]. split; [exact H1|].
  exists []. split; [rewrite H2, app_nil_r; reflexivity|constructor].
Qed.

Lemma pres_skip : forall P i, pres P (skip i).
Proof. intros P i. apply pres_modify. intros s. split; reflexivity. Qed.

Lemma pres_delete : forall P i, pres P (delete i).
Proof. intros P i. apply pres_modify. intros s. split; reflexivity. Qed.

Lemma pres_add_event : forall P ev, pres P (add_event ev).
Proof. intros P ev. apply pres_modify. intros s. split; reflexivity. Qed.

Lemma pres_iter : forall A P (f : A -> M unit) l, (forall x, pres P (f x)) -> pres P (iter f l).
Proof.
  intros A P f l Hf. induction l as [|x xs IH]; simpl; [apply pres_ret|].
  apply pres_bind; [apply Hf|intros _; exact IH].
Qed.

Lemma pres_iter_in : forall A P (f : A -> M unit) l,
  (forall x, In x l -> pres P (f x)) -> pres P (iter f l).
Proof.
  intros A P f l Hf. induction l as [|x xs IH]; simpl; [apply pres_ret|].
  apply pres_bind; [apply Hf; left; reflexivity|intros _; apply IH].
  intros y Hy. apply Hf. right. exact Hy.
Qed.

Lemma pres_weaken : forall A (P Q : Action -> Prop) (m : M A),
  (forall a, P a -> Q a) -> pres P m -> pres Q m.
Proof.
  intros A P Q m HPQ Hm s a s' E. destruct (Hm _ _ _ E) as [H1 [tr [E1 F]]].
  split; [exact H1|]. exists tr. split; [exact E1|]. exact (Forall_impl _ HPQ F).
Qed.

Ltac pres_tac :=
  repeat first
    [ apply pres_bind; [|intros ?; cbv beta]
    | apply pres_ret | apply pres_throw | apply pres_skip | apply pres_delete
    | apply pres_add_event
    | apply pres_emit; solve [auto]
    | match goal with
      | |- pres _ (match ?x with _ => _ end) => destruct x
      | |- pres _ (if ?b then _ else _) => destruct b
      end ].

Section Pres.
Variable K : Kernel.
Variable P : Action -> Prop.
Hypothesis HL : forall k, P (ALookup k).
Hypothesis HO : forall k, P (AOpenRW k).

Lemma pres_open_one : forall i, pres P (open_one K i).
Proof. intros i. unfold open_one. pres_tac. Qed.

Lemma pres_open_all : forall l, pres P (open_all K l).
Proof.
  induction l as [|i is IH]; simpl; [apply pres_ret|].
  apply pres_bind; [apply pres_open_one|intros o].
  apply pres_bind; [exact IH|intros files]. apply pres_ret.
Qed.

Lemma pres_hash_one : forall wu sz b f, pres P (hash_one K wu sz b f).
Proof. intros wu sz b f. unfold hash_one. cbv zeta. pres_tac. Qed.

Lemma pres_hash_all : forall wu sz files b, pres P (hash_all K wu sz b files).
Proof.
  intros wu sz files. induction files as [|f fs IH]; intros b; simpl; [apply pres_ret|].
  apply pres_bind; [apply pres_hash_one|intros b'; apply IH].
Qed.

Lemma pres_clone_dsts : forall sfd dfiles,
  (forall d, In d dfiles -> cmp_files K sfd (of_fd d) = true -> P (AClone (of_fd d) sfd)) ->
  pres P (clone_dsts K sfd dfiles).
Proof.
  intros sfd dfiles. induction dfiles as [|d ds IH]; intros Hc; simpl; [apply pres_ret|].
  destruct (cmp_files K sfd (of_fd d)) eqn:E; simpl negb; cbv iota; [|apply pres_throw].
  apply pres_bind; [apply pres_emit; apply Hc; [left; reflexivity|exact E]|intros _].
  cbv zeta. apply pres_bind; [|intros rest; apply pres_ret].
  apply IH. intros d' Hd'. apply Hc. right. exact Hd'.
Qed.

Lemma pres_dedup_bucket : forall fs_id sz fileset,
  (forall sf dfs d, fileset = sf :: dfs -> In d dfs ->
     cmp_files K (of_fd sf) (of_fd d) = true -> P (AClone (of_fd d) (of_fd sf))) ->
  pres P (dedup_bucket K fs_id sz fileset).
Proof.
  intros fs_id sz [|sf [|d0 ds]] Hc; unfold dedup_bucket; [apply pres_ret|apply pres_ret|].
  apply pres_bind.
  - apply pres_clone_dsts. intros d Hd Hcmp. exact (Hc sf (d0 :: ds) d eq_refl Hd Hcmp).
  - intros [|x xs]; [apply pres_ret|apply pres_add_event].
Qed.

End Pres.

Lemma Forall_no_rlimit : forall tr,
  Forall (fun a => rlimit_calls [a] = []) tr -> rlimit_calls tr = [].
Proof.
  induction tr as [|a t IH]; intros H; [reflexivity|].
  inversion H as [|? ? Ha Ht]; subst. unfold rlimit_calls in *. simpl in *.
  rewrite app_nil_r in Ha. rewrite Ha, (IH Ht). reflexivity.
Qed.

Lemma rlimit_calls_app : forall t1 t2, rlimit_calls (t1 ++ t2) = rlimit_calls t1 ++ rlimit_calls t2.
Proof. intros t1 t2. unfold rlimit_calls. apply flat_map_app. Qed.

Lemma pres_process_cohort_rlimit : forall K fs_id sz inodes,
  pres (fun a => rlimit_calls [a] = []) (process_cohort K fs_id sz inodes).
Proof.
  intros K fs_id sz inodes. unfold process_cohort.
  apply pres_bind; [apply pres_open_all; reflexivity|intros files]. cbv zeta.
  apply pres_bind; [apply pres_hash_all|intros b].
  apply pres_iter. intros fileset. apply pres_dedup_bucket. intros. reflexivity.
Qed.

(** One cohort: at most one [setrlimit], raising the soft limit within the
    hard one. *)
Lemma dedup_comm3_rlimit : forall K fs_id res hard sz inodes s s',
  dedup_comm3 K fs_id res hard sz inodes s = inr (tt, s') ->
  exists tr, ds_trace s' = ds_trace s ++ tr /\
   ((rlimit_calls tr = [] /\ ds_soft s' = ds_soft s) \/
    (exists req, rlimit_calls tr = [(req, hard)] /\ ds_soft s < req /\ req <= hard /\
                 ds_soft s' = req)).
Proof.
  intros K fs_id res hard sz inodes s s' H. unfold dedup_comm3 in H. cbv zeta in H.
  cbv [bind get_soft] in H. cbv beta in H.
  set (req := 2 * N.of_nat (length inodes) + res) in *.
  destruct (N.ltb_spec (ds_soft s) req) as [Hlt|Hge].
  - destruct (N.leb_spec req hard) as [Hle|Hgt].
    + cbv [emit set_soft modify] in H. cbn [ds_table ds_skipped ds_soft ds_trace ds_events] in H.
      destruct (pres_process_cohort_rlimit K fs_id sz inodes _ _ _ H) as [Hs [tr [E F]]].
      cbn [ds_soft ds_trace] in Hs, E.
      exists ([ASetrlimit req hard] ++ tr). split; [rewrite E, app_assoc; reflexivity|].
      right. exists req. split; [|split; [exact Hlt|split; [exact Hle|exact Hs]]].
      rewrite rlimit_calls_app, (Forall_no_rlimit _ F). reflexivity.
    + rewrite DeduperClaims.skip_pending_state in H. injection H as <-.
      exists []. split; [symmetry; apply app_nil_r|]. left. split; reflexivity.
  - destruct (pres_process_cohort_rlimit K fs_id sz inodes _ _ _ H) as [Hs [tr [E F]]].
    exists tr. split; [exact E|]. left. split; [exact (Forall_no_rlimit _ F)|exact Hs].
Qed.

(** Over the cohorts of a run, the [setrlimit] calls raise the soft
    descriptor limit strictly, always to a value within the hard limit,
    with the hard limit passed back unchanged; the soft limit the loop
    ends with is the last value set (or the initial one). *)
Theorem dedup_rlimit_monotone : forall K fs_id res hard cohorts s s',
  iter (fun c => dedup_comm3 K fs_id res hard (fst c) (snd c)) cohorts s = inr (tt, s') ->
  exists tr, ds_trace s' = ds_trace s ++ tr /\
    strictly_increasing (ds_soft s :: map fst (rlimit_calls tr)) /\
    Forall (fun c => snd c = hard /\ fst c <= hard) (rlimit_calls tr) /\
    ds_soft s' = last (ds_soft s :: map fst (rlimit_calls tr)) 0.
Proof.
  intros K fs_id res hard cohorts. induction cohorts as [|c cs IH]; intros s s' H.
  - simpl in H. unfold ret in H. injection H as <-.
    exists []. split; [symmetry; apply app_nil_r|]. simpl. split; [exact I|split; [constructor|reflexivity]].
  - simpl in H. unfold bind in H.
    destruct (dedup_comm3 K fs_id res hard (fst c) (snd c) s) as [e|[[] s1]] eqn:E1;
      [discriminate|].
    destruct (IH s1 s' H) as [tr2 [E2 [Hinc [Hall Hlast]]]].
    destruct (dedup_comm3_rlimit _ _ _ _ _ _ _ _ E1) as [tr1 [E1' [[Hn Hs]|[req [Hr [Hlt [Hle Hs]]]]]]].
    + exists (tr1 ++ tr2). split; [rewrite E2, E1', app_assoc; reflexivity|].
      rewrite rlimit_calls_app, Hn. simpl. rewrite <- Hs. split; [exact Hinc|split; [exact Hall|exact Hlast]].
    + exists (tr1 ++ tr2). split; [rewrite E2, E1', app_assoc; reflexivity|].
      rewrite rlimit_calls_app, Hr. rewrite Hs in Hinc, Hlast. simpl.
      split; [split; [exact Hlt|exact Hinc]|].
      split; [constructor; [split; [reflexivity|exact Hle]|exact Hall]|].
      rewrite Hlast. destruct (map fst (rlimit_calls tr2)); reflexivity.
Qed.

Lemma open_one_inode : forall K i s f s',
  open_one K i s = inr (Some f, s') -> of_inode f = i.
Proof.
  intros K i s f s' H. unfold open_one in H. cbv [bind emit modify ret throw skip delete] in H.
  destruct (lookup_ino_path_one K i) as [p|e].
  - destruct (fopenat_rw K i p) as [fd|e]; [|destruct e; discriminate].
    injection H as <- _. reflexivity.
  - destruct e; discriminate.
Qed.

Lemma open_all_inodes : forall K l s files s',
  open_all K l s = inr (files, s') -> forall f, In f files -> In (of_inode f) l.
Proof.
  intros K l. induction l as [|i is IH]; intros s files s' H f Hf; simpl in H.
  - injection H as <- _. destruct Hf.
  - unfold bind in H. destruct (open_one K i s) as [e|[o s1]] eqn:E1; [discriminate|].
    destruct (open_all K is s1) as [e|[fs s2]] eqn:E2; [discriminate|].
    unfold ret in H. injection H as <- _.
    destruct o as [g|].
    + destruct Hf as [<-|Hf]; [left; symmetry; exact (open_one_inode _ _ _ _ _ E1)|].
      right. exact (IH _ _ _ E2 f Hf).
    + right. exact (IH _ _ _ E2 f Hf).
Qed.

Lemma add_to_bucket_in : forall d f b d' fs' g,
  In (d', fs') (add_to_bucket d f b) -> In g fs' ->
  (g = f /\ d' = d) \/ exists fs0, In (d', fs0) b /\ In g fs0.
Proof.
  intros d f b. induction b as [|[d0 fs0] bs IH]; intros d' fs' g Hin Hg; simpl in Hin.
  - destruct Hin as [E|[]]. injection E as <- <-. destruct Hg as [<-|[]]. left. split; reflexivity.
  - destruct (N.eqb_spec d d0) as [<-|Hne].
    + destruct Hin as [E|Hin].
      * injection E as <- <-. apply in_app_or in Hg. destruct Hg as [Hg|[<-|[]]].
        -- right. exists fs0. split; [left; reflexivity|exact Hg].
        -- left. split; reflexivity.
      * right. exists fs'. split; [right; exact Hin|exact Hg].
    + destruct Hin as [E|Hin].
      * injection E as <- <-. right. exists fs0. split; [left; reflexivity|exact Hg].
      * destruct (IH _ _ _ Hin Hg) as [Hl|[fs1 [H1 H2]]]; [left; exact Hl|].
        right. exists fs1. split; [right; exact H1|exact H2].
Qed.

Section Buckets.
Variable K : Kernel.
Variable files : list OFile.
Variable comm3_size : N.

(** Every descriptor in a bucket came from [files], passed the checks and
    hashed to the bucket's digest. *)
Definition buckets_ok (b : list (N * list OFile)) : Prop :=
  forall d fs, In (d, fs) b -> forall f, In f fs ->
    In f files /\
    passes_checks K (fds_in_write_use K (map of_fd files)) comm3_size f = true /\
    sha1_digest K (of_fd f) = d.

Lemma hash_one_buckets : forall b f s b' s',
  buckets_ok b -> In f files ->
  hash_one K (fds_in_write_use K (map of_fd files)) comm3_size b f s = inr (b', s') ->
  buckets_ok b'.
Proof.
  intros b f s b' s' Hb Hf H. unfold hash_one in H. cbv zeta in H.
  destruct (existsb (N.eqb (of_fd f)) (fds_in_write_use K (map of_fd files))) eqn:E1;
    [cbv [bind skip modify ret] in H; injection H as <- _; exact Hb|].
  destruct (fstat_ino K (of_fd f) =? ino (of_inode f))%N eqn:E2;
    [|cbv [bind skip modify ret negb] in H; injection H as <- _; exact Hb].
  destruct (fstat_dev K (of_fd f) =? vol_st_dev K (vol_id (of_inode f)))%N eqn:E3;
    [|cbv [bind skip modify ret negb] in H; injection H as <- _; exact Hb].
  destruct (tell K (of_fd f) =? comm3_size)%N eqn:E4.
  - cbv [ret negb] in H. injection H as <- _.
    intros d fs Hin g Hg. destruct (add_to_bucket_in _ _ _ _ _ _ Hin Hg) as [[-> ->]|[fs0 [H1 H2]]].
    + split; [exact Hf|split; [|reflexivity]].
      unfold passes_checks. rewrite E1, E2, E3, E4. reflexivity.
    + exact (Hb _ _ H1 _ H2).
  - cbv [bind skip delete modify ret negb] in H.
    destruct (tell K (of_fd f) <? vol_size_cutoff K (vol_id (of_inode f)))%N;
      injection H as <- _; exact Hb.
Qed.

Lemma hash_all_buckets : forall fl b s b' s',
  buckets_ok b -> (forall f, In f fl -> In f files) ->
  hash_all K (fds_in_write_use K (map of_fd files)) comm3_size b fl s = inr (b', s') ->
  buckets_ok b'.
Proof.
  induction fl as [|f fs IH]; intros b s b' s' Hb Hfl H; simpl in H.
  - injection H as <- _. exact Hb.
  - unfold bind in H.
    destruct (hash_one K _ comm3_size b f s) as [e|[b1 s1]] eqn:E; [discriminate|].
    apply (IH b1 s1 b' s'); [|intros g Hg; apply Hfl; right; exact Hg|exact H].
    exact (hash_one_buckets _ _ _ _ _ Hb (Hfl f (or_introl eq_refl)) E).
Qed.

End Buckets.

Lemma process_cohort_clones : forall K fs_id sz inodes s s',
  process_cohort K fs_id sz inodes s = inr (tt, s') ->
  exists files, (forall f, In f files -> In (of_inode f) inodes) /\
    step_ok (clones_satisfy (clone_checked K files sz)) s s'.
Proof.
  intros K fs_id sz inodes s s' H. unfold process_cohort in H. cbv zeta in H.
  unfold bind at 1 in H.
  destruct (open_all K inodes s) as [e|[files s1]] eqn:E1; [discriminate|].
  exists files. split; [exact (open_all_inodes _ _ _ _ _ E1)|].
  apply (step_ok_trans _ s s1 s').
  { apply (pres_open_all K _ (fun _ => I) (fun _ => I) inodes s files s1 E1). }
  unfold bind at 1 in H.
  destruct (hash_all K (fds_in_write_use K (map of_fd files)) sz [] files s1)
    as [e|[b s2]] eqn:E2; [discriminate|].
  apply (step_ok_trans _ s1 s2 s').
  { exact (pres_hash_all K _ _ _ _ _ s1 b s2 E2). }
  assert (Hb : buckets_ok K files sz b).
  { apply (hash_all_buckets K files sz files [] s1 b s2); [|intros f Hf; exact Hf|exact E2].
    intros d fs [] . }
  refine (pres_iter_in _ _ _ _ _ s2 tt s' H).
  intros fileset Hin. apply in_map_iff in Hin. destruct Hin as [[dg fileset'] [Esnd Hin]].
  cbn [snd] in Esnd. subst fileset'.
  apply pres_dedup_bucket. intros sf dfs d -> Hd Hcmp.
  destruct (Hb _ _ Hin d (or_intror Hd)) as [Hdf [Hdc Hdh]].
  destruct (Hb _ _ Hin sf (or_introl eq_refl)) as [Hsf [Hsc Hsh]].
  exists d, sf. repeat split; try assumption; congruence.
Qed.

(** For one Commonality3 cohort, every clone [dst <- src] issued is
    between two descriptors the open loop produced for members of the
    cohort; both passed the write-use, [fstat] and size checks, their
    SHA-1 digests agree and [cmp_files] found their contents equal. *)
Theorem dedup_comm3_clones_checked : forall K fs_id res hard sz inodes s s',
  dedup_comm3 K fs_id res hard sz inodes s = inr (tt, s') ->
  exists files tr, (forall f, In f files -> In (of_inode f) inodes) /\
    ds_trace s' = ds_trace s ++ tr /\
    Forall (clones_satisfy (clone_checked K files sz)) tr.
Proof.
  intros K fs_id res hard sz inodes s s' H. unfold dedup_comm3 in H. cbv zeta in H.
  cbv [bind get_soft] in H. cbv beta in H.
  set (req := 2 * N.of_nat (length inodes) + res) in *.
  destruct (ds_soft s <? req).
  - destruct (req <=? hard).
    + cbv [emit set_soft modify] in H. cbn [ds_table ds_skipped ds_soft ds_trace ds_events] in H.
      destruct (process_cohort_clones _ _ _ _ _ _ H) as [files [Hin [_ [tr [E F]]]]].
      cbn [ds_trace] in E. exists files, ([ASetrlimit req hard] ++ tr).
      split; [exact Hin|]. split; [rewrite E, app_assoc; reflexivity|].
      constructor; [exact I|exact F].
    + rewrite DeduperClaims.skip_pending_state in H. injection H as <-.
      exists [], []. split; [intros f []|]. split; [symmetry; apply app_nil_r|constructor].
  - destruct (process_cohort_clones _ _ _ _ _ _ H) as [files [Hin [_ [tr [E F]]]]].
    exists files, tr. split; [exact Hin|]. split; [exact E|exact F].
Qed.

Lemma dedup_rlimit_monotone_witness :
  exists s', iter (fun c => dedup_comm3 kernel_ok 1 8 20 (fst c) (snd c)) cohorts0 (state0 [] 10)
             = inr (tt, s') /\
  exists tr, ds_trace s' = tr /\
    strictly_increasing (10 :: map fst (rlimit_calls tr)) /\
    Forall (fun c => snd c = 20 /\ fst c <= 20) (rlimit_calls tr) /\
    ds_soft s' = last (10 :: map fst (rlimit_calls tr)) 0.
Proof.
  destruct (iter (fun c => dedup_comm3 kernel_ok 1 8 20 (fst c) (snd c)) cohorts0 (state0 [] 10))
    as [e|[[] s']] eqn:E; [vm_compute in E; discriminate|].
  exists s'. split; [reflexivity|].
  destruct (dedup_rlimit_monotone kernel_ok 1 8 20 cohorts0 (state0 [] 10) s' E) as [tr H].
  exists tr. exact H.
Defined.

Lemma dedup_comm3_clones_checked_witness :
  exists s', dedup_comm3 kernel_ok 1 8 20 20 (snd (nth 1 cohorts0 (0, []))) (state0 [] 20)
             = inr (tt, s') /\
  exists files tr, (forall f, In f files -> In (of_inode f) (snd (nth 1 cohorts0 (0, [])))) /\
    ds_trace s' = tr /\ Forall (clones_satisfy (clone_checked kernel_ok files 20)) tr.
Proof.
  destruct (dedup_comm3 kernel_ok 1 8 20 20 (snd (nth 1 cohorts0 (0, []))) (state0 [] 20))
    as [e|[[] s']] eqn:E; [vm_compute in E; discriminate|].
  exists s'. split; [reflexivity|].
  exact (dedup_comm3_clones_checked kernel_ok 1 8 20 20 _ (state0 [] 20) s' E).
Defined.

End DeduperExtras.

(** ** The rows [windowed_query] yields *)
Module WindowFacts.
Import Store Grouper GrouperFacts.

Definition desc (l : list N) : Prop := StronglySorted (fun a b => (b <= a)%N) l.
Definition sdesc (l : list N) : Prop := StronglySorted (fun a b => (b < a)%N) l.

Lemma insert_desc_perm : forall s l, Permutation (insert_desc s l) (s :: l).
Proof.
  intros s l. induction l as [|x xs IH]; simpl; [reflexivity|].
  destruct (x <=? s)%N; [reflexivity|].
  rewrite IH. apply perm_swap.
Qed.

Lemma sort_desc_perm : forall l, Permutation (sort_desc l) l.
Proof.
  induction l as [|x xs IH]; simpl; [reflexivity|].
  rewrite insert_desc_perm, IH. reflexivity.
Qed.

Lemma insert_desc_sorted : forall s l, desc l -> desc (insert_desc s l).
Proof.
  intros s l. induction l as [|x xs IH]; intros H; simpl.
  - repeat constructor.
  - inversion H as [|? ? Hs Hf]; subst.
    destruct (N.leb_spec x s) as [Hle|Hgt].
    + constructor; [exact H|]. constructor; [exact Hle|].
      eapply Forall_impl; [|exact Hf]. intros a Ha. cbv beta in *. lia.
    + constructor; [exact (IH Hs)|]. apply Forall_forall. intros a Ha.
      apply In_insert_desc in Ha. destruct Ha as [->|Ha]; [lia|].
      exact (proj1 (Forall_forall _ _) Hf a Ha).
Qed.

Lemma sort_desc_sorted : forall l, desc (sort_desc l).
Proof.
  induction l as [|x xs IH]; simpl; [constructor|]. apply insert_desc_sorted, IH.
Qed.

Lemma desc_nodup_sdesc : forall l, desc l -> NoDup l -> sdesc l.
Proof.
  induction l as [|x xs IH]; intros H Hn; [constructor|].
  inversion H as [|? ? Hs Hf]; subst. inversion Hn as [|? ? Hx Hn']; subst.
  constructor; [exact (IH Hs Hn')|]. apply Forall_forall. intros a Ha.
  assert (a <> x) by (intros ->; contradiction).
  assert (a <= x)%N by exact (proj1 (Forall_forall _ _) Hf a Ha). lia.
Qed.

Lemma ss_app_l : forall (R : N -> N -> Prop) l1 l2,
  StronglySorted R (l1 ++ l2) -> StronglySorted R l1.
Proof.
  intros R l1 l2. induction l1 as [|x xs IH]; intros H; [constructor|].
  inversion H as [|? ? Hs Hf]; subst. constructor; [exact (IH Hs)|].
  apply Forall_forall. intros a Ha. apply (proj1 (Forall_forall _ _) Hf). apply in_or_app. now left.
Qed.

Lemma ss_app_cross : forall (R : N -> N -> Prop) l1 l2,
  StronglySorted R (l1 ++ l2) -> forall a b, In a l1 -> In b l2 -> R a b.
Proof.
  intros R l1 l2. induction l1 as [|x xs IH]; intros H a b Ha Hb; [destruct Ha|].
  inversion H as [|? ? Hs Hf]; subst. destruct Ha as [<-|Ha].
  - apply (proj1 (Forall_forall _ _) Hf). apply in_or_app. now right.
  - exact (IH Hs a b Ha Hb).
Qed.

Lemma ss_app : forall (R : N -> N -> Prop) l1 l2,
  StronglySorted R l1 -> StronglySorted R l2 ->
  (forall a b, In a l1 -> In b l2 -> R a b) -> StronglySorted R (l1 ++ l2).
Proof.
  intros R l1 l2. induction l1 as [|x xs IH]; intros H1 H2 Hc; [exact H2|].
  inversion H1 as [|? ? Hs Hf]; subst. simpl. constructor.
  - apply IH; [exact Hs|exact H2|]. intros a b Ha Hb. apply Hc; [now right|exact Hb].
  - apply Forall_forall. intros a Ha. apply in_app_or in Ha. destruct Ha as [Ha|Ha].
    + exact (proj1 (Forall_forall _ _) Hf a Ha).
    + apply Hc; [now left|exact Ha].
Qed.

Lemma desc_last_min : forall l d, desc l -> forall a, In a l -> (last l d <= a)%N.
Proof.
  induction l as [|x xs IH]; intros d H a Ha; [destruct Ha|].
  inversion H as [|? ? Hs Hf]; subst.
  destruct xs as [|y ys].
  - destruct Ha as [<-|[]]. simpl. lia.
  - change (last (x :: y :: ys) d) with (last (y :: ys) d).
    destruct Ha as [<-|Ha].
    + assert (Hy : (y <= x)%N) by (inversion Hf; assumption).
      assert (last (y :: ys) d <= y)%N by (apply IH; [exact Hs|now left]). lia.
    + exact (IH d Hs a Ha).
Qed.

Lemma nodup_app_l : forall (l1 l2 : list N), NoDup (l1 ++ l2) -> NoDup l1.
Proof.
  induction l1 as [|x xs IH]; intros l2 H; [constructor|].
  inversion H as [|? ? Hx Hn]; subst. constructor; [|exact (IH _ Hn)].
  intros Hin. apply Hx. apply in_or_app. now left.
Qed.

Lemma yields_app : forall t1 t2, yields (t1 ++ t2) = yields t1 ++ yields t2.
Proof. intros. unfold yields. apply flat_map_app. Qed.

Lemma yields_map : forall li, yields (map Yield li) = li.
Proof. induction li as [|x xs IH]; simpl; [reflexivity|]. unfold yields in *. simpl. now rewrite IH. Qed.

Lemma windowed_query_wtrace : forall fuel rows per ws t,
  windowed_query fuel rows per ws = Some t -> WTrace rows per ws t.
Proof.
  induction fuel as [|f IH]; intros rows per ws t H; [discriminate|].
  cbn [windowed_query] in H. destruct (page rows per ws) as [|x xs] eqn:P.
  - injection H as <-. now apply WT_empty.
  - cbv beta iota zeta in H.
    destruct (windowed_query f rows per _) as [rest|] eqn:E; [|discriminate].
    injection H as <-. exact (WT_page rows per ws (x :: xs) rest P ltac:(discriminate) (IH _ _ _ _ E)).
Qed.

Lemma wtrace_yields : forall rows per ws t, (0 < per)%nat -> NoDup rows ->
  WTrace rows per ws t ->
  sdesc (yields t) /\ forall s, In s (yields t) <-> In s rows /\ (Z.of_N s <= ws)%Z.
Proof.
  intros rows per ws t Hper Hnd W.
  induction W as [ws P|ws li t P Hne W IH].
  - unfold page in P.
    set (L := sort_desc (filter (fun s => (Z.of_N s <=? ws)%Z) rows)) in P.
    assert (HL : L = []) by (destruct per as [|p]; [lia|]; destruct L; [reflexivity|discriminate]).
    split; [constructor|]. intros s. simpl. split; [intros []|intros [Hin Hle]].
    assert (In s L) by (apply In_sort_desc, filter_In; split; [exact Hin|now apply Z.leb_le]).
    rewrite HL in *. contradiction.
  - destruct IH as [IHs IHm].
    rewrite yields_app, yields_map. simpl. fold (yields t).
    assert (Hb := page_last_bound rows per ws li P Hne).
    set (we := Z.of_N (last li 0%N)) in *.
    unfold page in P.
    set (L := sort_desc (filter (fun s => (Z.of_N s <=? ws)%Z) rows)) in P.
    assert (HLd : desc L) by apply sort_desc_sorted.
    assert (HLs : desc (li ++ skipn per L)) by (rewrite <- P, firstn_skipn; exact HLd).
    assert (Hlid : desc li) by exact (ss_app_l _ _ _ HLs).
    assert (Hnl : NoDup L).
    { apply (Permutation_NoDup (Permutation_sym (sort_desc_perm _))). apply NoDup_filter, Hnd. }
    assert (Hnli : NoDup li) by (rewrite <- P; rewrite <- (firstn_skipn per L) in Hnl;
                                 exact (nodup_app_l _ _ Hnl)).
    assert (HinL : forall s, In s L <-> In s rows /\ (Z.of_N s <= ws)%Z).
    { intros s. unfold L. rewrite In_sort_desc, filter_In, Z.leb_le. reflexivity. }
    assert (Hmin : forall a, In a li -> (Z.of_N (last li 0%N) <= Z.of_N a)%Z).
    { intros a Ha. apply N2Z.inj_le. exact (desc_last_min li 0%N Hlid a Ha). }
    split.
    + apply ss_app; [exact (desc_nodup_sdesc li Hlid Hnli)|exact IHs|].
      intros a b Ha Hb'. apply IHm in Hb'. destruct Hb' as [_ Hb'].
      specialize (Hmin a Ha). fold we in Hmin. lia.
    + intros s. rewrite in_app_iff, IHm. split.
      * intros [Hs|[Hs Hle]].
        -- apply HinL. rewrite <- P in Hs. exact (In_firstn_l _ _ _ Hs).
        -- split; [exact Hs|lia].
      * intros [Hs Hle].
        destruct (Z.leb_spec (Z.of_N s) (we - 1)) as [Hlo|Hhi]; [right; split; assumption|].
        left. assert (HsL : In s L) by (apply HinL; split; assumption).
        rewrite <- (firstn_skipn per L), P in HsL. apply in_app_or in HsL.
        destruct HsL as [HsL|HsL]; [exact HsL|].
        assert (Hl : (s <= last li 0%N)%N).
        { apply (ss_app_cross _ _ _ HLs); [apply In_last; exact Hne|exact HsL]. }
        assert (Hs' : s = last li 0%N) by lia.
        rewrite Hs'. apply In_last. exact Hne.
Qed.

(** With a positive page size and distinct rows (as Commonality1 rows,
    one per size, are), the generator yields every row of size at most the
    initial window start exactly once, in strictly decreasing order, and
    nothing else. *)
Theorem windowed_query_yields : forall fuel rows per W t,
  (0 < per)%nat -> NoDup rows ->
  windowed_query fuel rows per W = Some t ->
  sdesc (yields t) /\ forall s, In s (yields t) <-> In s rows /\ (Z.of_N s <= W)%Z.
Proof.
  intros fuel rows per W t Hper Hnd H.
  exact (wtrace_yields rows per W t Hper Hnd (windowed_query_wtrace _ _ _ _ _ H)).
Qed.

Lemma windowed_query_yields_witness :
  exists t, windowed_query 20 [5; 9; 3; 7]%N 2 8 = Some t /\
    sdesc (yields t) /\ forall s, In s (yields t) <-> In s [5; 9; 3; 7]%N /\ (Z.of_N s <= 8)%Z.
Proof.
  destruct (windowed_query 20 [5; 9; 3; 7]%N 2 8) as [t|] eqn:E; [|vm_compute in E; discriminate].
  exists t. split; [reflexivity|].
  apply (windowed_query_yields 20 [5; 9; 3; 7]%N 2 8 t); [lia| |exact E].
  repeat constructor; simpl; intuition discriminate.
Defined.

End WindowFacts.

(** ** [WholeFS]: descriptors and root tree *)
Module WholeFSFacts.
Import WholeFS WholeFSTrace.
Import Ascii String.

Lemma root_reads_refl : forall ok s s', w_root_info s' = w_root_info s -> root_reads ok s s' 0.
Proof.
  intros ok s s' E. unfold root_reads. rewrite E. destruct (w_root_info s); [split; reflexivity|].
  left. split; reflexivity.
Qed.

Lemma root_reads_weaken : forall ok s s' n, root_reads true s s' n -> root_reads ok s s' n.
Proof.
  intros ok s s' n H. unfold root_reads in *. destruct (w_root_info s); [exact H|].
  destruct H as [H|[H1 H2]]; [left; exact H|right; split; [exact H1|intros _; apply H2; reflexivity]].
Qed.

Lemma wstep_refl : forall ok s, wstep ok s s.
Proof.
  intros ok s. exists []. split; [symmetry; apply app_nil_r|]. apply root_reads_refl. reflexivity.
Qed.

Lemma reads_app : forall b1 b2, reads (b1 ++ b2) = (reads b1 + reads b2)%nat.
Proof. intros. unfold reads. rewrite filter_app, length_app. reflexivity. Qed.

Lemma wstep_trans : forall ok s1 s2 s3, wstep true s1 s2 -> wstep ok s2 s3 -> wstep ok s1 s3.
Proof.
  intros ok s1 s2 s3 [b1 [E1 R1]] [b2 [E2 R2]]. exists (b1 ++ b2). split.
  - rewrite E2, E1. unfold blocks. rewrite flat_map_app, app_assoc. reflexivity.
  - rewrite reads_app. unfold root_reads in *. destruct (w_root_info s1) as [x|].
    + destruct R1 as [R1 Z1]. rewrite R1 in R2. destruct R2 as [R2 Z2]. split; [exact R2|lia].
    + destruct R1 as [[Z1 R1]|[Z1 R1]].
      * rewrite R1 in R2. rewrite Z1. exact R2.
      * destruct (w_root_info s2) as [y|] eqn:E; [|exfalso; exact (R1 eq_refl eq_refl)].
        destruct R2 as [R2 Z2]. right. split; [lia|]. intros _. rewrite R2. discriminate.
Qed.

Lemma wsafe_ret : forall A (a : A), wsafe (wret a).
Proof. intros A a s. apply wstep_refl. Qed.

Lemma wsafe_throw : forall A e, wsafe (@wthrow A e).
Proof. intros A e s. apply wstep_refl. Qed.

Lemma wsafe_bind : forall A B (m : WM A) (k : A -> WM B),
  wsafe m -> (forall a, wsafe (k a)) -> wsafe (wbind m k).
Proof.
  intros A B m k Hm Hk s. unfold wbind. specialize (Hm s).
  destruct (m s) as [[e s1]|[a s1]]; [exact Hm|].
  exact (wstep_trans _ _ _ _ Hm (Hk a s1)).
Qed.

(** Calls that touch neither the trace nor [root_info]. *)
Lemma wsafe_frame : forall A (m : WM A),
  (forall s, w_trace (final_state (m s)) = w_trace s /\
             w_root_info (final_state (m s)) = w_root_info s) -> wsafe m.
Proof.
  intros A m H s. destruct (H s) as [H1 H2]. exists []. split.
  - rewrite H1. symmetry. apply app_nil_r.
  - apply root_reads_refl. exact H2.
Qed.

Lemma wsafe_get_root_info : wsafe get_root_info.
Proof. apply wsafe_frame. intros s. split; reflexivity. Qed.

Lemma wsafe_get_devinfo : wsafe get_devinfo.
Proof. apply wsafe_frame. intros s. split; reflexivity. Qed.

Lemma wsafe_set_devinfo : forall d, wsafe (set_devinfo d).
Proof. intros d. apply wsafe_frame. intros s. split; reflexivity. Qed.

Lemma wsafe_mpoints_by_dev : forall K, wsafe (mpoints_by_dev K).
Proof.
  intros K. apply wsafe_frame. intros s. unfold mpoints_by_dev.
  destruct (w_mbd s); [split; reflexivity|].
  destruct (parse_mountinfo K (mountinfo K) []); split; reflexivity.
Qed.

Lemma wsafe_devinfo_loop : forall lines, wsafe (devinfo_loop lines).
Proof.
  induction lines as [|line ls IH]; simpl; [apply wsafe_ret|].
  destruct (blkid_match line) as [[[dev label] uuid]|]; [|apply wsafe_throw].
  apply wsafe_bind; [apply wsafe_get_devinfo|intros d].
  destruct (lookup_s uuid d) as [di|].
  - destruct (option_string_eqb (di_label di) label); [|apply wsafe_throw].
    apply wsafe_bind; [apply wsafe_set_devinfo|intros _; exact IH].
  - apply wsafe_bind; [apply wsafe_set_devinfo|intros _; exact IH].
Qed.

Lemma wsafe_device_info : forall K, wsafe (device_info K).
Proof.
  intros K s. unfold device_info. destruct (w_devinfo s); [apply wstep_refl|].
  revert s. fold (wsafe (let! _ := set_devinfo [] in
    match blkid_output K with
    | None => wthrow CalledProcessError
    | Some lines => let! _ := devinfo_loop lines in get_devinfo
    end)).
  apply wsafe_bind; [apply wsafe_set_devinfo|intros _].
  destruct (blkid_output K); [|apply wsafe_throw].
  apply wsafe_bind; [apply wsafe_devinfo_loop|intros _; apply wsafe_get_devinfo].
Qed.

(** The [try] block emits at most the [read_root_tree] of its descriptor. *)
Lemma mount_body_effect : forall K fd s, exists rd : bool,
  w_trace (final_state (mount_body K fd s)) = w_trace s ++ (if rd then [WReadRoot fd] else []) /\
  root_reads (outcome_ok (mount_body K fd s)) s (final_state (mount_body K fd s))
             (if rd then 1 else 0)%nat.
Proof.
  intros K fd s. unfold mount_body.
  destruct (is_subvolume K fd); cbn [negb].
  2:{ exists false. split; [symmetry; apply app_nil_r|apply root_reads_refl; reflexivity]. }
  destruct (get_root_id K fd) as [rid|e].
  2:{ exists false. destruct (errno_eqb e EPERM);
      (split; [symmetry; apply app_nil_r|apply root_reads_refl; reflexivity]). }
  unfold ensure_root_info. cbv [wbind get_root_info wret].
  destruct (w_root_info s) as [x|] eqn:Er.
  - exists false. split; [symmetry; apply app_nil_r|]. apply root_reads_refl. reflexivity.
  - exists true. cbv [wemit]. destruct (read_root_tree K fd) as [t|e]; cbv [wthrow]; cbn.
    + split; [reflexivity|]. unfold root_reads. rewrite Er. right. split; [reflexivity|].
      intros _. discriminate.
    + split; [reflexivity|]. unfold root_reads. rewrite Er. right. split; [reflexivity|].
      intros H. discriminate H.
Qed.

Lemma wsafe_mount_one : forall K volpath mpoint acc, wsafe (mount_one K volpath mpoint acc).
Proof.
  intros K volpath mpoint acc s. unfold mount_one.
  destruct (open_dir K mpoint) as [fd|e]; [|apply wstep_refl].
  cbv [wbind wemit].
  set (s1 := mkWState (w_mbd s) (w_devinfo s) (w_root_info s) (w_mpoints s) (w_trace s ++ [WOpen fd])).
  destruct (mount_body_effect K fd s1) as [rd [Tb Rb]].
  unfold close_after. cbv [wemit].
  destruct (mount_body K fd s1) as [[e s2]|[o s2]]; cbn [final_state outcome_ok] in Tb, Rb |- *.
  - exists [(fd, rd)]. split.
    + cbn [w_trace]. rewrite Tb. subst s1. cbn [w_trace]. unfold blocks, fd_block. cbn.
      rewrite <- !app_assoc. destruct rd; reflexivity.
    + unfold root_reads in *. cbn [w_root_info]. subst s1. cbn [w_root_info] in Rb.
      unfold reads. destruct rd; exact Rb.
  - set (s3 := mkWState (w_mbd s2) (w_devinfo s2) (w_root_info s2) (w_mpoints s2)
                        (w_trace s2 ++ [WClose fd])).
    match goal with |- context [final_state (?m s3)] =>
      assert (Hpost : final_state (m s3) = s3) end.
    { destruct o as [rid|]; [|reflexivity]. cbv [get_root_info].
      destruct (w_root_info s3) as [t|]; [|reflexivity].
      destruct (lookup_n rid t); [|reflexivity].
      destruct (String.eqb _ volpath); reflexivity. }
    exists [(fd, rd)]. split.
    + rewrite Hpost. subst s3. cbn [w_trace]. rewrite Tb. subst s1. cbn [w_trace].
      unfold blocks, fd_block. cbn. rewrite <- !app_assoc. destruct rd; reflexivity.
    + rewrite Hpost. apply root_reads_weaken. unfold root_reads in *. subst s3 s1.
      cbn [w_root_info] in *. unfold reads. destruct rd; exact Rb.
Qed.

Lemma wsafe_mount_loop : forall K l acc, wsafe (mount_loop K l acc).
Proof.
  intros K l. induction l as [|[vp mp] l IH]; intros acc; simpl; [apply wsafe_ret|].
  apply wsafe_bind; [apply wsafe_mount_one|intros acc'; apply IH].
Qed.

Lemma wsafe_read_mount_info : forall K dev acc, wsafe (read_mount_info K dev acc).
Proof.
  intros K dev acc. unfold read_mount_info. cbv zeta.
  apply wsafe_bind; [apply wsafe_mpoints_by_dev|intros mbd].
  destruct (lookup_s (realpath K dev) mbd); [|apply wsafe_ret].
  apply wsafe_bind; [apply wsafe_mpoints_by_dev|intros mbd'].
  destruct (lookup_s (realpath K dev) mbd'); [apply wsafe_mount_loop|apply wsafe_throw].
Qed.

Lemma wsafe_dev_loop : forall K devs acc, wsafe (dev_loop K devs acc).
Proof.
  intros K devs. induction devs as [|d ds IH]; intros acc; simpl; [apply wsafe_ret|].
  apply wsafe_bind; [apply wsafe_read_mount_info|intros acc'; apply IH].
Qed.

Lemma wsafe_ensure_mount_info : forall K uuid, wsafe (ensure_mount_info K uuid).
Proof.
  intros K uuid s. unfold ensure_mount_info. destruct (w_mpoints s); [apply wstep_refl|].
  revert s. fold (wsafe (let! di := device_info K in
         match lookup_s uuid di with
         | None => wthrow KeyError
         | Some info =>
             let! acc := dev_loop K (di_devices info) [] in
             fun s' => inr (tt, mkWState (w_mbd s') (w_devinfo s') (w_root_info s')
                                         (Some acc) (w_trace s'))
         end)).
  apply wsafe_bind; [apply wsafe_device_info|intros di].
  destruct (lookup_s uuid di); [|apply wsafe_throw].
  apply wsafe_bind; [apply wsafe_dev_loop|intros acc].
  apply wsafe_frame. intros s. split; reflexivity.
Qed.

Lemma In_mp_append : forall rid mp k x acc,
  In_mp rid mp (append_n k x acc) <-> In_mp rid mp acc \/ (rid = k /\ mp = x).
Proof.
  intros rid mp k x acc. unfold In_mp. induction acc as [|[k' l] acc IH]; simpl.
  - split.
    + intros [mps [[E|[]] Hm]]. injection E as <- <-. destruct Hm as [<-|[]]. right. split; reflexivity.
    + intros [[mps [[] _]]|[-> ->]]. exists [x]. split; [left; reflexivity|left; reflexivity].
  - destruct (N.eqb_spec k k') as [<-|Hne]; simpl.
    + split.
      * intros [mps [[E|Hin] Hm]].
        -- injection E as <- <-. apply in_app_or in Hm. destruct Hm as [Hm|[<-|[]]].
           ++ left. exists l. split; [left; reflexivity|exact Hm].
           ++ right. split; reflexivity.
        -- left. exists mps. split; [right; exact Hin|exact Hm].
      * intros [[mps [[E|Hin] Hm]]|[-> ->]].
        -- injection E as <- <-. exists (l ++ [x]). split; [left; reflexivity|].
           apply in_or_app. left. exact Hm.
        -- exists mps. split; [right; exact Hin|exact Hm].
        -- exists (l ++ [x]). split; [left; reflexivity|]. apply in_or_app. right. left. reflexivity.
    + split.
      * intros [mps [[E|Hin] Hm]].
        -- injection E as <- <-. left. exists l. split; [left; reflexivity|exact Hm].
        -- assert (H : exists mps, In (rid, mps) (append_n k x acc) /\ In mp mps) by (exists mps; auto).
           apply IH in H. destruct H as [[mps' [H1 H2]]|H]; [left; exists mps'; split; [right; exact H1|exact H2]|right; exact H].
      * intros [[mps [[E|Hin] Hm]]|H].
        -- injection E as <- <-. exists l. split; [left; reflexivity|exact Hm].
        -- assert (H : exists mps, In (rid, mps) (append_n k x acc) /\ In mp mps)
             by (apply IH; left; exists mps; auto).
           destruct H as [mps' [H1 H2]]. exists mps'. split; [right; exact H1|exact H2].
        -- assert (H' : exists mps, In (rid, mps) (append_n k x acc) /\ In mp mps) by (apply IH; right; exact H).
           destruct H' as [mps' [H1 H2]]. exists mps'. split; [right; exact H1|exact H2].
Qed.

Lemma mono_refl : forall s, mono s s.
Proof. intros s. split; [|split]; auto. Qed.

Lemma mono_trans : forall s1 s2 s3, mono s1 s2 -> mono s2 s3 -> mono s1 s3.
Proof. intros s1 s2 s3 [A1 [B1 C1]] [A2 [B2 C2]]. split; [|split]; auto. Qed.

Lemma root_path_mono : forall s s' rid vp, mono s s' -> root_path s rid vp -> root_path s' rid vp.
Proof.
  intros s s' rid vp [A _] [t [r [E1 [E2 E3]]]]. exists t, r. split; [apply A, E1|split; assumption].
Qed.

Lemma mount_one_spec : forall K vp mp acc s acc' s',
  mount_one K vp mp acc s = inr (acc', s') ->
  mono s s' /\
  (forall rid, subvol_root K mp rid -> acc' = append_n rid mp acc /\ root_path s' rid vp) /\
  (acc' = acc \/ exists rid, subvol_root K mp rid /\ acc' = append_n rid mp acc /\ root_path s' rid vp).
Proof.
  intros K vp mp acc s acc' s' H.
  unfold mount_one in H. destruct (open_dir K mp) as [fd|e] eqn:Eo; [|discriminate].
  unfold mount_body, close_after, ensure_root_info in H.
  cbv [wbind wemit wret wthrow get_root_info] in H.
  destruct (is_subvolume K fd) eqn:Es; cbn [negb] in H.
  - destruct (get_root_id K fd) as [rid|e] eqn:Eg.
    + assert (Hsr : subvol_root K mp rid) by (exists fd; auto).
      assert (Huniq : forall rid', subvol_root K mp rid' -> rid' = rid).
      { intros rid' [fd' [E1 [_ E3]]]. rewrite Eo in E1. injection E1 as <-. congruence. }
      destruct (w_root_info s) as [t0|] eqn:Er; cbn in H.
      * destruct (lookup_n rid t0) as [r|] eqn:El; [|discriminate].
        destruct (String.eqb (ri_path r) vp) eqn:Ep; [|discriminate].
        injection H as <- <-. apply String.eqb_eq in Ep.
        assert (Hrp : root_path (mkWState (w_mbd s) (w_devinfo s) (Some t0) (w_mpoints s)
                       ((w_trace s ++ [WOpen fd]) ++ [WClose fd])) rid vp)
          by (exists t0, r; cbn; auto).
        split; [split; [|split]; cbn; intros; congruence|]. split.
        -- intros rid' Hr'. rewrite (Huniq rid' Hr'). split; [reflexivity|exact Hrp].
        -- right. exists rid. auto.
      * destruct (read_root_tree K fd) as [t|e] eqn:Et; cbn in H; [|discriminate].
        destruct (lookup_n rid t) as [r|] eqn:El; [|discriminate].
        destruct (String.eqb (ri_path r) vp) eqn:Ep; [|discriminate].
        injection H as <- <-. apply String.eqb_eq in Ep.
        assert (Hrp : root_path (mkWState (w_mbd s) (w_devinfo s) (Some t) (w_mpoints s)
                       (((w_trace s ++ [WOpen fd]) ++ [WReadRoot fd]) ++ [WClose fd])) rid vp)
          by (exists t, r; cbn; auto).
        split; [split; [|split]; cbn; intros; congruence|]. split.
        -- intros rid' Hr'. rewrite (Huniq rid' Hr'). split; [reflexivity|exact Hrp].
        -- right. exists rid. auto.
    + destruct (errno_eqb e EPERM); cbn in H; [|discriminate].
      injection H as <- <-. split; [split; [|split]; cbn; intros; congruence|]. split.
      * intros rid [fd' [E1 [_ E3]]]. rewrite Eo in E1. injection E1 as <-. congruence.
      * left. reflexivity.
  - cbn in H. injection H as <- <-. split; [split; [|split]; cbn; intros; congruence|]. split.
    + intros rid [fd' [E1 [E2 _]]]. rewrite Eo in E1. injection E1 as <-. congruence.
    + left. reflexivity.
Qed.

Lemma mount_loop_spec : forall K l acc s acc' s',
  mount_loop K l acc s = inr (acc', s') ->
  mono s s' /\
  (forall rid mp, In_mp rid mp acc -> In_mp rid mp acc') /\
  (forall rid mp, In_mp rid mp acc' -> In_mp rid mp acc \/
     exists vp, In (vp, mp) l /\ subvol_root K mp rid /\ root_path s' rid vp) /\
  (forall rid vp mp, In (vp, mp) l -> subvol_root K mp rid -> In_mp rid mp acc').
Proof.
  intros K l. induction l as [|[vp mp] l IH]; intros acc s acc' s' H; simpl in H.
  - injection H as <- <-. split; [apply mono_refl|]. split; [auto|]. split; [auto|]. intros ? ? ? [].
  - unfold wbind in H. destruct (mount_one K vp mp acc s) as [[e s1]|[acc1 s1]] eqn:E1; [discriminate|].
    destruct (mount_one_spec _ _ _ _ _ _ _ E1) as [M1 [C1 S1]].
    destruct (IH _ _ _ _ H) as [M2 [P2 [B2 C2]]].
    assert (P1 : forall rid mp', In_mp rid mp' acc -> In_mp rid mp' acc1).
    { intros rid mp' Hin. destruct S1 as [->|[rid0 [_ [-> _]]]]; [exact Hin|].
      apply In_mp_append. left. exact Hin. }
    split; [exact (mono_trans _ _ _ M1 M2)|]. split; [auto|]. split.
    + intros rid mp' Hin. destruct (B2 rid mp' Hin) as [Hin1|[vp' [Hl [Hs Hr]]]].
      * destruct S1 as [->|[rid0 [Hs0 [-> Hr0]]]]; [left; exact Hin1|].
        apply In_mp_append in Hin1. destruct Hin1 as [Hin1|[-> ->]]; [left; exact Hin1|].
        right. exists vp. split; [left; reflexivity|]. split; [exact Hs0|].
        exact (root_path_mono _ _ _ _ M2 Hr0).
      * right. exists vp'. split; [right; exact Hl|]. split; assumption.
    + intros rid vp' mp' [E|Hl] Hs.
      * injection E as <- <-. apply P2. destruct (C1 rid Hs) as [-> _].
        apply In_mp_append. right. split; reflexivity.
      * exact (C2 rid vp' mp' Hl Hs).
Qed.

Lemma mpoints_by_dev_spec : forall K s m s',
  mpoints_by_dev K s = inr (m, s') -> mono s s' /\ w_mbd s' = Some m.
Proof.
  intros K s m s' H. unfold mpoints_by_dev in H. destruct (w_mbd s) as [m0|] eqn:E.
  - injection H as <- <-. split; [apply mono_refl|exact E].
  - destruct (parse_mountinfo K (mountinfo K) []) as [e|m1]; [discriminate|].
    injection H as <- <-. split; [|reflexivity].
    split; [|split]; cbn; auto. intros m' Hm. rewrite E in Hm. discriminate.
Qed.

Lemma read_mount_info_spec : forall K dev acc s acc' s',
  read_mount_info K dev acc s = inr (acc', s') ->
  mono s s' /\ (exists m, w_mbd s' = Some m) /\
  (forall rid mp, In_mp rid mp acc -> In_mp rid mp acc') /\
  (forall rid mp, In_mp rid mp acc' -> In_mp rid mp acc \/
     exists vp, mount_source K s' [dev] rid vp mp /\ root_path s' rid vp) /\
  (forall rid vp mp, mount_source K s' [dev] rid vp mp -> In_mp rid mp acc').
Proof.
  intros K dev acc s acc' s' H. unfold read_mount_info in H. cbv zeta in H. unfold wbind in H.
  destruct (mpoints_by_dev K s) as [[e s1]|[m s1]] eqn:E1; [discriminate|].
  destruct (mpoints_by_dev_spec _ _ _ _ E1) as [M1 Hm1].
  destruct (lookup_s (realpath K dev) m) as [l0|] eqn:El.
  - destruct (mpoints_by_dev K s1) as [[e s2]|[m' s2]] eqn:E2; [discriminate|].
    destruct (mpoints_by_dev_spec _ _ _ _ E2) as [M2 Hm2].
    assert (Em : m' = m) by (destruct M2 as [_ [B _]]; rewrite (B m Hm1) in Hm2; congruence).
    subst m'. rewrite El in H.
    destruct (mount_loop_spec _ _ _ _ _ _ H) as [M3 [P3 [B3 C3]]].
    assert (Hm3 : w_mbd s' = Some m) by (destruct M3 as [_ [B _]]; apply B, Hm2).
    split; [exact (mono_trans _ _ _ M1 (mono_trans _ _ _ M2 M3))|].
    split; [exists m; exact Hm3|]. split; [exact P3|]. split.
    + intros rid mp Hin. destruct (B3 rid mp Hin) as [Hin'|[vp [Hl [Hs Hr]]]]; [left; exact Hin'|].
      right. exists vp. split; [|exact Hr]. exists dev, m, l0. repeat split; auto. left. reflexivity.
    + intros rid vp mp [dev' [m'' [l' [[<-|[]] [Hm'' [Hl' [Hin Hs]]]]]]].
      rewrite Hm3 in Hm''. injection Hm'' as <-. rewrite El in Hl'. injection Hl' as <-.
      exact (C3 rid vp mp Hin Hs).
  - unfold wret in H. injection H as <- <-.
    split; [exact M1|]. split; [exists m; exact Hm1|]. split; [auto|]. split; [auto|].
    intros rid vp mp [dev' [m'' [l' [[<-|[]] [Hm'' [Hl' _]]]]]].
    rewrite Hm1 in Hm''. injection Hm'' as <-. rewrite El in Hl'. discriminate.
Qed.

Lemma mount_source_mono : forall K s s' devs rid vp mp,
  mono s s' -> (exists m, w_mbd s = Some m) ->
  (mount_source K s devs rid vp mp <-> mount_source K s' devs rid vp mp).
Proof.
  intros K s s' devs rid vp mp [_ [B _]] [m Hm].
  assert (Hm' := B m Hm). unfold mount_source.
  split; intros [dev [m1 [l [H1 [H2 H3]]]]]; exists dev, m1, l; (split; [exact H1|split; [|exact H3]]).
  - rewrite Hm in H2. injection H2 as <-. exact Hm'.
  - rewrite Hm' in H2. injection H2 as <-. exact Hm.
Qed.

Lemma dev_loop_spec : forall K devs acc s acc' s',
  dev_loop K devs acc s = inr (acc', s') ->
  mono s s' /\ (devs <> [] -> exists m, w_mbd s' = Some m) /\
  (forall rid mp, In_mp rid mp acc -> In_mp rid mp acc') /\
  (forall rid mp, In_mp rid mp acc' -> In_mp rid mp acc \/
     exists vp, mount_source K s' devs rid vp mp /\ root_path s' rid vp) /\
  (forall rid vp mp, mount_source K s' devs rid vp mp -> In_mp rid mp acc').
Proof.
  intros K devs. induction devs as [|dev ds IH]; intros acc s acc' s' H; simpl in H.
  - injection H as <- <-. split; [apply mono_refl|]. split; [intros C; congruence|].
    split; [auto|]. split; [auto|]. intros rid vp mp [dev [m [l [[] _]]]].
  - unfold wbind in H.
    destruct (read_mount_info K dev acc s) as [[e s1]|[acc1 s1]] eqn:E1; [discriminate|].
    destruct (read_mount_info_spec _ _ _ _ _ _ E1) as [M1 [Hm1 [P1 [B1 C1]]]].
    destruct (IH _ _ _ _ H) as [M2 [_ [P2 [B2 C2]]]].
    assert (Hm : exists m, w_mbd s' = Some m)
      by (destruct Hm1 as [m Hm1]; exists m; destruct M2 as [_ [B _]]; apply B, Hm1).
    assert (Hsrc : forall rid vp mp, mount_source K s' (dev :: ds) rid vp mp ->
              mount_source K s' [dev] rid vp mp \/ mount_source K s' ds rid vp mp).
    { intros rid vp mp [d [m [l [[Ed|Hd] Hr]]]].
      - left. exists d, m, l. split; [left; exact Ed|exact Hr].
      - right. exists d, m, l. split; [exact Hd|exact Hr]. }
    split; [exact (mono_trans _ _ _ M1 M2)|]. split; [intros _; exact Hm|].
    split; [auto|]. split.
    + intros rid mp Hin. destruct (B2 rid mp Hin) as [Hin1|[vp [Hs Hr]]].
      * destruct (B1 rid mp Hin1) as [Hin0|[vp [Hs Hr]]]; [left; exact Hin0|].
        right. exists vp. split.
        -- apply (mount_source_mono K s1 s' [dev] rid vp mp M2 Hm1) in Hs.
           destruct Hs as [d [m [l [[Ed|[]] Hr']]]]. exists d, m, l. split; [left; exact Ed|exact Hr'].
        -- exact (root_path_mono _ _ _ _ M2 Hr).
      * right. exists vp. split; [|exact Hr].
        destruct Hs as [d [m [l [Hd Hr']]]]. exists d, m, l. split; [right; exact Hd|exact Hr'].
    + intros rid vp mp Hs. destruct (Hsrc _ _ _ Hs) as [Hs1|Hs2].
      * apply P2. apply (C1 rid vp mp). apply (mount_source_mono K s1 s' [dev] rid vp mp M2 Hm1). exact Hs1.
      * exact (C2 _ _ _ Hs2).
Qed.

Lemma devinfo_loop_frame : forall lines s u s',
  devinfo_loop lines s = inr (u, s') -> (exists d, w_devinfo s = Some d) ->
  w_root_info s' = w_root_info s /\ w_mbd s' = w_mbd s /\ w_mpoints s' = w_mpoints s /\
  w_trace s' = w_trace s /\ exists d, w_devinfo s' = Some d.
Proof.
  induction lines as [|line ls IH]; intros s u s' H Hd; simpl in H.
  - injection H as _ <-. auto.
  - destruct (blkid_match line) as [[[dev label] uuid]|]; [|discriminate].
    cbv [wbind get_devinfo set_devinfo wthrow] in H.
    destruct (lookup_s uuid _) as [di|].
    + destruct (option_string_eqb (di_label di) label); [|discriminate].
      destruct (IH _ _ _ H) as [A [B [C [D E]]]]; [eexists; reflexivity|]. cbn in A, B, C, D. auto.
    + destruct (IH _ _ _ H) as [A [B [C [D E]]]]; [eexists; reflexivity|]. cbn in A, B, C, D. auto.
Qed.

Lemma device_info_spec : forall K s d s',
  device_info K s = inr (d, s') -> mono s s' /\ w_devinfo s' = Some d.
Proof.
  intros K s d s' H. unfold device_info in H. destruct (w_devinfo s) as [d0|] eqn:E.
  - injection H as <- <-. split; [apply mono_refl|exact E].
  - cbv [wbind set_devinfo wthrow] in H. destruct (blkid_output K) as [lines|]; [|discriminate].
    destruct (devinfo_loop lines _) as [[e s1]|[u s1]] eqn:E1; [discriminate|].
    destruct (devinfo_loop_frame _ _ _ _ E1 ltac:(eexists; reflexivity)) as [A [B [C [D [d1 F]]]]].
    cbn in A, B. unfold get_devinfo in H. rewrite F in H. injection H as <- <-.
    split; [|exact F]. split; [|split]; intros x Hx.
    + rewrite A. exact Hx.
    + rewrite B. exact Hx.
    + rewrite E in Hx. discriminate.
Qed.

(** [_read_mount_info] closes every descriptor it opens: whatever the
    outcome of [ensure_mount_info] (including an exception), the calls it
    issued are blocks [open; (read_root_tree)?; close] on one descriptor,
    with at most one [read_root_tree] in all, and none (the root tree
    kept) when [root_info] was already known. *)
Theorem ensure_mount_info_descriptors : forall K uuid s,
  exists bl, w_trace (final_state (ensure_mount_info K uuid s)) = w_trace s ++ blocks bl /\
    match w_root_info s with
    | Some t => reads bl = 0%nat /\ w_root_info (final_state (ensure_mount_info K uuid s)) = Some t
    | None => (reads bl <= 1)%nat
    end.
Proof.
  intros K uuid s. destruct (wsafe_ensure_mount_info K uuid s) as [bl [E R]].
  exists bl. split; [exact E|]. unfold root_reads in R.
  destruct (w_root_info s) as [t|].
  - destruct R as [R1 R2]. split; assumption.
  - destruct R as [[-> _]|[-> _]]; lia.
Qed.

(** When [ensure_mount_info] computes [fs.mpoints] and returns normally,
    the mount points it records are exactly the btrfs mount points of the
    filesystem's devices (as [blkid] lists them) that open to a subvolume
    whose root id [get_root_id] returns, each under that root id; and the
    root tree gives each recorded root id the volume path of its mount
    line. *)
Theorem ensure_mount_info_records : forall K uuid s s',
  w_mpoints s = None ->
  ensure_mount_info K uuid s = inr (tt, s') ->
  exists di info acc,
    w_devinfo s' = Some di /\ lookup_s uuid di = Some info /\ w_mpoints s' = Some acc /\
    (forall rid mp, In_mp rid mp acc ->
       exists vp, mount_source K s' (di_devices info) rid vp mp /\ root_path s' rid vp) /\
    (forall rid vp mp, mount_source K s' (di_devices info) rid vp mp -> In_mp rid mp acc).
Proof.
  intros K uuid s s' Hn H. unfold ensure_mount_info in H. rewrite Hn in H.
  unfold wbind in H. destruct (device_info K s) as [[e s1]|[di s1]] eqn:E1; [discriminate|].
  destruct (device_info_spec _ _ _ _ E1) as [M1 Hd1].
  destruct (lookup_s uuid di) as [info|] eqn:El; [|discriminate].
  destruct (dev_loop K (di_devices info) [] s1) as [[e s2]|[acc s2]] eqn:E2; [discriminate|].
  injection H as <-.
  destruct (dev_loop_spec _ _ _ _ _ _ E2) as [M2 [_ [_ [B2 C2]]]].
  exists di, info, acc. split; [cbn; destruct M2 as [_ [_ D]]; apply D, Hd1|].
  split; [exact El|]. split; [reflexivity|]. split.
  - intros rid mp Hin. destruct (B2 rid mp Hin) as [[mps [[] _]]|Hs]. exact Hs.
  - exact C2.
Qed.

Lemma ensure_mount_info_records_witness :
  exists s', ensure_mount_info MountFixtures.K1 "u1"%string MountFixtures.wstate0 = inr (tt, s') /\
  exists di info acc,
    w_devinfo s' = Some di /\ lookup_s "u1"%string di = Some info /\ w_mpoints s' = Some acc /\
    (forall rid mp, In_mp rid mp acc ->
       exists vp, mount_source MountFixtures.K1 s' (di_devices info) rid vp mp /\ root_path s' rid vp) /\
    (forall rid vp mp, mount_source MountFixtures.K1 s' (di_devices info) rid vp mp -> In_mp rid mp acc).
Proof.
  destruct (ensure_mount_info MountFixtures.K1 "u1"%string MountFixtures.wstate0)
    as [[e s']|[[] s']] eqn:E; [vm_compute in E; discriminate|].
  exists s'. split; [reflexivity|].
  exact (ensure_mount_info_records MountFixtures.K1 "u1"%string MountFixtures.wstate0 s' eq_refl E).
Defined.

Lemma lookup_s_update : forall A k u (f : A -> A) d,
  lookup_s k (map (fun kv => if String.eqb u (fst kv) then (fst kv, f (snd kv)) else kv) d) =
  if String.eqb k u then option_map f (lookup_s k d) else lookup_s k d.
Proof.
  intros A k u f d. induction d as [|[k' v] d IH]; simpl.
  - destruct (String.eqb k u); reflexivity.
  - rewrite IH. destruct (String.eqb_spec u k') as [<-|Hne]; simpl.
    + destruct (String.eqb_spec k u) as [->|Hku]; reflexivity.
    + destruct (String.eqb_spec k k') as [->|Hkk]; [|reflexivity].
      destruct (String.eqb_spec k' u) as [->|_]; [congruence|reflexivity].
Qed.

Lemma lookup_s_snoc : forall A k u (v : A) d,
  lookup_s k (d ++ [(u, v)]) =
  match lookup_s k d with Some x => Some x | None => if String.eqb k u then Some v else None end.
Proof.
  intros A k u v d. induction d as [|[k' v'] d IH]; simpl; [destruct (String.eqb k u); reflexivity|].
  destruct (String.eqb k k'); [reflexivity|exact IH].
Qed.

Lemma line_devs_snoc : forall uuid P line,
  line_devs uuid (P ++ [line]) = line_devs uuid P ++ line_devs uuid [line].
Proof. intros. unfold line_devs. apply flat_map_app. Qed.

Lemma line_devs_in : forall uuid P line dev lab,
  In line P -> blkid_match line = Some (dev, lab, uuid) -> In dev (line_devs uuid P).
Proof.
  intros uuid P line dev lab Hin Hm. unfold line_devs. apply in_flat_map.
  exists line. split; [exact Hin|]. rewrite Hm, String.eqb_refl. left. reflexivity.
Qed.

Lemma option_string_eqb_eq : forall a b, option_string_eqb a b = true -> a = b.
Proof.
  intros [x|] [y|] H; simpl in H; try discriminate; [|reflexivity].
  apply String.eqb_eq in H. congruence.
Qed.

Lemma table_ok_nil : table_ok [] [].
Proof. split; [intros ? []|intros uuid; reflexivity]. Qed.

Lemma option_string_eqb_neq : forall a b, option_string_eqb a b = false -> a <> b.
Proof.
  intros a b H ->. destruct b as [y|]; simpl in H; [rewrite String.eqb_refl in H|]; discriminate.
Qed.

Lemma table_step_line : forall P line dev lab uuid,
  (forall l, In l P -> blkid_match l <> None) -> blkid_match line = Some (dev, lab, uuid) ->
  (forall l, In l (P ++ [line]) -> blkid_match l <> None) /\
  line_devs uuid [line] = [dev] /\ (forall u', u' <> uuid -> line_devs u' [line] = []).
Proof.
  intros P line dev lab uuid Hall Em. split; [|split].
  - intros l Hl. apply in_app_or in Hl. destruct Hl as [Hl|[<-|[]]]; [exact (Hall l Hl)|].
    rewrite Em. discriminate.
  - unfold line_devs. simpl. rewrite Em, String.eqb_refl. reflexivity.
  - intros u' Hne. unfold line_devs. simpl. rewrite Em.
    destruct (String.eqb_spec uuid u') as [->|_]; [congruence|reflexivity].
Qed.

(** A line of a known UUID with the same label: its device is appended. *)
Lemma table_step_some : forall d P line dev lab uuid di,
  table_ok d P -> blkid_match line = Some (dev, lab, uuid) ->
  lookup_s uuid d = Some di -> di_label di = lab ->
  table_ok (map (fun kv => if String.eqb uuid (fst kv)
                           then (fst kv, mkDeviceInfo (di_label (snd kv))
                                           (di_devices (snd kv) ++ [dev]))
                           else kv) d) (P ++ [line]).
Proof.
  intros d P line dev lab uuid di [Hall Ht] Em El Elab.
  destruct (table_step_line P line dev lab uuid Hall Em) as [Hall' [Hnew Hother]].
  split; [exact Hall'|]. intros u'.
  rewrite (lookup_s_update _ u' uuid (fun x => {| di_label := di_label x; di_devices := di_devices x ++ [dev] |})).
  rewrite line_devs_snoc.
  destruct (String.eqb_spec u' uuid) as [->|Hne].
  - rewrite El. cbn [option_map di_devices di_label]. specialize (Ht uuid). rewrite El in Ht. destruct Ht as [Hdv Hlb].
    rewrite Hdv, Hnew. split; [reflexivity|].
    intros l dv lb Hl Hm. apply in_app_or in Hl. destruct Hl as [Hl|[<-|[]]].
    + exact (Hlb l dv lb Hl Hm).
    + rewrite Em in Hm. injection Hm as _ <-. exact Elab.
  - specialize (Ht u'). rewrite (Hother u' Hne), app_nil_r.
    destruct (lookup_s u' d) as [inf|]; [|exact Ht].
    destruct Ht as [Hdv Hlb]. split; [exact Hdv|].
    intros l dv lb Hl Hm. apply in_app_or in Hl. destruct Hl as [Hl|[<-|[]]].
    + exact (Hlb l dv lb Hl Hm).
    + rewrite Em in Hm. injection Hm as _ _ ->. congruence.
Qed.

(** A line of a new UUID: an entry with its label and device is added. *)
Lemma table_step_none : forall d P line dev lab uuid,
  table_ok d P -> blkid_match line = Some (dev, lab, uuid) -> lookup_s uuid d = None ->
  table_ok (d ++ [(uuid, mkDeviceInfo lab [dev])]) (P ++ [line]).
Proof.
  intros d P line dev lab uuid [Hall Ht] Em El.
  destruct (table_step_line P line dev lab uuid Hall Em) as [Hall' [Hnew Hother]].
  split; [exact Hall'|]. intros u'.
  rewrite lookup_s_snoc, line_devs_snoc.
  specialize (Ht u'). destruct (String.eqb_spec u' uuid) as [->|Hne].
  - rewrite El in Ht |- *. cbn [di_devices di_label]. rewrite Ht, Hnew. split; [reflexivity|].
    intros l dv lb Hl Hm. apply in_app_or in Hl. destruct Hl as [Hl|[<-|[]]].
    + exfalso. assert (Hi := line_devs_in _ _ _ _ _ Hl Hm). rewrite Ht in Hi. destruct Hi.
    + rewrite Em in Hm. injection Hm as _ <-. reflexivity.
  - rewrite (Hother u' Hne), app_nil_r.
    destruct (lookup_s u' d) as [inf|]; [|exact Ht].
    destruct Ht as [Hdv Hlb]. split; [exact Hdv|].
    intros l dv lb Hl Hm. apply in_app_or in Hl. destruct Hl as [Hl|[<-|[]]].
    + exact (Hlb l dv lb Hl Hm).
    + rewrite Em in Hm. injection Hm as _ _ ->. congruence.
Qed.

Lemma devinfo_loop_table : forall ls s P d u s',
  devinfo_loop ls s = inr (u, s') -> w_devinfo s = Some d -> table_ok d P ->
  exists d', w_devinfo s' = Some d' /\ table_ok d' (P ++ ls).
Proof.
  induction ls as [|line ls IH]; intros s P d u s' H Hd Ht; simpl in H.
  - injection H as _ <-. exists d. rewrite app_nil_r. split; assumption.
  - destruct (blkid_match line) as [[[dev lab] uuid]|] eqn:Em; [|discriminate].
    cbv [wbind get_devinfo set_devinfo wthrow] in H. rewrite Hd in H.
    destruct (lookup_s uuid d) as [di|] eqn:El.
    + destruct (option_string_eqb (di_label di) lab) eqn:Elab; [|discriminate].
      apply option_string_eqb_eq in Elab.
      destruct (IH _ (P ++ [line]) _ _ _ H eq_refl (table_step_some d P line dev lab uuid di Ht Em El Elab))
        as [d' [Hd' Ht']].
      exists d'. rewrite <- app_assoc in Ht'. split; assumption.
    + destruct (IH _ (P ++ [line]) _ _ _ H eq_refl (table_step_none d P line dev lab uuid Ht Em El))
        as [d' [Hd' Ht']].
      exists d'. rewrite <- app_assoc in Ht'. split; assumption.
Qed.

(** The line that stops the loop: it does not match ([AttributeError]) or
    repeats a UUID with another label ([AssertionError]); the dict then
    holds the lines before it. *)
Lemma devinfo_loop_error : forall ls s P d e s1,
  devinfo_loop ls s = inl (e, s1) -> w_devinfo s = Some d -> table_ok d P ->
  exists P' line rest d1, ls = P' ++ line :: rest /\ w_devinfo s1 = Some d1 /\
    table_ok d1 (P ++ P') /\
    (e = AttributeError /\ blkid_match line = None \/
     e = AssertionError /\ exists dev lab uuid info, blkid_match line = Some (dev, lab, uuid) /\
       lookup_s uuid d1 = Some info /\ di_label info <> lab).
Proof.
  induction ls as [|line ls IH]; intros s P d e s1 H Hd Ht; simpl in H; [discriminate|].
  destruct (blkid_match line) as [[[dev lab] uuid]|] eqn:Em.
  - cbv [wbind get_devinfo set_devinfo wthrow] in H. rewrite Hd in H.
    destruct (lookup_s uuid d) as [di|] eqn:El.
    + destruct (option_string_eqb (di_label di) lab) eqn:Elab.
      * apply option_string_eqb_eq in Elab.
        destruct (IH _ (P ++ [line]) _ _ _ H eq_refl (table_step_some d P line dev lab uuid di Ht Em El Elab))
          as [P' [l [rest [d1 [E1 [E2 [E3 E4]]]]]]].
        exists (line :: P'), l, rest, d1. split; [rewrite E1; reflexivity|].
        split; [exact E2|]. split; [rewrite <- app_assoc in E3; exact E3|exact E4].
      * injection H as <- <-. exists [], line, ls, d. rewrite app_nil_r. split; [reflexivity|].
        split; [exact Hd|]. split; [exact Ht|]. right. split; [reflexivity|].
        exists dev, lab, uuid, di. split; [exact Em|]. split; [exact El|].
        exact (option_string_eqb_neq _ _ Elab).
    + destruct (IH _ (P ++ [line]) _ _ _ H eq_refl (table_step_none d P line dev lab uuid Ht Em El))
        as [P' [l [rest [d1 [E1 [E2 [E3 E4]]]]]]].
      exists (line :: P'), l, rest, d1. split; [rewrite E1; reflexivity|].
      split; [exact E2|]. split; [rewrite <- app_assoc in E3; exact E3|exact E4].
  - cbv [wthrow] in H. injection H as <- <-. exists [], line, ls, d. rewrite app_nil_r.
    split; [reflexivity|]. split; [exact Hd|]. split; [exact Ht|]. left. split; [reflexivity|exact Em].
Qed.

Lemma lookup_s_some_in : forall A k (d : list (string * A)) v,
  lookup_s k d = Some v -> In k (map fst d).
Proof.
  intros A k d v. induction d as [|[k' v'] d IH]; simpl; [discriminate|].
  destruct (String.eqb_spec k k') as [->|_]; [left; reflexivity|intros H; right; exact (IH H)].
Qed.

Lemma lookup_s_none_notin : forall A k (d : list (string * A)),
  lookup_s k d = None -> ~ In k (map fst d).
Proof.
  intros A k d. induction d as [|[k' v'] d IH]; simpl; [intros _ []|].
  destruct (String.eqb_spec k k') as [->|Hne]; [discriminate|].
  intros H [E|Hin]; [congruence|exact (IH H Hin)].
Qed.

Lemma line_devs_app_nonempty : forall u P line,
  line_devs u (P ++ [line]) <> [] <-> line_devs u P <> [] \/ line_devs u [line] <> [].
Proof.
  intros u P line. rewrite line_devs_snoc.
  destruct (line_devs u P) as [|a l1]; destruct (line_devs u [line]) as [|b l2]; simpl;
    split; intros H.
  - exfalso. apply H. reflexivity.
  - destruct H as [H|H]; exact H.
  - right. discriminate.
  - discriminate.
  - left. discriminate.
  - discriminate.
  - left. discriminate.
  - discriminate.
Qed.

(** The keys of the dict: each UUID once, exactly the UUIDs of the lines. *)
Lemma devinfo_loop_keys : forall ls s P d u s',
  devinfo_loop ls s = inr (u, s') -> w_devinfo s = Some d ->
  NoDup (map fst d) -> (forall k, In k (map fst d) <-> line_devs k P <> []) ->
  exists d', w_devinfo s' = Some d' /\ NoDup (map fst d') /\
    (forall k, In k (map fst d') <-> line_devs k (P ++ ls) <> []).
Proof.
  induction ls as [|line ls IH]; intros s P d u s' H Hd Hnd Hk; simpl in H.
  - injection H as _ <-. exists d. rewrite app_nil_r. auto.
  - destruct (blkid_match line) as [[[dev lab] uuid]|] eqn:Em; [|discriminate].
    cbv [wbind get_devinfo set_devinfo wthrow] in H. rewrite Hd in H.
    assert (Hl : forall k, line_devs k [line] <> [] <-> k = uuid).
    { intros k. unfold line_devs. simpl. rewrite Em.
      destruct (String.eqb_spec uuid k) as [->|Hne]; simpl; split; intros Hx;
        try reflexivity; try discriminate; try congruence. }
    destruct (lookup_s uuid d) as [di|] eqn:El.
    + destruct (option_string_eqb (di_label di) lab); [|discriminate].
      match type of H with devinfo_loop _ (mkWState _ (Some ?d1) _ _ _) = _ =>
        assert (Hkeys : map fst d1 = map fst d)
          by (rewrite map_map; apply map_ext; intros [k v]; simpl;
              destruct (String.eqb uuid k); reflexivity) end.
      destruct (IH _ (P ++ [line]) _ _ _ H eq_refl) as [d' [Hd' [Hnd' Hk']]].
      * rewrite Hkeys. exact Hnd.
      * intros k. rewrite Hkeys, line_devs_app_nonempty, Hl, <- Hk. split.
        -- intros Hx. left. exact Hx.
        -- intros [Hx| ->]; [exact Hx|exact (lookup_s_some_in _ _ _ _ El)].
      * exists d'. rewrite <- app_assoc in Hk'. auto.
    + destruct (IH _ (P ++ [line]) _ _ _ H eq_refl) as [d' [Hd' [Hnd' Hk']]].
      * rewrite map_app. simpl. apply NoDup_app; [exact Hnd|constructor; [intros []|constructor]|].
        intros x Hx [<-|[]]. exact (lookup_s_none_notin _ _ _ El Hx).
      * intros k. rewrite map_app, in_app_iff, line_devs_app_nonempty, Hl, <- Hk. simpl.
        split; intros [Hx|Hx]; auto; destruct Hx as [->|[]]; auto.
      * exists d'. rewrite <- app_assoc in Hk'. auto.
Qed.

(** [device_info] run without a cache: on success, the dict it caches
    and returns has one entry for each UUID of the [blkid] lines and no
    other, each listing the devices of its lines in their order, with the label
    all its lines carry; every line matched [BLKID_RE]. *)
Theorem device_info_groups : forall K s lines d s',
  w_devinfo s = None -> blkid_output K = Some lines -> device_info K s = inr (d, s') ->
  w_devinfo s' = Some d /\ table_ok d lines /\ NoDup (map fst d) /\
  (forall uuid, In uuid (map fst d) <->
     exists line dev lab, In line lines /\ blkid_match line = Some (dev, lab, uuid)).
Proof.
  intros K s lines d s' Hn Hb H. unfold device_info in H. rewrite Hn in H.
  cbv [wbind set_devinfo wthrow] in H. rewrite Hb in H.
  destruct (devinfo_loop lines _) as [[e s1]|[u s1]] eqn:E1; [discriminate|].
  destruct (devinfo_loop_table _ _ [] [] _ _ E1 eq_refl table_ok_nil) as [d1 [Hd1 Ht]].
  destruct (devinfo_loop_keys _ _ [] [] _ _ E1 eq_refl (NoDup_nil _)
              ltac:(intros k; simpl; split; [intros []|intros Hx; exfalso; apply Hx; reflexivity]))
    as [d2 [Hd2 [Hnd Hk]]].
  rewrite Hd1 in Hd2. injection Hd2 as <-.
  unfold get_devinfo in H. rewrite Hd1 in H. injection H as <- <-.
  split; [exact Hd1|]. split; [exact Ht|]. split; [exact Hnd|].
  intros uuid. rewrite Hk. simpl. split.
  - intros Hne. destruct (line_devs uuid lines) as [|dev rest] eqn:Ed; [congruence|].
    assert (Hin : In dev (line_devs uuid lines)) by (rewrite Ed; left; reflexivity).
    unfold line_devs in Hin. apply in_flat_map in Hin. destruct Hin as [line [Hl Hx]].
    destruct (blkid_match line) as [[[dv lb] uu]|] eqn:Em; [|destruct Hx].
    destruct (String.eqb_spec uu uuid) as [->|_]; [|destruct Hx].
    exists line, dv, lb. auto.
  - intros [line [dev [lab [Hl Hm]]]] He. pose proof (line_devs_in _ _ _ _ _ Hl Hm) as Hi.
    rewrite He in Hi. destruct Hi.
Qed.

(** [device_info] stores its dict before [blkid] runs and fills it in
    place: when it raises, the cache keeps what was filled, and the next
    call returns that dict without error and without running [blkid]. A
    failing [blkid] leaves an empty dict; otherwise the dict is that of
    the lines before the failing one, which either does not match
    [BLKID_RE] ([AttributeError]) or repeats a UUID with another label
    ([AssertionError]). *)
Theorem device_info_error_cache : forall K s e s1,
  w_devinfo s = None -> device_info K s = inl (e, s1) ->
  exists d1, w_devinfo s1 = Some d1 /\ device_info K s1 = inr (d1, s1) /\
    ((blkid_output K = None /\ e = CalledProcessError /\ d1 = []) \/
     (exists P line rest, blkid_output K = Some (P ++ line :: rest) /\ table_ok d1 P /\
        (e = AttributeError /\ blkid_match line = None \/
         e = AssertionError /\ exists dev lab uuid info, blkid_match line = Some (dev, lab, uuid) /\
           lookup_s uuid d1 = Some info /\ di_label info <> lab))).
Proof.
  intros K s e s1 Hn H. unfold device_info in H. rewrite Hn in H.
  cbv [wbind set_devinfo wthrow] in H. destruct (blkid_output K) as [lines|] eqn:Hb.
  - destruct (devinfo_loop lines _) as [[e1 s2]|[u s2]] eqn:E1.
    + injection H as <- <-.
      destruct (devinfo_loop_error _ _ [] [] _ _ E1 eq_refl table_ok_nil)
        as [P [line [rest [d1 [E2 [E3 [E4 E5]]]]]]].
      exists d1. split; [exact E3|]. split; [unfold device_info; rewrite E3; reflexivity|].
      right. exists P, line, rest. rewrite E2. auto.
    + unfold get_devinfo in H. destruct (w_devinfo s2); discriminate.
  - injection H as <- <-. exists []. split; [reflexivity|]. split; [reflexivity|].
    left. auto.
Qed.

Lemma device_info_groups_witness :
  exists lines d s', blkid_output MountFixtures.K2 = Some lines /\
    device_info MountFixtures.K2 MountFixtures.wstate0 = inr (d, s') /\
    w_devinfo s' = Some d /\ table_ok d lines /\ NoDup (map fst d) /\
    (forall uuid, In uuid (map fst d) <->
       exists line dev lab, In line lines /\ blkid_match line = Some (dev, lab, uuid)).
Proof.
  destruct (device_info MountFixtures.K2 MountFixtures.wstate0)
    as [[e s']|[d s']] eqn:E; [vm_compute in E; discriminate|].
  exists (match blkid_output MountFixtures.K2 with Some l => l | None => [] end), d, s'.
  split; [reflexivity|]. split; [reflexivity|].
  exact (device_info_groups MountFixtures.K2 MountFixtures.wstate0 _ d s' eq_refl eq_refl E).
Defined.

Lemma device_info_error_cache_witness :
  exists e s1, device_info MountFixtures.K3 MountFixtures.wstate0 = inl (e, s1) /\
  exists d1, w_devinfo s1 = Some d1 /\ device_info MountFixtures.K3 s1 = inr (d1, s1) /\
    ((blkid_output MountFixtures.K3 = None /\ e = CalledProcessError /\ d1 = []) \/
     (exists P line rest, blkid_output MountFixtures.K3 = Some (P ++ line :: rest) /\ table_ok d1 P /\
        (e = AttributeError /\ blkid_match line = None \/
         e = AssertionError /\ exists dev lab uuid info, blkid_match line = Some (dev, lab, uuid) /\
           lookup_s uuid d1 = Some info /\ di_label info <> lab))).
Proof.
  destruct (device_info MountFixtures.K3 MountFixtures.wstate0)
    as [[e s1]|[d s1]] eqn:E; [|vm_compute in E; discriminate].
  exists e, s1. split; [reflexivity|].
  exact (device_info_error_cache MountFixtures.K3 MountFixtures.wstate0 e s1 eq_refl E).
Defined.

Lemma strip_prefix_app : forall p r, strip_prefix p (p ++ r) = Some r.
Proof.
  induction p as [|c p IH]; intros r; [reflexivity|]. simpl. rewrite Ascii.eqb_refl. apply IH.
Qed.

Lemma span_not_app : forall c a r, has_char c a = false -> span_not c (a ++ String c r) = (a, String c r).
Proof.
  intros c a r. induction a as [|x a IH]; intros H; simpl.
  - rewrite Ascii.eqb_refl. reflexivity.
  - simpl in H. apply orb_false_iff in H. destruct H as [H1 H2]. rewrite H1, IH by exact H2.
    reflexivity.
Qed.

Lemma uuid_tail_line : forall uuid trail,
  has_char dq uuid = false -> all_ws trail = true ->
  uuid_tail ("UUID=" ++ String dq EmptyString ++ uuid ++ String dq EmptyString ++ trail)%string = Some uuid.
Proof.
  intros uuid trail Hu Ht. unfold uuid_tail. rewrite !strip_prefix_app.
  change (String dq EmptyString ++ trail)%string with (String dq trail).
  rewrite (span_not_app dq uuid trail Hu).
  change (String dq trail) with (String dq EmptyString ++ trail)%string.
  rewrite strip_prefix_app, Ht. reflexivity.
Qed.

Lemma string_app_assoc : forall a b c : string, ((a ++ b) ++ c = a ++ b ++ c)%string.
Proof. induction a as [|x a IH]; intros b c; simpl; [reflexivity|]. rewrite IH. reflexivity. Qed.

Lemma label_group_line : forall l R, has_char dq l = false ->
  label_group (("LABEL=" ++ String dq EmptyString ++ l ++ String dq EmptyString ++ " ") ++ R)%string =
  Some (l, R).
Proof.
  intros l R Hl. rewrite !string_app_assoc. unfold label_group. rewrite !strip_prefix_app.
  change (String dq EmptyString ++ " " ++ R)%string with (String dq (" " ++ R))%string.
  rewrite (span_not_app dq l _ Hl).
  change (String dq (" " ++ R))%string with (String dq " " ++ R)%string.
  rewrite strip_prefix_app. reflexivity.
Qed.

Lemma label_group_uuid : forall R, label_group ("UUID=" ++ R)%string = None.
Proof. reflexivity. Qed.

(** [BLKID_RE] reads back the fields of a [blkid] line: for a device name
    without a colon, a label and a UUID without double quotes, and a tail
    of whitespace, the match gives the device path, the label (none when
    the line has no label part) and the UUID. *)
Theorem blkid_match_line : forall d lab uuid trail,
  has_char ":"%char d = false -> has_char dq uuid = false ->
  match lab with Some l => has_char dq l = false | None => True end -> all_ws trail = true ->
  blkid_match (blkid_line d lab uuid trail) = Some (("/dev/" ++ d)%string, lab, uuid).
Proof.
  intros d lab uuid trail Hd Hu Hl Ht. unfold blkid_match, blkid_line.
  rewrite strip_prefix_app.
  match goal with |- context [span_not _ (d ++ ": " ++ ?R)%string] =>
    change (d ++ ": " ++ R)%string with (d ++ String ":" (" " ++ R))%string;
    rewrite (span_not_app ":"%char d (" " ++ R)%string Hd);
    change (String ":" (" " ++ R))%string with (": " ++ R)%string
  end.
  rewrite strip_prefix_app.
  destruct lab as [l|].
  - rewrite (label_group_line l _ Hl), (uuid_tail_line uuid trail Hu Ht). reflexivity.
  - change (EmptyString ++ ?R)%string with R.
    rewrite label_group_uuid, (uuid_tail_line uuid trail Hu Ht). reflexivity.
Qed.

Lemma words_app_word : forall w rest cur, no_ws w = true ->
  words (list_ascii_of_string (w ++ rest)) cur =
  words (list_ascii_of_string rest) (rev (list_ascii_of_string w) ++ cur).
Proof.
  induction w as [|c w IH]; intros rest cur H; [reflexivity|].
  simpl in H. apply andb_true_iff in H. destruct H as [H1 H2].
  apply negb_true_iff in H1. simpl. rewrite H1, IH by exact H2.
  rewrite <- app_assoc. reflexivity.
Qed.

Lemma list_ascii_word : forall w, word w = true ->
  no_ws w = true /\ exists c l, rev (list_ascii_of_string w) = c :: l.
Proof.
  intros [|c w] H; [discriminate|]. split; [exact H|]. simpl.
  destruct (rev (list_ascii_of_string w)) as [|x l]; simpl; eexists; eexists; reflexivity.
Qed.

Lemma string_app_nil_r : forall w : string, (w ++ EmptyString)%string = w.
Proof. induction w as [|c w IH]; simpl; [reflexivity|]. rewrite IH. reflexivity. Qed.

Lemma words_concat : forall ws, forallb word ws = true ->
  words (list_ascii_of_string (String.concat " "%string ws)) [] = map list_ascii_of_string ws.
Proof.
  induction ws as [|w ws IH]; intros H; [reflexivity|].
  simpl in H. apply andb_true_iff in H. destruct H as [Hw H].
  destruct (list_ascii_word w Hw) as [Hn [c [l Hr]]].
  assert (Hrr : rev l ++ [c] = list_ascii_of_string w)
    by (change (rev l ++ [c]) with (rev (c :: l)); rewrite <- Hr; apply rev_involutive).
  destruct ws as [|w' ws'].
  - simpl String.concat. rewrite <- (string_app_nil_r w) at 1.
    rewrite (words_app_word w EmptyString [] Hn), app_nil_r, Hr. simpl.
    rewrite Hrr. reflexivity.
  - change (String.concat " "%string (w :: w' :: ws'))
      with (w ++ " " ++ String.concat " " (w' :: ws'))%string.
    change (map list_ascii_of_string (w :: w' :: ws'))
      with (list_ascii_of_string w :: map list_ascii_of_string (w' :: ws')).
    rewrite <- IH by exact H.
    remember (String.concat " "%string (w' :: ws')) as T eqn:ET.
    rewrite (words_app_word w _ [] Hn), app_nil_r, Hr. simpl. rewrite Hrr. reflexivity.
Qed.

Lemma py_split_concat : forall ws, forallb word ws = true -> py_split (String.concat " "%string ws) = ws.
Proof.
  intros ws H. unfold py_split. rewrite words_concat by exact H.
  rewrite map_map. erewrite map_ext; [apply map_id|]. intros a. apply string_of_list_ascii_of_string.
Qed.

Lemma index_of_app : forall x pre post, existsb (String.eqb x) pre = false ->
  index_of x (pre ++ x :: post) = Some (List.length pre).
Proof.
  intros x pre post. induction pre as [|y pre IH]; intros H; simpl.
  - rewrite String.eqb_refl. reflexivity.
  - simpl in H. apply orb_false_iff in H. destruct H as [H1 H2]. rewrite H1, IH by exact H2.
    reflexivity.
Qed.

Lemma nth_error_after : forall A (pre post : list A) n,
  nth_error (pre ++ post) (List.length pre + n) = nth_error post n.
Proof. intros A pre post n. induction pre as [|x pre IH]; [reflexivity|exact IH]. Qed.

(** A [/proc/self/mountinfo] line read back by the loop of
    [mpoints_by_dev]: when every field is non-empty without whitespace,
    three ids come before the root and the mount point, and no field
    before the separator is a lone dash, a btrfs line gives the real path
    of its source with the pair (root, mount point), and a line of any
    other type is skipped. *)
Theorem parse_mount_line_fields : forall K ids root mpoint rest fstype src sopts,
  List.length ids = 3%nat ->
  forallb word (ids ++ [root; mpoint] ++ rest ++ ["-"%string; fstype; src] ++ sopts) = true ->
  existsb (String.eqb "-") (ids ++ [root; mpoint] ++ rest) = false ->
  parse_mount_line K (mount_line ids root mpoint rest fstype src sopts) =
    inr (if String.eqb fstype "btrfs" then Some (realpath K src, (root, mpoint)) else None).
Proof.
  intros K ids root mpoint rest fstype src sopts Hl Hw Hd.
  unfold parse_mount_line, mount_line. rewrite py_split_concat by exact Hw.
  set (pre := ids ++ [root; mpoint] ++ rest).
  assert (E : ids ++ [root; mpoint] ++ rest ++ ["-"%string; fstype; src] ++ sopts =
              pre ++ "-"%string :: fstype :: src :: sopts)
    by (unfold pre; rewrite <- !app_assoc; reflexivity).
  rewrite E, index_of_app by exact Hd. cbv beta iota.
  replace (S (List.length pre)) with (List.length pre + 1)%nat by lia.
  replace (S (List.length pre + 1)) with (List.length pre + 2)%nat by lia.
  rewrite !nth_error_after.
  change (nth_error ("-"%string :: fstype :: src :: sopts) 1) with (Some fstype).
  change (nth_error ("-"%string :: fstype :: src :: sopts) 2) with (Some src).
  cbv beta iota. destruct (String.eqb fstype "btrfs"); [|reflexivity]. cbv beta iota.
  rewrite <- E. unfold pre.
  destruct ids as [|i1 [|i2 [|i3 [|i4 ids]]]]; try discriminate. reflexivity.
Qed.

Lemma lookup_s_append_s : forall A k d (x : A) m,
  lookup_s k (append_s d x m) =
  if String.eqb k d then Some (match lookup_s k m with Some l => l ++ [x] | None => [x] end)
  else lookup_s k m.
Proof.
  intros A k d x m. induction m as [|[k' l] m IH]; simpl.
  - destruct (String.eqb k d); reflexivity.
  - destruct (String.eqb_spec d k') as [<-|Hdk]; simpl.
    + destruct (String.eqb_spec k d) as [->|]; reflexivity.
    + rewrite IH. destruct (String.eqb_spec k d) as [->|Hkd].
      * destruct (String.eqb_spec d k') as [->|]; [congruence|reflexivity].
      * reflexivity.
Qed.

Definition extend_entries (o : option (list (string * string))) (l : list (string * string)) :=
  match o with
  | Some l0 => Some (l0 ++ l)
  | None => match l with [] => None | _ => Some l end
  end.

Lemma parse_mountinfo_groups : forall K lines mbd m, parse_mountinfo K lines mbd = inr m ->
  forall dev, lookup_s dev m = extend_entries (lookup_s dev mbd) (mount_entries K dev lines).
Proof.
  intros K lines. induction lines as [|line ls IH]; intros mbd m H dev; simpl in H.
  - injection H as <-. unfold mount_entries. simpl.
    destruct (lookup_s dev mbd); simpl; [rewrite app_nil_r|]; reflexivity.
  - unfold mount_entries. simpl. fold (mount_entries K dev ls).
    destruct (parse_mount_line K line) as [e|[[d p]|]]; [discriminate| |exact (IH _ _ H dev)].
    rewrite (IH _ _ H dev), lookup_s_append_s.
    destruct (String.eqb_spec dev d) as [->|Hne].
    + rewrite String.eqb_refl. destruct (lookup_s d mbd); simpl; [rewrite <- app_assoc|]; reflexivity.
    + destruct (String.eqb_spec d dev) as [->|]; [congruence|reflexivity].
Qed.

(** [mpoints_by_dev] read with no cache: on success it caches and
    returns a dict whose entry for a device lists the (root, mount point)
    pairs of the btrfs lines whose source resolves to that device, in
    file order, with no entry for a device without such lines. *)
Theorem mpoints_by_dev_groups : forall K s m s',
  w_mbd s = None -> mpoints_by_dev K s = inr (m, s') ->
  w_mbd s' = Some m /\
  forall dev, lookup_s dev m = match mount_entries K dev (mountinfo K) with [] => None | l => Some l end.
Proof.
  intros K s m s' Hn H. unfold mpoints_by_dev in H. rewrite Hn in H.
  destruct (parse_mountinfo K (mountinfo K) []) as [e|m0] eqn:E; [discriminate|].
  injection H as <- <-. split; [reflexivity|].
  intros dev. rewrite (parse_mountinfo_groups K _ [] m0 E dev). simpl.
  destruct (mount_entries K dev (mountinfo K)); reflexivity.
Qed.

Lemma parse_mountinfo_first_error : forall K pre line post e mbd,
  Forall (fun l => exists r, parse_mount_line K l = inr r) pre -> parse_mount_line K line = inl e ->
  parse_mountinfo K (pre ++ line :: post) mbd = inl e.
Proof.
  intros K pre line post e. induction pre as [|l pre IH]; intros mbd Hpre He; simpl.
  - rewrite He. reflexivity.
  - inversion Hpre as [|x xs [r Hr] Hrest]; subst. rewrite Hr.
    destruct r as [[d p]|]; apply IH; [exact Hrest|exact He|exact Hrest|exact He].
Qed.

(** [mpoints_by_dev] with no cache raises exactly when a line of
    [mountinfo] cannot be parsed (no lone dash field, or too few fields
    after it or before the mount point): it raises the error of the first
    such line and leaves the state as it was, with no cache, so the next
    access reads the file again. *)
Theorem mpoints_by_dev_error : forall K s e s',
  w_mbd s = None ->
  (mpoints_by_dev K s = inl (e, s') <->
   s' = s /\
   exists pre line post, mountinfo K = pre ++ line :: post /\ parse_mount_line K line = inl e /\
     Forall (fun l => exists r, parse_mount_line K l = inr r) pre).
Proof.
  intros K s e s' Hn. split.
  - intros H. unfold mpoints_by_dev in H. rewrite Hn in H.
    destruct (parse_mountinfo K (mountinfo K) []) as [e0|m0] eqn:E; [|discriminate].
    injection H as <- <-. split; [reflexivity|].
    revert E. generalize (@nil (string * list (string * string))) as mbd.
    generalize (mountinfo K) as lines. clear.
    induction lines as [|line ls IH]; intros mbd E; simpl in E; [discriminate|].
    destruct (parse_mount_line K line) as [e1|[[d p]|]] eqn:El.
    + injection E as <-. exists [], line, ls. auto.
    + destruct (IH _ E) as [pre [l [post [E1 [E2 E3]]]]].
      exists (line :: pre), l, post. rewrite E1. split; [reflexivity|]. split; [exact E2|].
      constructor; [exists (Some (d, p)); exact El|exact E3].
    + destruct (IH _ E) as [pre [l [post [E1 [E2 E3]]]]].
      exists (line :: pre), l, post. rewrite E1. split; [reflexivity|]. split; [exact E2|].
      constructor; [exists None; exact El|exact E3].
  - intros [-> [pre [line [post [E1 [E2 E3]]]]]]. unfold mpoints_by_dev. rewrite Hn, E1.
    rewrite (parse_mountinfo_first_error K pre line post e [] E3 E2). reflexivity.
Qed.

Lemma blkid_match_line_witness :
  blkid_match (blkid_line "sda1" (Some "data"%string) "u1" " ") =
  Some ("/dev/sda1"%string, Some "data"%string, "u1"%string).
Proof.
  exact (blkid_match_line "sda1" (Some "data"%string) "u1" " " eq_refl eq_refl eq_refl eq_refl).
Defined.

Lemma parse_mount_line_fields_witness :
  parse_mount_line MountFixtures.K1
    (mount_line ["36"; "35"; "0:40"]%string "/vol" "/mnt" ["rw"; "master:1"]%string
                "btrfs" "/dev/sda1" ["rw"]%string) =
  inr (Some ("/dev/sda1"%string, ("/vol"%string, "/mnt"%string))).
Proof.
  exact (parse_mount_line_fields MountFixtures.K1 ["36"; "35"; "0:40"]%string "/vol" "/mnt"
           ["rw"; "master:1"]%string "btrfs" "/dev/sda1" ["rw"]%string eq_refl eq_refl eq_refl).
Defined.

Lemma mpoints_by_dev_groups_witness :
  exists m s', mpoints_by_dev MountFixtures.K1 MountFixtures.wstate0 = inr (m, s') /\
  w_mbd s' = Some m /\
  forall dev, lookup_s dev m =
    match mount_entries MountFixtures.K1 dev (mountinfo MountFixtures.K1) with [] => None | l => Some l end.
Proof.
  destruct (mpoints_by_dev MountFixtures.K1 MountFixtures.wstate0)
    as [[e s']|[m s']] eqn:E; [vm_compute in E; discriminate|].
  exists m, s'. split; [reflexivity|].
  exact (mpoints_by_dev_groups MountFixtures.K1 MountFixtures.wstate0 m s' eq_refl E).
Defined.

Lemma mpoints_by_dev_error_witness :
  exists e, mpoints_by_dev MountFixtures.K4 MountFixtures.wstate0 = inl (e, MountFixtures.wstate0) /\
  (mpoints_by_dev MountFixtures.K4 MountFixtures.wstate0 = inl (e, MountFixtures.wstate0) <->
   MountFixtures.wstate0 = MountFixtures.wstate0 /\
   exists pre line post, mountinfo MountFixtures.K4 = pre ++ line :: post /\
     parse_mount_line MountFixtures.K4 line = inl e /\
     Forall (fun l => exists r, parse_mount_line MountFixtures.K4 l = inr r) pre).
Proof.
  exists ValueError. split; [vm_compute; reflexivity|].
  exact (mpoints_by_dev_error MountFixtures.K4 MountFixtures.wstate0 ValueError MountFixtures.wstate0
           eq_refl).
Defined.

End WholeFSFacts.
